(** * Proxy configuration generation and the proxy agent

    A shallow embedding of [proxy/envoy/config.go] (the Envoy configuration
    generator) and of the reconciliation agent that consumes it.

    Go values are embedded as follows.
    - [int], [int32], [int64] are [Z]; no arithmetic is performed on them in
      the generator, they are only compared with [0] and printed with [%d].
    - [string] is [string]; [fmt.Sprintf] with [%s] and [%d] is string
      concatenation with stdpp's [pretty] for the decimal rendering.
    - slices are lists, a [nil] slice being the empty list; pointers to
      structs that may be [nil] are options.
    - a Go [map] is a [gmap] (or a [gset] for a [map[string]bool] used as a
      set); the order in which [range] visits it is not fixed by the
      language and is an explicit argument, see [RangeOrder].
    - structs, enums and helper functions declared in files of the package
      other than [config.go] are collected in the classes [Opaque] and
      [Helpers]. *)

From Stdlib Require Import ZArith Ascii.
From stdpp Require Import gmap strings list sorting pretty.

Local Open Scope Z_scope.
Set Warnings "-clear-no-such-hyp".

Module Envoy.

(** ** Data model *)

(** Types of the package whose declarations carry fields that [config.go]
    never looks at; they are only produced by helpers and passed along. *)
Class Opaque := {
  (** [*duration.Duration] of the protobuf library *)
  Duration : Type;
  (** the part of a [proxyconfig.RouteRule] besides the two fields below *)
  RuleSpec : Type;
  (** the part of a [Cluster] besides the fields written in [config.go] *)
  ClusterBody : Type;
  (** the part of an [HTTPRoute] besides the fields written in [config.go] *)
  RouteBody : Type;
  (** [map[string]string] attached to a route for the mixer filter *)
  OpaqueConfigT : Type;
  TCPRoute : Type;
  SSLContext : Type;
  (** configuration of the filters made by [buildFaultFilters] *)
  FaultConfig : Type;
  (** values of [mixerHTTPRouteConfig] and [mixerTCPConfig] *)
  MixerHTTPConfig : Type;
  MixerTCPConfig : Type;
  (** value of [buildZipkinTracing] *)
  TracingT : Type;
  (** [model.ServiceAccounts] *)
  ServiceAccountsT : Type;
  (** the part of a [model.Service] besides the fields read in [config.go] *)
  ServiceBody : Type;
}.

(** [model.Protocol]; the last constructor stands for every value other than
    the five that [config.go] names (UDP, Mongo, ...). *)
Inductive Protocol :=
  | ProtocolGRPC | ProtocolHTTPS | ProtocolHTTP2 | ProtocolHTTP | ProtocolTCP
  | ProtocolUnsupported.

Global Instance Protocol_eq_dec : EqDecision Protocol.
Proof. solve_decision. Defined.

(** [model.Port] *)
Record Port := {
  PortName : string;
  PortNumber : Z;
  PortProtocol : Protocol;
}.

(** [proxyconfig.ProxyMeshConfig_AuthPolicy]: a protobuf enum, that is an
    [int32] with two named values. *)
Inductive AuthPolicyT :=
  | ProxyMeshConfig_NONE
  | ProxyMeshConfig_MUTUAL_TLS
  | ProxyMeshConfig_unnamed (n : Z).

(** [proxy.Node.Type] *)
Inductive NodeType := Sidecar | Ingress | Egress | NodeTypeOther (s : string).

(** [proxy.Node] *)
Record Node := {
  Type_ : NodeType;
  IPAddress : string;
  Domain : string;
}.

Section Model.
Context `{Opaque}.

(** [proxyconfig.ProxyMeshConfig], the fields read by [config.go] *)
Record ProxyMeshConfig := {
  EgressProxyAddress : string;
  DiscoveryAddress : string;
  MixerAddress : string;
  ZipkinAddress : string;
  StatsdUdpAddress : string;
  ProxyListenPort : Z;
  ProxyHttpPort : Z;
  ProxyAdminPort : Z;
  ConnectTimeout : Duration;
  DiscoveryRefreshDelay : Duration;
  AuthPolicy : AuthPolicyT;
  AuthCertsPath : string;
}.

(** [model.Service] *)
Record Service := {
  Hostname : string;
  Address : string;
  Ports : list Port;
  ServiceRest : ServiceBody;
}.

(** [model.NetworkEndpoint] and [model.ServiceInstance] *)
Record NetworkEndpoint := {
  EndpointAddress : string;
  EndpointPort : Z;
  ServicePort : Port;
}.

Record ServiceInstance := {
  Endpoint : NetworkEndpoint;
  InstanceService : Service;
}.

(** [proxyconfig.RouteRule] *)
Record RouteRule := {
  Destination : string;
  WebsocketUpgrade : bool;
  RuleRest : RuleSpec;
}.

(** Envoy resources *)
Record Host := { URL : string }.

Record Cluster := {
  ClusterServiceName : string;
  ClusterType : string;
  ClusterHosts : list Host;
  ClusterRest : ClusterBody;
}.

Record HTTPRoute := {
  HostRewrite : string;
  OpaqueConfig : option OpaqueConfigT;
  clusters : list Cluster;
  RouteRest : RouteBody;
}.

Record VirtualHost := {
  VHName : string;
  Domains : list string;
  Routes : list HTTPRoute;
}.

Record HTTPRouteConfig := { VirtualHosts : list VirtualHost }.

Record TCPRouteConfig := { TCPRoutes : list TCPRoute }.

Record AccessLog := { Path : string }.

Record RDS := {
  RDSCluster : string;
  RouteConfigName : string;
  RDSRefreshDelayMs : Z;
}.

Record HTTPFilterTraceConfig := { OperationName : string }.

(** [HTTPFilter.Config] is an [interface{}]; these are its dynamic types *)
Inductive HTTPFilterConfigValue :=
  | FilterRouterConfig
  | FilterMixerConfig (c : MixerHTTPConfig)
  | FilterFaultConfig (c : FaultConfig).

Record HTTPFilter := {
  HFType : string;
  HFName : string;
  HFConfig : HTTPFilterConfigValue;
}.

Record HTTPFilterConfig := {
  CodecType : string;
  StatPrefix : string;
  GenerateRequestID : bool;
  UseRemoteAddress : bool;
  HTracing : option HTTPFilterTraceConfig;
  HRouteConfig : option HTTPRouteConfig;
  HRDS : option RDS;
  HFilters : list HTTPFilter;
  HAccessLog : list AccessLog;
}.

Record TCPProxyFilterConfig := {
  TStatPrefix : string;
  TRouteConfig : TCPRouteConfig;
}.

(** [NetworkFilter.Config] is an [interface{}] as well *)
Inductive NetworkFilterConfigValue :=
  | NFHTTP (c : HTTPFilterConfig)
  | NFTCPProxy (c : TCPProxyFilterConfig)
  | NFMixer (c : MixerTCPConfig).

Record NetworkFilter := {
  NFType : string;
  NFName : string;
  NFConfig : NetworkFilterConfigValue;
}.

Record Listener := {
  ListenerAddress : string;
  Name : string;
  Filters : list NetworkFilter;
  ListenerSSLContext : option SSLContext;
  BindToPort : bool;
  UseOriginalDst : bool;
}.

(** [Listeners] and [Clusters] are slices of pointers, see the
    abbreviations below; [HTTPRouteConfigs], a [map[int]*HTTPRouteConfig],
    is [gmap Z HTTPRouteConfig]. *)

Record Admin := {
  AccessLogPath : string;
  AdminAddress : string;
}.

Record DiscoveryCluster := {
  DCluster : Cluster;
  DRefreshDelayMs : Z;
}.

Record LDSCluster := {
  LCluster : string;
  LRefreshDelayMs : Z;
}.

Record ClusterManager := {
  CMClusters : list Cluster;
  SDS : option DiscoveryCluster;
  CDS : option DiscoveryCluster;
}.

Record Config := {
  ConfigListeners : list Listener;
  LDS : option LDSCluster;
  ConfigAdmin : Admin;
  ConfigClusterManager : ClusterManager;
  StatsdUDPIPAddress : string;
  Tracing : option TracingT;
}.

(** [model.ServiceDiscovery] and [model.IstioConfigStore]: interfaces, as
    the queries [config.go] makes of them. *)
Record ServiceDiscovery := {
  HostInstances : gset string → list ServiceInstance;
  Services : list Service;
  ManagementPorts : string → list Port;
}.

Record IstioConfigStore := {
  RouteRulesBySource : list ServiceInstance → list RouteRule;
  RouteRulesByDestination : list ServiceInstance → list RouteRule;
}.

(** [proxy.Environment] *)
Record Environment := {
  EnvServiceDiscovery : ServiceDiscovery;
  EnvIstioConfigStore : IstioConfigStore;
  Mesh : ProxyMeshConfig;
  ServiceAccounts : ServiceAccountsT;
}.

End Model.

Abbreviation Listeners := (list Listener).
Abbreviation Clusters := (list Cluster).

(** Constants and functions of the package that [config.go] uses and that
    other files declare. *)
Class Helpers `{Opaque} := {
  DefaultAccessLog : string;
  LocalhostAddress : string;
  WildcardAddress : string;
  RDSName : string;
  SDSName : string;
  CDSName : string;
  LDSName : string;
  RDSAll : string;
  ZipkinCollectorCluster : string;
  VirtualListenerName : string;
  IngressTraceOperation : string;
  ClusterTypeStrictDNS : string;
  HTTPConnectionManager : string;
  TCPProxyFilter : string;
  MixerFilter : string;
  decoder : string;
  router : string;
  auto : string;
  read : string;
  both : string;

  protoDurationToMS : Duration → Z;
  buildCluster : string → string → Duration → Cluster;
  buildZipkinTracing : ProxyMeshConfig → TracingT;
  buildInboundCluster : Z → Protocol → Duration → Cluster;
  (** [buildOutboundCluster(hostname, port, nil)]: the third argument, the
      tags, is [nil] at every call in [config.go] *)
  buildOutboundCluster : string → Port → Cluster;
  buildDefaultRoute : Cluster → HTTPRoute;
  buildHTTPRoute : RouteRule → Port → HTTPRoute;
  buildInboundWebsocketRoute : RouteRule → Cluster → HTTPRoute;
  CatchAll : HTTPRoute → bool;
  buildTCPRoute : Cluster → list string → TCPRoute;
  buildVirtualHost : Service → Port → list string → list HTTPRoute → VirtualHost;
  buildFaultFilters : option HTTPRouteConfig → list HTTPFilter;
  buildMixerOpaqueConfig : bool → bool → OpaqueConfigT;
  mixerHTTPRouteConfig : Node → string → MixerHTTPConfig;
  mixerTCPConfig : Node → MixerTCPConfig;
  buildListenerSSLContext : string → SSLContext;
  buildMixerCluster : ProxyMeshConfig → Cluster;
  applyClusterPolicy :
    Cluster → IstioConfigStore → ProxyMeshConfig → ServiceAccountsT → Cluster;
  External : Service → bool;
  (** the [clusters] methods of [HTTPRouteConfig] and [HTTPRouteConfigs] *)
  routeConfigClusters : HTTPRouteConfig → Clusters;
  routeConfigsClusters : gmap Z HTTPRouteConfig → Clusters;
  (** the three [normalize] methods *)
  normalizeListeners : Listeners → Listeners;
  normalizeClusters : Clusters → Clusters;
  normalizeRouteConfigs : gmap Z HTTPRouteConfig → gmap Z HTTPRouteConfig;
  buildIngressListeners :
    ProxyMeshConfig → ServiceDiscovery → IstioConfigStore → Node → Listeners;
  buildEgressListeners : ProxyMeshConfig → Node → Listeners;
  buildIngressRoutes :
    ProxyMeshConfig → ServiceDiscovery → IstioConfigStore →
    gmap Z HTTPRouteConfig;
  buildEgressRoutes :
    ProxyMeshConfig → ServiceDiscovery → gmap Z HTTPRouteConfig;
  (** [json.MarshalIndent] of a configuration: an error, or the bytes *)
  MarshalIndent : Config → string + list Byte.byte;
}.

(** ** Go library functions *)

(** [strings.Join] *)
Fixpoint Join (elems : list string) (sep : string) : string :=
  match elems with
  | [] => ""
  | [s] => s
  | s :: rest => s +:+ sep +:+ Join rest sep
  end.

(** [strings.Split] for a separator of one byte *)
Fixpoint Split (s : string) (sep : Ascii.ascii) : list string :=
  match s with
  | EmptyString => [""]
  | String c s' =>
      if decide (c = sep) then "" :: Split s' sep
      else match Split s' sep with
           | [] => [String c ""]
           | h :: t => String c h :: t
           end
  end.

(** [sort.Strings]: ascending byte-wise order *)
Definition sortStrings (l : list string) : list string :=
  merge_sort String.le l.

(** [fmt.Sprintf("tcp://%s:%d", ip, port)] *)
Definition tcpAddress (ip : string) (port : Z) : string :=
  "tcp://" +:+ ip +:+ ":" +:+ pretty port.

(** [strconv.Atoi] where [int] has 64 bits: an optional sign, then decimal
    digits, at least one, and nothing else; a value that does not fit in an
    [int] is an error. [None] stands for the error. *)
Definition digit (c : Ascii.ascii) : option Z :=
  let n := Z.of_N (Ascii.N_of_ascii c) in
  if decide (48 ≤ n ≤ 57) then Some (n - 48) else None.

Fixpoint digits (acc : Z) (s : string) : option Z :=
  match s with
  | EmptyString => Some acc
  | String c s' => d ← digit c; digits (acc * 10 + d) s'
  end.

Definition Atoi (s : string) : option Z :=
  match s with
  | EmptyString => None
  | String c rest =>
      let signed := bool_decide (c = "-"%char ∨ c = "+"%char) in
      let body := if signed then rest else s in
      match body with
      | EmptyString => None
      | String _ _ =>
          n ← digits 0 body;
          let n := if bool_decide (c = "-"%char) then - n else n in
          if decide (- 2 ^ 63 ≤ n < 2 ^ 63) then Some n else None
      end
  end.

Section Generator.
Context `{Helpers}.

(** The order in which [range] visits the keys of a map. Go leaves it
    unspecified and varies it from one loop to the next; every order is a
    permutation of the keys. *)
Record RangeOrder := {
  rangeKeys : gset string → list string;
  rangeKeys_perm : ∀ s, rangeKeys s ≡ₚ elements s;
  rangePorts : gmap Z HTTPRouteConfig → list (Z * HTTPRouteConfig);
  rangePorts_perm : ∀ m, rangePorts m ≡ₚ map_to_list m;
}.

(** *** [buildConfig] *)

Definition withLDS (out : Config) (lds : LDSCluster) (c : Cluster) : Config :=
  {| ConfigListeners := ConfigListeners out;
     LDS := Some lds;
     ConfigAdmin := ConfigAdmin out;
     ConfigClusterManager :=
       {| CMClusters := CMClusters (ConfigClusterManager out) ++ [c];
          SDS := SDS (ConfigClusterManager out);
          CDS := CDS (ConfigClusterManager out) |};
     StatsdUDPIPAddress := StatsdUDPIPAddress out;
     Tracing := Tracing out |}.

Definition withTracing (out : Config) (t : TracingT) (c : Cluster) : Config :=
  {| ConfigListeners := ConfigListeners out;
     LDS := LDS out;
     ConfigAdmin := ConfigAdmin out;
     ConfigClusterManager :=
       {| CMClusters := CMClusters (ConfigClusterManager out) ++ [c];
          SDS := SDS (ConfigClusterManager out);
          CDS := CDS (ConfigClusterManager out) |};
     StatsdUDPIPAddress := StatsdUDPIPAddress out;
     Tracing := Some t |}.

Definition buildConfig (listeners : Listeners) (clusters : Clusters)
    (lds : bool) (mesh : ProxyMeshConfig) : Config :=
  let out :=
    {| ConfigListeners := listeners;
       LDS := None;
       ConfigAdmin :=
         {| AccessLogPath := DefaultAccessLog;
            AdminAddress := tcpAddress LocalhostAddress (ProxyAdminPort mesh) |};
       ConfigClusterManager :=
         {| CMClusters :=
              clusters ++
              [buildCluster (DiscoveryAddress mesh) RDSName (ConnectTimeout mesh)];
            SDS := Some
              {| DCluster :=
                   buildCluster (DiscoveryAddress mesh) SDSName (ConnectTimeout mesh);
                 DRefreshDelayMs := protoDurationToMS (DiscoveryRefreshDelay mesh) |};
            CDS := Some
              {| DCluster :=
                   buildCluster (DiscoveryAddress mesh) CDSName (ConnectTimeout mesh);
                 DRefreshDelayMs := protoDurationToMS (DiscoveryRefreshDelay mesh) |} |};
       StatsdUDPIPAddress := StatsdUdpAddress mesh;
       Tracing := None |} in
  let out :=
    if lds then
      withLDS out
        {| LCluster := LDSName;
           LRefreshDelayMs := protoDurationToMS (DiscoveryRefreshDelay mesh) |}
        (buildCluster (DiscoveryAddress mesh) LDSName (ConnectTimeout mesh))
    else out in
  let out :=
    if decide (ZipkinAddress mesh ≠ "") then
      withTracing out (buildZipkinTracing mesh)
        (buildCluster (ZipkinAddress mesh) ZipkinCollectorCluster (ConnectTimeout mesh))
    else out in
  out.

(** *** [buildDestinationHTTPRoutes] *)

(** The loop over [rules] of lines 383-400, with [routes] as its accumulator;
    the second component is [useDefaultRoute] at the end of the loop. *)
Fixpoint collectRouteRules (service : Service) (servicePort : Port)
    (rules : list RouteRule) (routes : list HTTPRoute) : list HTTPRoute * bool :=
  match rules with
  | [] => (routes, true)
  | rule :: rules' =>
      if decide (Destination rule = Hostname service) then
        let httpRoute := buildHTTPRoute rule servicePort in
        let routes := routes ++ [httpRoute] in
        if CatchAll httpRoute then (routes, false)
        else collectRouteRules service servicePort rules' routes
      else collectRouteRules service servicePort rules' routes
  end.

Definition buildDestinationHTTPRoutes (service : Service) (servicePort : Port)
    (rules : list RouteRule) : list HTTPRoute :=
  match PortProtocol servicePort with
  | ProtocolHTTP | ProtocolHTTP2 | ProtocolGRPC =>
      let '(routes, useDefaultRoute) :=
        collectRouteRules service servicePort rules [] in
      if useDefaultRoute then
        let cluster := buildOutboundCluster (Hostname service) servicePort in
        routes ++ [buildDefaultRoute cluster]
      else routes
  | ProtocolHTTPS =>
      if External service then
        let cluster := buildOutboundCluster (Hostname service) servicePort in
        [buildDefaultRoute cluster]
      else []
  | ProtocolTCP => []
  | ProtocolUnsupported => []
  end.

(** *** Listeners *)

Definition setSSLContext (l : Listener) (ctx : option SSLContext) : Listener :=
  {| ListenerAddress := ListenerAddress l; Name := Name l;
     Filters := Filters l; ListenerSSLContext := ctx;
     BindToPort := BindToPort l; UseOriginalDst := UseOriginalDst l |}.

Definition setBindToPort (l : Listener) (b : bool) : Listener :=
  {| ListenerAddress := ListenerAddress l; Name := Name l;
     Filters := Filters l; ListenerSSLContext := ListenerSSLContext l;
     BindToPort := b; UseOriginalDst := UseOriginalDst l |}.

Definition setFilters (l : Listener) (fs : list NetworkFilter) : Listener :=
  {| ListenerAddress := ListenerAddress l; Name := Name l;
     Filters := fs; ListenerSSLContext := ListenerSSLContext l;
     BindToPort := BindToPort l; UseOriginalDst := UseOriginalDst l |}.

Definition setOpaqueConfig (r : HTTPRoute) (c : OpaqueConfigT) : HTTPRoute :=
  {| HostRewrite := HostRewrite r; OpaqueConfig := Some c;
     clusters := clusters r; RouteRest := RouteRest r |}.

(** Lines 267-281 of [buildHTTPListener]: the host names of the services of
    [instances], without repetition, sorted and joined with commas. The set
    is a Go map and is visited in the order [o] gives. A [nil] slice of
    instances and an empty one both give the empty string. *)
Definition serviceNames (o : RangeOrder) (instances : list ServiceInstance) : string :=
  match instances with
  | [] => ""
  | _ :: _ =>
      let serviceSet : gset string :=
        list_to_set ((λ instance, Hostname (InstanceService instance)) <$> instances) in
      let services := rangeKeys o serviceSet in
      Join (sortStrings services) ","
  end.

Definition buildHTTPListener (o : RangeOrder) (mesh : ProxyMeshConfig)
    (role : Node) (instances : list ServiceInstance)
    (routeConfig : option HTTPRouteConfig) (ip : string) (port : Z)
    (rds : string) (useRemoteAddress : bool) : Listener :=
  let filters := buildFaultFilters routeConfig in
  let filters :=
    filters ++
    [{| HFType := decoder; HFName := router; HFConfig := FilterRouterConfig |}] in
  let service := serviceNames o instances in
  let filters :=
    if decide (MixerAddress mesh ≠ "") then
      let mixerConfig := mixerHTTPRouteConfig role service in
      {| HFType := decoder; HFName := MixerFilter;
         HFConfig := FilterMixerConfig mixerConfig |} :: filters
    else filters in
  let config :=
    {| CodecType := auto;
       GenerateRequestID := true;
       UseRemoteAddress := useRemoteAddress;
       StatPrefix := "http";
       HAccessLog := [{| Path := DefaultAccessLog |}];
       HFilters := filters;
       HTracing :=
         if decide (ZipkinAddress mesh ≠ "")
         then Some {| OperationName := IngressTraceOperation |} else None;
       HRDS :=
         if decide (rds ≠ "")
         then Some {| RDSCluster := RDSName; RouteConfigName := rds;
                      RDSRefreshDelayMs :=
                        protoDurationToMS (DiscoveryRefreshDelay mesh) |}
         else None;
       HRouteConfig := if decide (rds ≠ "") then None else routeConfig |} in
  {| BindToPort := true;
     Name := "http_" +:+ ip +:+ "_" +:+ pretty port;
     ListenerAddress := tcpAddress ip port;
     Filters :=
       [{| NFType := read; NFName := HTTPConnectionManager;
           NFConfig := NFHTTP config |}];
     ListenerSSLContext := None;
     UseOriginalDst := false |}.

Definition applyInboundAuth (listener : Listener) (mesh : ProxyMeshConfig) : Listener :=
  match AuthPolicy mesh with
  | ProxyMeshConfig_NONE => listener
  | ProxyMeshConfig_MUTUAL_TLS =>
      setSSLContext listener (Some (buildListenerSSLContext (AuthCertsPath mesh)))
  | ProxyMeshConfig_unnamed _ => listener
  end.

Definition buildTCPListener (tcpConfig : TCPRouteConfig) (ip : string) (port : Z) : Listener :=
  {| Name := "tcp_" +:+ ip +:+ "_" +:+ pretty port;
     ListenerAddress := tcpAddress ip port;
     Filters :=
       [{| NFType := read; NFName := TCPProxyFilter;
           NFConfig := NFTCPProxy {| TStatPrefix := "tcp"; TRouteConfig := tcpConfig |} |}];
     ListenerSSLContext := None;
     BindToPort := false;
     UseOriginalDst := false |}.

(** *** Outbound routes and listeners *)

(** Lines 452-459 of [buildOutboundHTTPRoutes]: routes of an external name
    service are sent to the egress proxy. *)
Definition viaEgressProxy (mesh : ProxyMeshConfig) (service : Service)
    (route : HTTPRoute) : HTTPRoute :=
  {| HostRewrite := Hostname service;
     OpaqueConfig := OpaqueConfig route;
     clusters :=
       (λ cluster,
          {| ClusterServiceName := "";
             ClusterType := ClusterTypeStrictDNS;
             ClusterHosts := [{| URL := "tcp://" +:+ EgressProxyAddress mesh |}];
             ClusterRest := ClusterRest cluster |}) <$> clusters route;
     RouteRest := RouteRest route |}.

(** Modelled from the spec: [HTTPRouteConfigs.EnsurePort], declared outside
    [config.go], followed by the append of line 471: the route configuration
    of [port] (an empty one when the map has none yet) gets one more virtual
    host. *)
Definition appendVirtualHost (port : Z) (host : VirtualHost)
    (httpConfigs : gmap Z HTTPRouteConfig) : gmap Z HTTPRouteConfig :=
  let http := default {| VirtualHosts := [] |} (httpConfigs !! port) in
  <[port := {| VirtualHosts := VirtualHosts http ++ [host] |}]> httpConfigs.

(** The body of the inner loop of [buildOutboundHTTPRoutes] *)
Definition outboundServicePort (mesh : ProxyMeshConfig) (suffix : list string)
    (rules : list RouteRule) (service : Service)
    (httpConfigs : gmap Z HTTPRouteConfig) (servicePort : Port)
    : gmap Z HTTPRouteConfig :=
  if External service && bool_decide (EgressProxyAddress mesh = "") then httpConfigs
  else
    let routes := buildDestinationHTTPRoutes service servicePort rules in
    if decide (0 < length routes)%nat then
      let routes :=
        if External service then viaEgressProxy mesh service <$> routes
        else routes in
      let host := buildVirtualHost service servicePort suffix routes in
      appendVirtualHost (PortNumber servicePort) host httpConfigs
    else httpConfigs.

Definition buildOutboundHTTPRoutes (mesh : ProxyMeshConfig) (sidecar : Node)
    (instances : list ServiceInstance) (services : list Service)
    (config : IstioConfigStore) : gmap Z HTTPRouteConfig :=
  let suffix := Split (Domain sidecar) "."%char in
  let rules := RouteRulesBySource config instances in
  let httpConfigs :=
    foldl (λ httpConfigs service,
             foldl (outboundServicePort mesh suffix rules service)
                   httpConfigs (Ports service))
          ∅ services in
  normalizeRouteConfigs httpConfigs.

(** The body of the inner loop of [buildOutboundTCPListeners] *)
Definition outboundTCPPort (service : Service) (acc : Listeners * Clusters)
    (servicePort : Port) : Listeners * Clusters :=
  match PortProtocol servicePort with
  | ProtocolTCP | ProtocolHTTPS =>
      let cluster := buildOutboundCluster (Hostname service) servicePort in
      let route := buildTCPRoute cluster [Address service] in
      let config := {| TCPRoutes := [route] |} in
      let listener := buildTCPListener config (Address service) (PortNumber servicePort) in
      (acc.1 ++ [listener], acc.2 ++ [cluster])
  | _ => acc
  end.

Definition buildOutboundTCPListeners (mesh : ProxyMeshConfig)
    (services : list Service) : Listeners * Clusters :=
  foldl (λ acc service,
           if External service then acc
           else foldl (outboundTCPPort service) acc (Ports service))
        ([], []) services.

Definition buildOutboundListeners (o : RangeOrder) (mesh : ProxyMeshConfig)
    (sidecar : Node) (instances : list ServiceInstance)
    (services : list Service) (config : IstioConfigStore) : Listeners * Clusters :=
  let '(listeners, clusters) := buildOutboundTCPListeners mesh services in
  let httpOutbound := buildOutboundHTTPRoutes mesh sidecar instances services config in
  foldl (λ acc entry,
           let '(port, routeConfig) := entry in
           (acc.1 ++
              [buildHTTPListener o mesh sidecar instances (Some routeConfig)
                 WildcardAddress port (pretty port) false],
            acc.2 ++ routeConfigClusters routeConfig))
        (listeners, clusters) (rangePorts o httpOutbound).

(** *** Inbound listeners *)

(** Lines 560-573: one websocket route for each rule that asks for the
    upgrade. *)
Definition websocketRoutes (mesh : ProxyMeshConfig) (cluster : Cluster)
    (rules : list RouteRule) : list HTTPRoute :=
  (λ rule,
     let websocketRoute := buildInboundWebsocketRoute rule cluster in
     if decide (MixerAddress mesh ≠ "")
     then setOpaqueConfig websocketRoute (buildMixerOpaqueConfig true false)
     else websocketRoute)
  <$> filter (λ rule, WebsocketUpgrade rule = true) rules.

(** The body of the loop over [instances] of [buildInboundListeners] *)
Definition inboundInstance (o : RangeOrder) (mesh : ProxyMeshConfig)
    (sidecar : Node) (instances : list ServiceInstance)
    (config : IstioConfigStore) (acc : Listeners * Clusters)
    (instance : ServiceInstance) : Listeners * Clusters :=
  let endpoint := Endpoint instance in
  let servicePort := ServicePort endpoint in
  let protocol := PortProtocol servicePort in
  let cluster := buildInboundCluster (EndpointPort endpoint) protocol (ConnectTimeout mesh) in
  let clusters := acc.2 ++ [cluster] in
  match protocol with
  | ProtocolHTTP | ProtocolHTTP2 | ProtocolGRPC =>
      let defaultRoute := buildDefaultRoute cluster in
      let defaultRoute :=
        if decide (MixerAddress mesh ≠ "")
        then setOpaqueConfig defaultRoute (buildMixerOpaqueConfig true false)
        else defaultRoute in
      let routes :=
        if decide (protocol = ProtocolHTTP)
        then websocketRoutes mesh cluster (RouteRulesByDestination config instances)
        else [] in
      let host :=
        {| VHName := "inbound|" +:+ pretty (EndpointPort endpoint);
           Domains := ["*"];
           Routes := routes ++ [defaultRoute] |} in
      let config := {| VirtualHosts := [host] |} in
      (acc.1 ++
         [buildHTTPListener o mesh sidecar instances (Some config)
            (EndpointAddress endpoint) (EndpointPort endpoint) "" false],
       clusters)
  | ProtocolTCP | ProtocolHTTPS =>
      let listener :=
        buildTCPListener
          {| TCPRoutes := [buildTCPRoute cluster [EndpointAddress endpoint]] |}
          (EndpointAddress endpoint) (EndpointPort endpoint) in
      let listener :=
        if decide (MixerAddress mesh ≠ "") then
          let filter :=
            {| NFType := both; NFName := MixerFilter;
               NFConfig := NFMixer (mixerTCPConfig sidecar) |} in
          setFilters listener (filter :: Filters listener)
        else listener in
      (acc.1 ++ [listener], clusters)
  | ProtocolUnsupported => (acc.1, clusters)
  end.

(** The listeners and clusters of [buildInboundListeners] when its first
    loop ends, before line 603. *)
Definition inboundBeforeAuth (o : RangeOrder) (mesh : ProxyMeshConfig)
    (sidecar : Node) (instances : list ServiceInstance)
    (config : IstioConfigStore) : Listeners * Clusters :=
  foldl (inboundInstance o mesh sidecar instances config) ([], []) instances.

Definition buildInboundListeners (o : RangeOrder) (mesh : ProxyMeshConfig)
    (sidecar : Node) (instances : list ServiceInstance)
    (config : IstioConfigStore) : Listeners * Clusters :=
  let '(listeners, clusters) := inboundBeforeAuth o mesh sidecar instances config in
  let listeners := (λ listener, applyInboundAuth listener mesh) <$> listeners in
  (listeners, clusters).

(** *** Management ports *)

Definition mgmtPort (mesh : ProxyMeshConfig) (managementIP : string)
    (acc : Listeners * Clusters) (mPort : Port) : Listeners * Clusters :=
  match PortProtocol mPort with
  | ProtocolHTTP | ProtocolHTTP2 | ProtocolGRPC | ProtocolTCP | ProtocolHTTPS =>
      let cluster := buildInboundCluster (PortNumber mPort) ProtocolTCP (ConnectTimeout mesh) in
      let listener :=
        buildTCPListener {| TCPRoutes := [buildTCPRoute cluster [managementIP]] |}
          managementIP (PortNumber mPort) in
      (acc.1 ++ [listener], acc.2 ++ [cluster])
  | ProtocolUnsupported => acc
  end.

Definition buildMgmtPortListeners (mesh : ProxyMeshConfig)
    (managementPorts : list Port) (managementIP : string) : Listeners * Clusters :=
  foldl (mgmtPort mesh managementIP) ([], []) managementPorts.

(** *** [buildSidecar] *)

(** Modelled from the spec: [Listeners.GetByAddress], declared outside
    [config.go]: the first listener bound to the address, [nil] when there is
    none. *)
Fixpoint GetByAddress (listeners : Listeners) (addr : string) : option Listener :=
  match listeners with
  | [] => None
  | l :: rest =>
      if decide (ListenerAddress l = addr) then Some l
      else GetByAddress rest addr
  end.

(** The body of the loop of lines 178-189. [mgmtListeners] and
    [mgmtClusters] have the same length ([buildMgmtPortListeners_length]
    below), so indexing both with [i] visits the pairs of their [zip]. *)
Definition addMgmtListener (acc : Listeners * Clusters)
    (mc : Listener * Cluster) : Listeners * Clusters :=
  let '(m, c) := mc in
  match GetByAddress acc.1 (ListenerAddress m) with
  | Some l => acc
  | None => (acc.1 ++ [m], acc.2 ++ [c])
  end.

(** Lines 197-203 *)
Definition virtualListener (mesh : ProxyMeshConfig) : Listener :=
  {| Name := VirtualListenerName;
     ListenerAddress := tcpAddress WildcardAddress (ProxyListenPort mesh);
     BindToPort := true;
     UseOriginalDst := true;
     Filters := [];
     ListenerSSLContext := None |}.

(** Lines 166-173: the listeners and clusters of the services *)
Definition sidecarServices (o : RangeOrder) (env : Environment) (sidecar : Node)
    : Listeners * Clusters :=
  let instances := HostInstances (EnvServiceDiscovery env) {[IPAddress sidecar]} in
  let services := Services (EnvServiceDiscovery env) in
  let '(inbound, inClusters) :=
    buildInboundListeners o (Mesh env) sidecar instances (EnvIstioConfigStore env) in
  let '(outbound, outClusters) :=
    buildOutboundListeners o (Mesh env) sidecar instances services
      (EnvIstioConfigStore env) in
  (([] ++ inbound) ++ outbound, ([] ++ inClusters) ++ outClusters).

(** Lines 166-189: the management listeners that collide with no listener
    are added. *)
Definition sidecarWithMgmt (o : RangeOrder) (env : Environment) (sidecar : Node)
    : Listeners * Clusters :=
  let managementPorts :=
    ManagementPorts (EnvServiceDiscovery env) (IPAddress sidecar) in
  let '(mgmtListeners, mgmtClusters) :=
    buildMgmtPortListeners (Mesh env) managementPorts (IPAddress sidecar) in
  foldl addMgmtListener (sidecarServices o env sidecar)
        (zip mgmtListeners mgmtClusters).

(** Lines 165-204: the block run when [ProxyListenPort] is positive *)
Definition sidecarRedirect (o : RangeOrder) (env : Environment) (sidecar : Node)
    : Listeners * Clusters :=
  let '(listeners, clusters) := sidecarWithMgmt o env sidecar in
  let listeners := (λ listener, setBindToPort listener false) <$> listeners in
  (listeners ++ [virtualListener (Mesh env)], clusters).

(** Lines 207-215: the listener of the HTTP proxy port and the clusters of
    the outbound HTTP routes *)
Definition sidecarHTTPProxy (o : RangeOrder) (env : Environment) (sidecar : Node)
    : Listeners * Clusters :=
  let instances := HostInstances (EnvServiceDiscovery env) {[IPAddress sidecar]} in
  let services := Services (EnvServiceDiscovery env) in
  let httpOutbound :=
    buildOutboundHTTPRoutes (Mesh env) sidecar instances services
      (EnvIstioConfigStore env) in
  ([buildHTTPListener o (Mesh env) sidecar instances None LocalhostAddress
      (ProxyHttpPort (Mesh env)) RDSAll false],
   routeConfigsClusters httpOutbound).

(** The listeners and clusters of [buildSidecar] when line 217 is reached,
    before they are normalized. *)
Definition sidecarCollected (o : RangeOrder) (env : Environment) (sidecar : Node)
    : Listeners * Clusters :=
  let '(listeners, clusters) :=
    if decide (0 < ProxyListenPort (Mesh env))
    then sidecarRedirect o env sidecar
    else ([], []) in
  if decide (0 < ProxyHttpPort (Mesh env)) then
    let '(proxyListeners, proxyClusters) := sidecarHTTPProxy o env sidecar in
    (listeners ++ proxyListeners, clusters ++ proxyClusters)
  else (listeners, clusters).

Definition buildSidecar (o : RangeOrder) (env : Environment) (sidecar : Node)
    : Listeners * Clusters :=
  let '(listeners, clusters) := sidecarCollected o env sidecar in
  (normalizeListeners listeners, normalizeClusters clusters).

(** *** [buildListeners] and [buildClusters] *)

Definition buildListeners (o : RangeOrder) (env : Environment) (role : Node) : Listeners :=
  match Type_ role with
  | Sidecar => (buildSidecar o env role).1
  | Ingress =>
      buildIngressListeners (Mesh env) (EnvServiceDiscovery env)
        (EnvIstioConfigStore env) role
  | Egress => buildEgressListeners (Mesh env) role
  | NodeTypeOther _ => []
  end.

Definition buildClusters (o : RangeOrder) (env : Environment) (role : Node) : Clusters :=
  let clusters :=
    match Type_ role with
    | Sidecar => (buildSidecar o env role).2
    | Ingress =>
        let httpRouteConfigs :=
          buildIngressRoutes (Mesh env) (EnvServiceDiscovery env)
            (EnvIstioConfigStore env) in
        normalizeClusters (routeConfigsClusters httpRouteConfigs)
    | Egress =>
        let httpRouteConfigs :=
          buildEgressRoutes (Mesh env) (EnvServiceDiscovery env) in
        normalizeClusters (routeConfigsClusters httpRouteConfigs)
    | NodeTypeOther _ => []
    end in
  let clusters :=
    (λ cluster,
       applyClusterPolicy cluster (EnvIstioConfigStore env) (Mesh env)
         (ServiceAccounts env)) <$> clusters in
  if decide (MixerAddress (Mesh env) ≠ "")
  then clusters ++ [buildMixerCluster (Mesh env)]
  else clusters.

End Generator.

(** ** Route discovery *)

Section RouteDiscovery.
Context `{Helpers}.

(** [HTTPRouteConfigs.combine], declared outside [config.go]; it returns a
    pointer. *)
Variable combine : gmap Z HTTPRouteConfig → option HTTPRouteConfig.

(** [buildRDSRoute]; [None] is the [nil] pointer. The route configurations
    of the node are [None] for a node of a type that the [switch] does not
    name, for which the function returns at once. *)
Definition buildRDSRoute (mesh : ProxyMeshConfig) (role : Node)
    (routeName : string) (discovery : ServiceDiscovery)
    (config : IstioConfigStore) : option HTTPRouteConfig :=
  let configs : option (gmap Z HTTPRouteConfig) :=
    match Type_ role with
    | Ingress => Some (buildIngressRoutes mesh discovery config)
    | Egress => Some (buildEgressRoutes mesh discovery)
    | Sidecar =>
        let instances := HostInstances discovery {[IPAddress role]} in
        let services := Services discovery in
        Some (buildOutboundHTTPRoutes mesh role instances services config)
    | NodeTypeOther _ => None
    end in
  match configs with
  | None => None
  | Some configs =>
      if decide (routeName = RDSAll) then combine configs
      else
        match Atoi routeName with
        | None => None
        | Some port => configs !! port
        end
  end.

End RouteDiscovery.

(** ** Writing a configuration *)

(** The host as [WriteFile] sees it: the files by path, what was written to
    the standard error stream, the calls made to the operating system in the
    order they were made, and the lines logged through [glog]. *)
Inductive Writer := Stderr | File (fname : string).

Inductive SysCall :=
  | SysCreate (fname : string)
  | SysWrite (w : Writer) (data : list Byte.byte)
  | SysClose (fname : string)
  | SysRename (oldpath newpath : string).

Record World := {
  files : gmap string (list Byte.byte);
  stderr : list Byte.byte;
  syscalls : list SysCall;
  logged : list string;
}.

(** What the host answers during one [WriteFile]: whether [glog.V(2)] is on,
    and the error, if any, of [os.Create], of [Write] on each writer (with
    the number of bytes that got written before it) and of [Close]. *)
Record Answers := {
  verbose : bool;
  createError : option string;
  writeError : Writer → option (nat * string);
  closeError : option string;
}.

(** A Go [error]: [None] is [nil]; [multierror.Append] collects messages. *)
Definition error := option (list string).

Definition logLine (line : string) (world : World) : World :=
  {| files := files world; stderr := stderr world;
     syscalls := syscalls world; logged := logged world ++ [line] |}.

(** [os.Create]: the file is created, or truncated when it exists. *)
Definition osCreate (a : Answers) (fname : string) (world : World) : error * World :=
  match createError a with
  | Some err =>
      (Some [err],
       {| files := files world; stderr := stderr world;
          syscalls := syscalls world ++ [SysCreate fname];
          logged := logged world |})
  | None =>
      (None,
       {| files := <[fname := []]> (files world); stderr := stderr world;
          syscalls := syscalls world ++ [SysCreate fname];
          logged := logged world |})
  end.

(** [w.Write(out)] *)
Definition writeBytes (a : Answers) (w : Writer) (out : list Byte.byte)
    (world : World) : error * World :=
  let written :=
    match writeError a w with Some (n, _) => take n out | None => out end in
  let err : error :=
    match writeError a w with Some (_, err) => Some [err] | None => None end in
  (err,
   match w with
   | Stderr =>
       {| files := files world; stderr := stderr world ++ written;
          syscalls := syscalls world ++ [SysWrite w out];
          logged := logged world |}
   | File fname =>
       {| files :=
            <[fname := default [] (files world !! fname) ++ written]> (files world);
          stderr := stderr world;
          syscalls := syscalls world ++ [SysWrite w out];
          logged := logged world |}
   end).

(** [file.Close()] *)
Definition fileClose (a : Answers) (fname : string) (world : World) : error * World :=
  (match closeError a with Some err => Some [err] | None => None end,
   {| files := files world; stderr := stderr world;
      syscalls := syscalls world ++ [SysClose fname];
      logged := logged world |}).

Section Writing.
Context `{Helpers}.

Definition Write (a : Answers) (conf : Config) (w : Writer) (world : World)
    : error * World :=
  match MarshalIndent conf with
  | inl err => (Some [err], world)
  | inr out => writeBytes a w out world
  end.

Definition WriteFile (a : Answers) (conf : Config) (fname : string)
    (world : World) : error * World :=
  let world :=
    if verbose a then
      let world := logLine ("writing configuration to " +:+ fname) world in
      let '(err, world) := Write a conf Stderr world in
      match err with
      | Some msgs => logLine (Join msgs "; ") world
      | None => world
      end
    else world in
  let '(err, world) := osCreate a fname world in
  match err with
  | Some msgs => (Some msgs, world)
  | None =>
      let '(err, world) := Write a conf (File fname) world in
      match err with
      | Some msgs =>
          let '(cerr, world) := fileClose a fname world in
          (Some (msgs ++ default [] cerr), world)
      | None => fileClose a fname world
      end
  end.

(** The configuration generated for a node: the listeners and clusters of
    the node in the configuration of [buildConfig]. *)
Definition generateConfig (o : RangeOrder) (lds : bool) (env : Environment)
    (node : Node) : Config :=
  buildConfig (buildListeners o env node) (buildClusters o env node) lds (Mesh env).

(** Modelled from the spec: [Render(env, node)], which is not a function of
    [config.go]. The payload is the generated configuration as [Write]
    serializes it, the fingerprint is a hash of the payload bytes, and an
    error of the serialization is the error of [Render]. The hash is the
    argument [fingerprint]. *)
Definition Render {F : Type} (fingerprint : list Byte.byte → F)
    (o : RangeOrder) (lds : bool) (env : Environment) (node : Node)
    : string + list Byte.byte * F :=
  match MarshalIndent (generateConfig o lds env node) with
  | inl err => inl err
  | inr payload => inr (payload, fingerprint payload)
  end.

End Writing.

(** ** De-duplication by key *)

Section Firsts.
Context {A : Type} (key : A → string).

(** The elements of [l] that are the first of [l] to have their key, keys
    in [seen] being taken already. *)
Fixpoint firstsFrom (seen : gset string) (l : list A) : list A :=
  match l with
  | [] => []
  | x :: l =>
      if decide (key x ∈ seen) then firstsFrom seen l
      else x :: firstsFrom ({[key x]} ∪ seen) l
  end.

Definition firsts (l : list A) : list A := firstsFrom ∅ l.

(** Elements with the same key are the same element. *)
Definition keyConsistent (l : list A) : Prop :=
  ∀ x y, x ∈ l → y ∈ l → key x = key y → x = y.

(** Ascending order of the keys *)
Definition sortByKey (l : list A) : list A :=
  merge_sort (λ x y, String.le (key x) (key y)) l.

End Firsts.

(** ** Vocabulary of the properties

    Parts of the functions above, and what the statements below say of
    them. *)

Section Vocabulary.
Context `{Helpers}.

(** The routes that [buildHTTPRoute] makes of the rules of the destination
    [service], in the order of the rules *)
Definition builtRoutes (service : Service) (servicePort : Port)
    (rules : list RouteRule) : list HTTPRoute :=
  (λ rule, buildHTTPRoute rule servicePort)
  <$> filter (λ rule, Destination rule = Hostname service) rules.

(** The addresses of the listeners of a list, which is what
    [GetByAddress] looks at *)
Definition addresses (ls : Listeners) : list string := ListenerAddress <$> ls.

(** The listener and the cluster that [buildMgmtPortListeners] makes for one
    management port of a supported protocol *)
Definition mgmtPair (mesh : ProxyMeshConfig) (managementIP : string)
    (mPort : Port) : Listener * Cluster :=
  let cluster :=
    buildInboundCluster (PortNumber mPort) ProtocolTCP (ConnectTimeout mesh) in
  (buildTCPListener {| TCPRoutes := [buildTCPRoute cluster [managementIP]] |}
     managementIP (PortNumber mPort),
   cluster).

(** The management ports that [buildMgmtPortListeners] makes a listener
    for *)
Definition mgmtSupported (mPort : Port) : Prop :=
  PortProtocol mPort ≠ ProtocolUnsupported.

(** The listeners and clusters of the HTTP proxy port, none when the port is
    not positive (lines 207-215) *)
Definition proxyPart (o : RangeOrder) (env : Environment) (sidecar : Node)
    : Listeners * Clusters :=
  if decide (0 < ProxyHttpPort (Mesh env))
  then sidecarHTTPProxy o env sidecar else ([], []).

(** The listener that the loop of [buildOutboundListeners] makes for one
    entry of the map of outbound HTTP routes *)
Definition outboundHTTPListener (o : RangeOrder) (mesh : ProxyMeshConfig)
    (sidecar : Node) (instances : list ServiceInstance)
    (entry : Z * HTTPRouteConfig) : Listener :=
  buildHTTPListener o mesh sidecar instances (Some entry.2) WildcardAddress
    entry.1 (pretty entry.1) false.

(** The clusters that the same loop collects for the entry *)
Definition entryClusters (entry : Z * HTTPRouteConfig) : Clusters :=
  routeConfigClusters entry.2.

(** The clusters of all the outbound HTTP route configurations of a
    sidecar; [buildOutboundListeners] collects them port by port. *)
Definition outboundRouteClusters (env : Environment) (sidecar : Node) : Clusters :=
  map_to_list
    (buildOutboundHTTPRoutes (Mesh env) sidecar
       (HostInstances (EnvServiceDiscovery env) {[IPAddress sidecar]})
       (Services (EnvServiceDiscovery env)) (EnvIstioConfigStore env))
  ≫= entryClusters.

End Vocabulary.

(** The calls that touch nothing but [fname] and the standard error stream *)
Definition onPath (fname : string) (call : SysCall) : Prop :=
  match call with
  | SysCreate f | SysClose f | SysWrite (File f) _ => f = fname
  | SysWrite Stderr _ => True
  | SysRename _ _ => False
  end.

(** Write-rename materialization of [fname], as a property of the calls
    made: some other path is created and later renamed to [fname]. *)
Definition writeRename (fname : string) (calls : list SysCall) : Prop :=
  ∃ tmp before after,
    tmp ≠ fname
    ∧ calls = before ++ SysRename tmp fname :: after
    ∧ SysCreate tmp ∈ before.

(** The answers of the same host when [glog.V(2)] is off *)
Definition silenced (a : Answers) : Answers :=
  {| verbose := false; createError := createError a;
     writeError := writeError a; closeError := closeError a |}.

(** What [fname] holds when [WriteFile] is over and [os.Create] succeeded:
    nothing when the serialization fails, and otherwise the bytes that the
    write got through, all of them when it succeeds. *)
Definition written `{Helpers} (a : Answers) (conf : Config) (fname : string)
    : list Byte.byte :=
  match MarshalIndent conf with
  | inl _ => []
  | inr payload =>
      match writeError a (File fname) with
      | Some (n, _) => take n payload
      | None => payload
      end
  end.

(** ** Vocabulary of the further properties *)

Section Shapes.
Context `{Helpers}.

(** The configurations of the HTTP connection managers among the filters of
    a listener, and the names of the routes they ask the discovery service
    for *)
Definition httpConfigs (l : Listener) : list HTTPFilterConfig :=
  omap (λ f, match NFConfig f with NFHTTP c => Some c | _ => None end) (Filters l).

Definition routeNames (l : Listener) : list string :=
  c ← httpConfigs l; option_list (RouteConfigName <$> HRDS c).

(** The bytes of a string *)
Fixpoint bytes (s : string) : list Ascii.ascii :=
  match s with
  | EmptyString => []
  | String c s' => c :: bytes s'
  end.

(** The protocols that are routed as TCP *)
Definition tcpRouted (p : Port) : Prop :=
  PortProtocol p = ProtocolTCP ∨ PortProtocol p = ProtocolHTTPS.

(** The protocols that are routed as HTTP *)
Definition httpRouted (p : Port) : Prop :=
  PortProtocol p = ProtocolHTTP ∨ PortProtocol p = ProtocolHTTP2
  ∨ PortProtocol p = ProtocolGRPC.

(** The service ports that [buildOutboundTCPListeners] makes a listener
    for: the TCP and HTTPS ports of the services that are not external, in
    the order of the services and of their ports. *)
Definition tcpServicePorts (services : list Service) : list (Service * Port) :=
  service ← services;
  if External service then []
  else (λ p, (service, p)) <$> filter tcpRouted (Ports service).

(** The listener and the cluster that it makes for one of them *)
Definition outboundTCPPair (sp : Service * Port) : Listener * Cluster :=
  let cluster := buildOutboundCluster (Hostname sp.1) sp.2 in
  (buildTCPListener {| TCPRoutes := [buildTCPRoute cluster [Address sp.1]] |}
     (Address sp.1) (PortNumber sp.2),
   cluster).

(** The instances that [buildInboundListeners] makes a listener for *)
Definition inboundSupported (instance : ServiceInstance) : Prop :=
  PortProtocol (ServicePort (Endpoint instance)) ≠ ProtocolUnsupported.

(** The address and the port that an instance listens on *)
Definition endpointOf (instance : ServiceInstance) : string * Z :=
  (EndpointAddress (Endpoint instance), EndpointPort (Endpoint instance)).

(** The cluster that [buildInboundListeners] makes for an instance *)
Definition inboundCluster (mesh : ProxyMeshConfig) (instance : ServiceInstance)
    : Cluster :=
  buildInboundCluster (EndpointPort (Endpoint instance))
    (PortProtocol (ServicePort (Endpoint instance))) (ConnectTimeout mesh).

(** The route configurations of [buildOutboundHTTPRoutes] when line 476 is
    reached, before they are normalized. *)
Definition outboundRouteTable (mesh : ProxyMeshConfig) (sidecar : Node)
    (instances : list ServiceInstance) (services : list Service)
    (config : IstioConfigStore) : gmap Z HTTPRouteConfig :=
  let suffix := Split (Domain sidecar) "."%char in
  let rules := RouteRulesBySource config instances in
  foldl (λ httpConfigs service,
           foldl (outboundServicePort mesh suffix rules service)
                 httpConfigs (Ports service))
        ∅ services.

(** The virtual hosts of the route configuration of a port, none when the
    port has no route configuration *)
Definition hostsAt (httpConfigs : gmap Z HTTPRouteConfig) (port : Z)
    : list VirtualHost :=
  default [] (VirtualHosts <$> httpConfigs !! port).

(** The virtual hosts that one pass of the inner loop of
    [buildOutboundHTTPRoutes] adds for a service port: one or none *)
Definition outboundHosts (mesh : ProxyMeshConfig) (suffix : list string)
    (rules : list RouteRule) (service : Service) (servicePort : Port)
    : list VirtualHost :=
  hostsAt (outboundServicePort mesh suffix rules service ∅ servicePort)
    (PortNumber servicePort).

(** A route that is sent to the egress proxy *)
Definition viaEgress (mesh : ProxyMeshConfig) (service : Service)
    (route : HTTPRoute) : Prop :=
  HostRewrite route = Hostname service
  ∧ Forall (λ cluster,
              ClusterServiceName cluster = ""
              ∧ ClusterType cluster = ClusterTypeStrictDNS
              ∧ ClusterHosts cluster
                = [{| URL := "tcp://" +:+ EgressProxyAddress mesh |}])
           (clusters route).

(** The host names of the services of the instances *)
Definition hostnames (instances : list ServiceInstance) : list string :=
  (λ instance, Hostname (InstanceService instance)) <$> instances.

(** The default route of the inbound listener of an instance (lines
    542-547) *)
Definition inboundDefaultRoute (mesh : ProxyMeshConfig) (cluster : Cluster)
    : HTTPRoute :=
  if decide (MixerAddress mesh ≠ "")
  then setOpaqueConfig (buildDefaultRoute cluster) (buildMixerOpaqueConfig true false)
  else buildDefaultRoute cluster.

(** What an inbound listener is made of. A TCP listener has the TCP proxy
    as its last filter, after the mixer filter when the mesh has a mixer. An
    HTTP listener has the HTTP connection manager as its only filter; it
    asks the discovery service for nothing and carries one virtual host, for
    every domain, whose last route is the default route of the cluster of
    the instance; routes come before it only for the HTTP protocol. *)
Definition inboundAnatomy (mesh : ProxyMeshConfig) (sidecar : Node)
    (instance : ServiceInstance) (l : Listener) : Prop :=
  let cluster := inboundCluster mesh instance in
  (tcpRouted (ServicePort (Endpoint instance))
   ∧ NFConfig <$> Filters l
     = (if decide (MixerAddress mesh ≠ "")
        then [NFMixer (mixerTCPConfig sidecar)] else [])
       ++ [NFTCPProxy
             {| TStatPrefix := "tcp";
                TRouteConfig :=
                  {| TCPRoutes :=
                       [buildTCPRoute cluster [(endpointOf instance).1]] |} |}])
  ∨ (httpRouted (ServicePort (Endpoint instance))
     ∧ ∃ c routes,
         NFConfig <$> Filters l = [NFHTTP c]
         ∧ HRDS c = None
         ∧ UseRemoteAddress c = false
         ∧ HRouteConfig c
           = Some {| VirtualHosts :=
                       [{| VHName := "inbound|" +:+ pretty (endpointOf instance).2;
                           Domains := ["*"];
                           Routes := routes ++ [inboundDefaultRoute mesh cluster] |}] |}
         ∧ (PortProtocol (ServicePort (Endpoint instance)) ≠ ProtocolHTTP →
            routes = [])).

End Shapes.

(** ** An instance of the helpers, and a small mesh

    The properties proved of the generator hold for every choice of the
    types and helpers that [config.go] takes from the rest of the package.
    The instance below is one such choice, small enough to run; its
    [normalize] functions keep the first listener of each address and the
    first cluster of each name, and sort by that key. *)
Module Example.

#[export] Instance opaque : Opaque := {|
  (* milliseconds *)
  Duration := Z;
  (* the path prefix a rule matches, none for a rule without condition *)
  RuleSpec := option string;
  (* name and connect timeout *)
  ClusterBody := string * Z;
  (* the path prefix of the route *)
  RouteBody := string;
  OpaqueConfigT := list (string * string);
  (* name of the cluster and destination addresses *)
  TCPRoute := string * list string;
  SSLContext := string;
  FaultConfig := unit;
  MixerHTTPConfig := string;
  MixerTCPConfig := string;
  TracingT := string;
  ServiceAccountsT := unit;
  (* the external name of the service, empty for a service of the mesh *)
  ServiceBody := string;
|}.

Definition clusterName (c : Cluster) : string := (ClusterRest c).1.

Definition exBuildCluster (address name : string) (timeout : Z) : Cluster :=
  {| ClusterServiceName := ""; ClusterType := "strict_dns";
     ClusterHosts := [{| URL := "tcp://" +:+ address |}];
     ClusterRest := (name, timeout) |}.

Definition exBuildInboundCluster (port : Z) (protocol : Protocol) (timeout : Z) : Cluster :=
  {| ClusterServiceName := ""; ClusterType := "static";
     ClusterHosts := [{| URL := tcpAddress "127.0.0.1" port |}];
     ClusterRest := ("in." +:+ pretty port, timeout) |}.

Definition exBuildOutboundCluster (hostname : string) (port : Port) : Cluster :=
  {| ClusterServiceName := hostname +:+ "|" +:+ PortName port;
     ClusterType := "sds"; ClusterHosts := [];
     ClusterRest := ("out." +:+ hostname +:+ "|" +:+ PortName port, 0) |}.

Definition exRoute (prefix : string) (cluster : Cluster) : HTTPRoute :=
  {| HostRewrite := ""; OpaqueConfig := None; clusters := [cluster];
     RouteRest := prefix |}.

Definition exRouteConfigClusters (rc : HTTPRouteConfig) : Clusters :=
  VirtualHosts rc ≫= (λ host, Routes host ≫= clusters).

Definition exMarshal (conf : Config) : string + list Byte.byte :=
  inr (String.list_byte_of_string
         (AdminAddress (ConfigAdmin conf) +:+ " "
          +:+ Join (ListenerAddress <$> ConfigListeners conf) " " +:+ " "
          +:+ Join (clusterName <$> CMClusters (ConfigClusterManager conf)) " ")).

#[export] Instance helpers : Helpers := {|
  DefaultAccessLog := "/dev/stdout";
  LocalhostAddress := "127.0.0.1";
  WildcardAddress := "0.0.0.0";
  RDSName := "rds";
  SDSName := "sds";
  CDSName := "cds";
  LDSName := "lds";
  RDSAll := "0";
  ZipkinCollectorCluster := "zipkin";
  VirtualListenerName := "virtual";
  IngressTraceOperation := "ingress";
  ClusterTypeStrictDNS := "strict_dns";
  HTTPConnectionManager := "http_connection_manager";
  TCPProxyFilter := "tcp_proxy";
  MixerFilter := "mixer";
  decoder := "decoder";
  router := "router";
  auto := "auto";
  read := "read";
  both := "both";
  protoDurationToMS := λ d, d;
  buildCluster := exBuildCluster;
  buildZipkinTracing := ZipkinAddress;
  buildInboundCluster := exBuildInboundCluster;
  buildOutboundCluster := exBuildOutboundCluster;
  buildDefaultRoute := exRoute "/";
  buildHTTPRoute := λ rule port,
    exRoute (default "/" (RuleRest rule))
      (exBuildOutboundCluster (Destination rule) port);
  buildInboundWebsocketRoute := λ rule cluster,
    exRoute (default "/" (RuleRest rule)) cluster;
  CatchAll := λ route, bool_decide (RouteRest route = "/");
  buildTCPRoute := λ cluster addrs, (clusterName cluster, addrs);
  buildVirtualHost := λ service port suffix routes,
    {| VHName := Hostname service +:+ ":" +:+ pretty (PortNumber port);
       Domains := [Hostname service; Address service];
       Routes := routes |};
  buildFaultFilters := λ _, [];
  buildMixerOpaqueConfig := λ _ _, [];
  mixerHTTPRouteConfig := λ role service, service;
  mixerTCPConfig := IPAddress;
  buildListenerSSLContext := λ path, path;
  buildMixerCluster := λ mesh,
    exBuildCluster (MixerAddress mesh) "mixer" (ConnectTimeout mesh);
  applyClusterPolicy := λ cluster _ _ _, cluster;
  External := λ service, bool_decide (ServiceRest service ≠ "");
  routeConfigClusters := exRouteConfigClusters;
  routeConfigsClusters := λ configs,
    map_to_list configs ≫= (λ entry, exRouteConfigClusters entry.2);
  normalizeListeners := λ l, sortByKey ListenerAddress (firsts ListenerAddress l);
  normalizeClusters := λ l, sortByKey clusterName (firsts clusterName l);
  normalizeRouteConfigs := λ configs, configs;
  buildIngressListeners := λ _ _ _ _, [];
  buildEgressListeners := λ _ _, [];
  buildIngressRoutes := λ _ _ _, ∅;
  buildEgressRoutes := λ _ _, ∅;
  MarshalIndent := exMarshal;
|}.

(** Two orders of visit: ascending, and descending *)
Program Definition ascending : RangeOrder :=
  {| rangeKeys := elements; rangePorts := map_to_list |}.
Solve All Obligations with done.

Program Definition descending : RangeOrder :=
  {| rangeKeys := λ s, reverse (elements s);
     rangePorts := λ m, reverse (map_to_list m) |}.
Solve All Obligations with (intros; apply reverse_Permutation).

Definition exMesh : ProxyMeshConfig :=
  {| EgressProxyAddress := "";
     DiscoveryAddress := "istio-pilot:8080";
     MixerAddress := "";
     ZipkinAddress := "";
     StatsdUdpAddress := "10.0.0.9:9125";
     ProxyListenPort := 15001;
     ProxyHttpPort := 15002;
     ProxyAdminPort := 15000;
     ConnectTimeout := 1000;
     DiscoveryRefreshDelay := 30000;
     AuthPolicy := ProxyMeshConfig_MUTUAL_TLS;
     AuthCertsPath := "/etc/certs" |}.

Definition http80 : Port :=
  {| PortName := "http"; PortNumber := 80; PortProtocol := ProtocolHTTP |}.
Definition grpc9090 : Port :=
  {| PortName := "grpc"; PortNumber := 9090; PortProtocol := ProtocolGRPC |}.
Definition tcp3306 : Port :=
  {| PortName := "mysql"; PortNumber := 3306; PortProtocol := ProtocolTCP |}.

Definition serviceA : Service :=
  {| Hostname := "a.default.svc"; Address := "10.0.0.1";
     Ports := [http80; grpc9090]; ServiceRest := "" |}.
Definition serviceB : Service :=
  {| Hostname := "b.default.svc"; Address := "10.0.0.2";
     Ports := [http80; tcp3306]; ServiceRest := "" |}.

Definition exNode : Node :=
  {| Type_ := Sidecar; IPAddress := "10.1.1.1"; Domain := "default.svc" |}.

(** One instance of service [a] runs next to the sidecar, on port 8080. *)
Definition instanceA : ServiceInstance :=
  {| Endpoint :=
       {| EndpointAddress := "10.1.1.1"; EndpointPort := 8080;
          ServicePort := http80 |};
     InstanceService := serviceA |}.

(** Three rules for service [a]: the second has no condition, so that its
    route is a catch-all and the third is never reached. *)
Definition exRules : list RouteRule :=
  [ {| Destination := "a.default.svc"; WebsocketUpgrade := false;
       RuleRest := Some "/v1" |};
    {| Destination := "b.default.svc"; WebsocketUpgrade := false;
       RuleRest := Some "/b" |};
    {| Destination := "a.default.svc"; WebsocketUpgrade := false;
       RuleRest := None |};
    {| Destination := "a.default.svc"; WebsocketUpgrade := false;
       RuleRest := Some "/v2" |} ].

(** Three management ports: the first is the port of the instance, the
    other two are the same port declared twice. *)
Definition health8080 : Port :=
  {| PortName := "health"; PortNumber := 8080; PortProtocol := ProtocolHTTP |}.
Definition metrics9102 : Port :=
  {| PortName := "metrics"; PortNumber := 9102; PortProtocol := ProtocolTCP |}.
Definition scrape9102 : Port :=
  {| PortName := "scrape"; PortNumber := 9102; PortProtocol := ProtocolHTTP |}.

Definition exManagementPorts : list Port :=
  [health8080; metrics9102; scrape9102].

Definition exEnv : Environment :=
  {| EnvServiceDiscovery :=
       {| HostInstances := λ addrs,
            if decide ("10.1.1.1" ∈ addrs) then [instanceA] else [];
          Services := [serviceA; serviceB];
          ManagementPorts := λ addr,
            if decide (addr = "10.1.1.1") then exManagementPorts else [] |};
     EnvIstioConfigStore :=
       {| RouteRulesBySource := λ _, exRules;
          RouteRulesByDestination := λ _, [] |};
     Mesh := exMesh;
     ServiceAccounts := () |}.

(** A fingerprint for the examples: a polynomial checksum of the bytes *)
Definition checksum (payload : list Byte.byte) : N :=
  foldl (λ h b, (h * 31 + Byte.to_N b) `mod` 2 ^ 32)%N 0%N payload.

#[export] Instance Host_eq_dec : EqDecision Host.
Proof. solve_decision. Defined.

#[export] Instance ClusterBody_eq_dec : EqDecision ClusterBody :=
  _ : EqDecision (string * Z).

#[export] Instance Cluster_eq_dec : EqDecision Cluster.
Proof. solve_decision. Defined.

(** A host on which every call succeeds, and one whose disk is full after
    five bytes; a file of the previous epoch is there already. *)
Definition quiet : Answers :=
  {| verbose := false; createError := None;
     writeError := λ _, None; closeError := None |}.

Definition diskFull : Answers :=
  {| verbose := false; createError := None;
     writeError := λ _, Some (5%nat, "no space left on device");
     closeError := None |}.

Definition exWorld : World :=
  {| files := {[ "envoy-rev0.json" := String.list_byte_of_string "previous" ]};
     stderr := []; syscalls := []; logged := [] |}.

Definition exConfig : Config := generateConfig ascending true exEnv exNode.

(** [combine] for the examples: the virtual hosts of all the ports *)
Definition exCombine (configs : gmap Z HTTPRouteConfig) : option HTTPRouteConfig :=
  Some {| VirtualHosts := map_to_list configs ≫= λ entry, VirtualHosts entry.2 |}.

(** An external service, and the mesh with an egress proxy *)
Definition https443 : Port :=
  {| PortName := "https"; PortNumber := 443; PortProtocol := ProtocolHTTPS |}.

Definition serviceExt : Service :=
  {| Hostname := "example.com"; Address := "";
     Ports := [http80; https443; tcp3306]; ServiceRest := "example.com" |}.

Definition exEgressMesh : ProxyMeshConfig :=
  {| EgressProxyAddress := "istio-egress:80";
     DiscoveryAddress := "istio-pilot:8080";
     MixerAddress := "istio-mixer:9091";
     ZipkinAddress := "";
     StatsdUdpAddress := "10.0.0.9:9125";
     ProxyListenPort := 15001;
     ProxyHttpPort := 0;
     ProxyAdminPort := 15000;
     ConnectTimeout := 1000;
     DiscoveryRefreshDelay := 30000;
     AuthPolicy := ProxyMeshConfig_NONE;
     AuthCertsPath := "/etc/certs" |}.

(** The mesh without the redirection of the traffic: only the HTTP proxy
    port is open. *)
Definition exProxyOnlyMesh : ProxyMeshConfig :=
  {| EgressProxyAddress := "";
     DiscoveryAddress := "istio-pilot:8080";
     MixerAddress := "";
     ZipkinAddress := "";
     StatsdUdpAddress := "10.0.0.9:9125";
     ProxyListenPort := 0;
     ProxyHttpPort := 15002;
     ProxyAdminPort := 15000;
     ConnectTimeout := 1000;
     DiscoveryRefreshDelay := 30000;
     AuthPolicy := ProxyMeshConfig_MUTUAL_TLS;
     AuthCertsPath := "/etc/certs" |}.

Definition exProxyOnlyEnv : Environment :=
  {| EnvServiceDiscovery := EnvServiceDiscovery exEnv;
     EnvIstioConfigStore := EnvIstioConfigStore exEnv;
     Mesh := exProxyOnlyMesh;
     ServiceAccounts := () |}.

(** The serialization that also shows, for each cluster, its type and the
    addresses of its hosts *)
Definition exMarshalClusters (conf : Config) : string + list Byte.byte :=
  inr (String.list_byte_of_string
         (AdminAddress (ConfigAdmin conf) +:+ " "
          +:+ Join (ListenerAddress <$> ConfigListeners conf) " " +:+ " "
          +:+ Join ((λ c, clusterName c +:+ "=" +:+ ClusterType c +:+ "@"
                          +:+ Join (URL <$> ClusterHosts c) ",")
                    <$> CMClusters (ConfigClusterManager conf)) " ")).

(** The helpers of the example with another serialization *)
Definition withMarshal (marshal : Config → string + list Byte.byte) : Helpers :=
  {|
    DefaultAccessLog := DefaultAccessLog;
    LocalhostAddress := LocalhostAddress; WildcardAddress := WildcardAddress;
    RDSName := RDSName; SDSName := SDSName; CDSName := CDSName;
    LDSName := LDSName; RDSAll := RDSAll;
    ZipkinCollectorCluster := ZipkinCollectorCluster;
    VirtualListenerName := VirtualListenerName;
    IngressTraceOperation := IngressTraceOperation;
    ClusterTypeStrictDNS := ClusterTypeStrictDNS;
    HTTPConnectionManager := HTTPConnectionManager;
    TCPProxyFilter := TCPProxyFilter; MixerFilter := MixerFilter;
    decoder := decoder; router := router; auto := auto; read := read;
    both := both; protoDurationToMS := protoDurationToMS;
    buildCluster := buildCluster; buildZipkinTracing := buildZipkinTracing;
    buildInboundCluster := buildInboundCluster;
    buildOutboundCluster := buildOutboundCluster;
    buildDefaultRoute := buildDefaultRoute; buildHTTPRoute := buildHTTPRoute;
    buildInboundWebsocketRoute := buildInboundWebsocketRoute;
    CatchAll := CatchAll; buildTCPRoute := buildTCPRoute;
    buildVirtualHost := buildVirtualHost;
    buildFaultFilters := buildFaultFilters;
    buildMixerOpaqueConfig := buildMixerOpaqueConfig;
    mixerHTTPRouteConfig := mixerHTTPRouteConfig;
    mixerTCPConfig := mixerTCPConfig;
    buildListenerSSLContext := buildListenerSSLContext;
    buildMixerCluster := buildMixerCluster;
    applyClusterPolicy := applyClusterPolicy; External := External;
    routeConfigClusters := routeConfigClusters;
    routeConfigsClusters := routeConfigsClusters;
    normalizeListeners := normalizeListeners;
    normalizeClusters := normalizeClusters;
    normalizeRouteConfigs := normalizeRouteConfigs;
    buildIngressListeners := buildIngressListeners;
    buildEgressListeners := buildEgressListeners;
    buildIngressRoutes := buildIngressRoutes;
    buildEgressRoutes := buildEgressRoutes;
    MarshalIndent := marshal;
  |}.

(** Two services of one hostname: a service of the mesh, and an external
    name service with the same port name on another port *)
Definition http8080 : Port :=
  {| PortName := "http"; PortNumber := 8080; PortProtocol := ProtocolHTTP |}.

Definition twinInternal : Service :=
  {| Hostname := "twin.example.com"; Address := "10.0.0.3";
     Ports := [http80]; ServiceRest := "" |}.
Definition twinExternal : Service :=
  {| Hostname := "twin.example.com"; Address := "";
     Ports := [http8080]; ServiceRest := "twin.example.com" |}.

Definition twinEnv : Environment :=
  {| EnvServiceDiscovery :=
       {| HostInstances := λ _, [];
          Services := [twinInternal; twinExternal];
          ManagementPorts := λ _, [] |};
     EnvIstioConfigStore :=
       {| RouteRulesBySource := λ _, [];
          RouteRulesByDestination := λ _, [] |};
     Mesh := exEgressMesh;
     ServiceAccounts := () |}.

(** [Render] on the twin services, with the serialization that shows the
    clusters *)
Definition twinRender (o : RangeOrder) : string + (list Byte.byte * N) :=
  Render (H0:=withMarshal exMarshalClusters) checksum o true twinEnv exNode.

(** The outbound HTTP routes of the twin services, keyed by port *)
Definition twinRoutes : gmap Z HTTPRouteConfig :=
  buildOutboundHTTPRoutes (Mesh twinEnv) exNode []
    (Services (EnvServiceDiscovery twinEnv)) (EnvIstioConfigStore twinEnv).

End Example.

End Envoy.

(** * The agent

    The reconciliation agent ([agent.go]) is not among the sources at hand;
    only the build file that lists it is. The definitions of this module
    follow the specification of the agent: the epoch table of section 4.2,
    the reconcile procedure and the crash handling of section 4.4. What the
    host decides (whether a file can be written, whether a process starts,
    when a process exits) is an input of each step. Rate limiting, timers and
    shutdown are not modelled. *)
Module Agent.

(** Modelled from the spec: the status of an epoch record (section 3). A
    process handle is a process id. *)
Inductive Status :=
  | Starting
  | Running
  | Draining
  | Exited (code signal : Z)
  | Failed (reason : string).

Global Instance Status_eq_dec : EqDecision Status.
Proof. solve_decision. Defined.

(** Modelled from the spec: "Terminal = Exited | Failed". *)
Definition terminal (s : Status) : bool :=
  match s with
  | Exited _ _ | Failed _ => true
  | Starting | Running | Draining => false
  end.

(** Modelled from the spec: the state machine per epoch of section 4.2,
    one line for each arrow of the diagram. The last line is the transition
    that the crash handling of section 4.4 makes when the current epoch,
    which step 6 has made [Running], exits within the startup window. *)
Definition legal (old new : Status) : bool :=
  match old, new with
  | Starting, Running => true
  | Starting, Failed _ => true
  | Running, Draining => true
  | Running, Exited _ _ => true
  | Draining, Exited _ _ => true
  | Running, Failed _ => true
  | _, _ => false
  end.

(** Modelled from the spec: the artifact of section 3: payload bytes,
    fingerprint and materialization path. *)
Record Artifact := {
  payload : list Byte.byte;
  fingerprint : N;
  path : string;
}.

(** Modelled from the spec: the epoch record of section 3. *)
Record EpochRecord := {
  epoch : Z;
  artifact : Artifact;
  proc : option Z;
  status : Status;
}.

(** Modelled from the spec: the epoch table of section 4.2, its records
    oldest first. Epochs begin at 0, so that nothing is issued at first. *)
Record EpochTable := {
  lastIssued : Z;
  records : list EpochRecord;
}.

Definition emptyTable : EpochTable := {| lastIssued := -1; records := [] |}.

Definition setStatus (s : Status) (r : EpochRecord) : EpochRecord :=
  {| epoch := epoch r; artifact := artifact r; proc := proc r; status := s |}.

Definition setProc (p : option Z) (r : EpochRecord) : EpochRecord :=
  {| epoch := epoch r; artifact := artifact r; proc := p; status := status r |}.

(** Modelled from the spec: "Allocate() -> epoch: returns lastIssued+1,
    updates lastIssued". *)
Definition Allocate (t : EpochTable) : Z * EpochTable :=
  (lastIssued t + 1, {| lastIssued := lastIssued t + 1; records := records t |}).

(** Modelled from the spec: "Insert(record): stores a new EpochRecord in
    Starting". *)
Definition Insert (r : EpochRecord) (t : EpochTable) : EpochTable :=
  {| lastIssued := lastIssued t; records := records t ++ [setStatus Starting r] |}.

Definition find (e : Z) (t : EpochTable) : option EpochRecord :=
  head (filter (λ r, epoch r = e) (records t)).

(** Modelled from the spec: "Transition(e, newStatus): asserts a legal
    transition and updates". [None] is the failed assertion. *)
Definition Transition (e : Z) (new : Status) (t : EpochTable) : option EpochTable :=
  match find e t with
  | Some r =>
      if legal (status r) new then
        Some {| lastIssued := lastIssued t;
                records :=
                  (λ r, if decide (epoch r = e) then setStatus new r else r)
                  <$> records t |}
      else None
  | None => None
  end.

(** Modelled from the spec: "Active() -> epochs in non-terminal status,
    oldest first". *)
Definition Active (t : EpochTable) : list Z :=
  epoch <$> filter (λ r, terminal (status r) = false) (records t).

(** Modelled from the spec: "Prune(): removes terminal records whose
    artifact files have been unlinked"; [onDisk] is the set of the paths
    that exist. *)
Definition Prune (onDisk : gset string) (t : EpochTable) : EpochTable :=
  {| lastIssued := lastIssued t;
     records :=
       filter (λ r, ¬ (terminal (status r) = true ∧ path (artifact r) ∉ onDisk))
              (records t) |}.

(** What the agent does that can be observed, in the order it does it *)
Inductive Event :=
  | EvRender
  | EvAllocate (e : Z)
  | EvWrite (file : string)
  | EvRename (old new : string)
  | EvInsert (e : Z)
  | EvStart (e : Z)
  | EvTransition (e : Z) (s : Status)
  | EvStop (e : Z) (graceful : bool)
  | EvUnlink (file : string)
  | EvRetry
  | EvFatal.

Global Instance Event_eq_dec : EqDecision Event.
Proof. solve_decision. Defined.

(** Modelled from the spec: the generator interface of section 6 *)
Inductive ErrorKind := Transient | Permanent.

Inductive RenderResult :=
  | Rendered (payload : list Byte.byte) (fingerprint : N)
  | RenderError (kind : ErrorKind).

(** What the host answers during one pass: whether the artifact file can
    be written, and the process id of the started proxy, none when fork or
    exec fails. *)
Record Outcome := {
  writeOk : bool;
  started : option Z;
}.

(** The agent: the table, the active-epoch pointer, the fingerprint last
    applied, the retry budget, the crash counter, the files of the scratch
    directory, whether a fatal error was surfaced, and the events so far. *)
Record State := {
  table : EpochTable;
  current : option Z;
  currentFingerprint : option N;
  budget : nat;
  crashes : nat;
  scratch : gset string;
  halted : bool;
  trace : list Event;
}.

Definition initial (budget : nat) : State :=
  {| table := emptyTable; current := None; currentFingerprint := None;
     budget := budget; crashes := 0; scratch := ∅; halted := false;
     trace := [] |}.

Definition withTable (t : EpochTable) (evs : list Event) (a : State) : State :=
  {| table := t; current := current a;
     currentFingerprint := currentFingerprint a; budget := budget a;
     crashes := crashes a; scratch := scratch a; halted := halted a;
     trace := trace a ++ evs |}.

Definition log (evs : list Event) (a : State) : State :=
  withTable (table a) evs a.

Definition halt (a : State) : State :=
  {| table := table a; current := current a;
     currentFingerprint := currentFingerprint a; budget := budget a;
     crashes := crashes a; scratch := scratch a; halted := true;
     trace := trace a ++ [EvFatal] |}.

(** Modelled from the spec: "Illegal transitions are fatal programmer
    errors": the agent stops at the first one. *)
Definition transition (e : Z) (s : Status) (a : State) : State :=
  if halted a then a
  else match Transition e s (table a) with
       | Some t => withTable t [EvTransition e s] a
       | None => halt a
       end.

Definition setBudget (n : nat) (a : State) : State :=
  {| table := table a; current := current a;
     currentFingerprint := currentFingerprint a; budget := n;
     crashes := crashes a; scratch := scratch a; halted := halted a;
     trace := trace a |}.

(** Modelled from the spec: the budget counts attempts, and each failed
    reconcile consumes one; "if a retry budget remains, schedule a retry",
    otherwise the error is fatal. With a budget of 3 the fatal error is
    surfaced on the 3rd failure (section 8, scenario 5). *)
Definition scheduleRetry (a : State) : State :=
  if halted a then a
  else match budget a with
       | O => halt a
       | S O => halt (setBudget 0 a)
       | S (S n) => log [EvRetry] (setBudget (S n) a)
       end.

(** Modelled from the spec: the file of an epoch, "envoy-rev<epoch>.json",
    and the temporary name it is written under before the rename. *)
Definition artifactPath (e : Z) : string := "envoy-rev" +:+ pretty e +:+ ".json".
Definition temporaryPath (e : Z) : string := "envoy-rev.tmp." +:+ pretty e.

Definition materialize (e : Z) (a : State) : State :=
  {| table := table a; current := current a;
     currentFingerprint := currentFingerprint a; budget := budget a;
     crashes := crashes a; scratch := {[artifactPath e]} ∪ scratch a;
     halted := halted a;
     trace := trace a ++ [EvWrite (temporaryPath e);
                          EvRename (temporaryPath e) (artifactPath e)] |}.

Definition setCurrent (e : Z) (fp : N) (a : State) : State :=
  {| table := table a; current := Some e; currentFingerprint := Some fp;
     budget := budget a; crashes := crashes a; scratch := scratch a;
     halted := halted a; trace := trace a |}.

(** Modelled from the spec: "the active configuration is considered
    broken": no epoch is current any more and no fingerprint is applied, so
    that the retry of the same snapshot is not a fingerprint match. *)
Definition clearCurrent (a : State) : State :=
  {| table := table a; current := None; currentFingerprint := None;
     budget := budget a; crashes := crashes a; scratch := scratch a;
     halted := halted a; trace := trace a |}.

Definition setProcOf (e : Z) (pid : Z) (t : EpochTable) : EpochTable :=
  {| lastIssued := lastIssued t;
     records :=
       (λ r, if decide (epoch r = e) then setProc (Some pid) r else r)
       <$> records t |}.

(** The epochs other than [e] that are [Running], oldest first *)
Definition runningBefore (e : Z) (t : EpochTable) : list Z :=
  epoch <$> filter (λ r, status r = Running ∧ epoch r ≠ e) (records t).

(** Modelled from the spec: step 7 for one prior epoch: it is moved to
    [Draining] and asked to stop gracefully. *)
Definition supersede (a : State) (e' : Z) : State :=
  let a := transition e' Draining a in
  if halted a then a else log [EvStop e' true] a.

(** Modelled from the spec: steps 4 to 8 of the reconcile procedure, for
    the artifact with bytes [payload] and fingerprint [fp]. *)
Definition applyArtifact (h : Outcome) (payload : list Byte.byte) (fp : N)
    (a : State) : State :=
  if halted a then a else
  (* 4 *)
  let '(e, t) := Allocate (table a) in
  let a := withTable t [EvAllocate e] a in
  if negb (writeOk h) then scheduleRetry a else
  let a := materialize e a in
  let record :=
    {| epoch := e;
       artifact := {| payload := payload; fingerprint := fp; path := artifactPath e |};
       proc := None; status := Starting |} in
  let a := withTable (Insert record (table a)) [EvInsert e] a in
  (* 5 *)
  let a := log [EvStart e] a in
  match started h with
  | None => scheduleRetry (transition e (Failed "start") a)
  | Some pid =>
      (* 6 *)
      let a := transition e Running (withTable (setProcOf e pid (table a)) [] a) in
      (* 7 *)
      let a := foldl supersede a (runningBefore e (table a)) in
      (* 8 *)
      if halted a then a else setCurrent e fp a
  end.

Section Reconcile.

(** Modelled from the spec: the environment is queried, not specified; the
    generator is "a pure function value injected at construction". *)
Context {Env : Type} (render : Env → RenderResult).

(** Modelled from the spec: one pass of the reconcile procedure (section
    4.4, steps 1 to 8) on the snapshot [env]. *)
Definition reconcile (env : Env) (h : Outcome) (a : State) : State :=
  if halted a then a else
  (* 1, 2 *)
  let a := log [EvRender] a in
  match render env with
  | RenderError Permanent => a
  | RenderError Transient => scheduleRetry a
  | Rendered payload fp =>
      (* 3 *)
      if decide (currentFingerprint a = Some fp) then a
      else applyArtifact h payload fp a
  end.

(** Modelled from the spec: the crash handling of section 4.4, when the
    exit channel yields [e], [code] and [signal]; [stabilized] tells whether
    the exit came after the startup window. After the startup window the
    same artifact is applied again from step 4; within it the epoch is
    [Failed], the configuration is no longer the applied one, and a retry
    of the current snapshot is scheduled if the budget allows. An exit of
    another epoch is the end of a drain: its file is unlinked and the table
    pruned. *)
Definition exited (e code signal : Z) (stabilized : bool) (h : Outcome)
    (a : State) : State :=
  if halted a then a else
  if decide (current a = Some e) then
    if stabilized then
      let artifactOfE := artifact <$> find e (table a) in
      let a := transition e (Exited code signal) a in
      let a :=
        {| table := table a; current := current a;
           currentFingerprint := currentFingerprint a; budget := budget a;
           crashes := S (crashes a); scratch := scratch a; halted := halted a;
           trace := trace a |} in
      match artifactOfE with
      | Some art =>
          if decide (crashes a ≤ budget a)%nat
          then applyArtifact h (payload art) (fingerprint art) a
          else halt a
      | None => a
      end
    else scheduleRetry (clearCurrent (transition e (Failed "startup") a))
  else
    let file := path <$> (artifact <$> find e (table a)) in
    let a := transition e (Exited code signal) a in
    if halted a then a else
    match file with
    | Some f =>
        {| table := Prune (scratch a ∖ {[f]}) (table a); current := current a;
           currentFingerprint := currentFingerprint a; budget := budget a;
           crashes := crashes a; scratch := scratch a ∖ {[f]};
           halted := halted a; trace := trace a ++ [EvUnlink f] |}
    | None => a
    end.

(** The inputs of the agent: a reconcile request or a retry, on the
    snapshot the environment gives then, and the exit of a process. *)
Inductive Input :=
  | Reconcile (env : Env) (h : Outcome)
  | Exit (e code signal : Z) (stabilized : bool) (h : Outcome).

Definition step (a : State) (i : Input) : State :=
  match i with
  | Reconcile env h => reconcile env h a
  | Exit e code signal stabilized h => exited e code signal stabilized h a
  end.

(** An execution: the single worker handles the inputs one after the
    other, from the initial state. *)
Definition run (budget : nat) (inputs : list Input) : State :=
  foldl step (initial budget) inputs.

End Reconcile.

(** ** Vocabulary of the properties *)

(** The epochs allocated, in order *)
Definition allocations (tr : list Event) : list Z :=
  omap (λ ev, match ev with EvAllocate e => Some e | _ => None end) tr.

(** The epochs given to a record, in order *)
Definition insertions (tr : list Event) : list Z :=
  omap (λ ev, match ev with EvInsert e => Some e | _ => None end) tr.

(** The number of calls of the generator *)
Definition renders (tr : list Event) : nat :=
  length (filter (λ ev, ev = EvRender) tr).

(** Epoch [e] is serving at the end of [tr]: it was moved to [Running],
    and to no other status since. *)
Definition serving (e : Z) (tr : list Event) : Prop :=
  ∃ j, tr !! j = Some (EvTransition e Running)
       ∧ ∀ k s, (j < k)%nat → tr !! k ≠ Some (EvTransition e s).

(** Whenever an epoch is moved to [Draining], the epoch allocated last
    before that, which is a later one, is serving at that moment: the new
    epoch is [Running] before the old one is asked to drain, and the two
    overlap. *)
Definition hitless (tr : list Event) : Prop :=
  ∀ i e, tr !! i = Some (EvTransition e Draining) →
    ∃ e', e < e'
          ∧ last (allocations (take i tr)) = Some e'
          ∧ serving e' (take i tr).

(** Events that allocate nothing, insert nothing and drain nothing *)
Definition quiet (ev : Event) : Prop :=
  match ev with
  | EvAllocate _ | EvInsert _ | EvTransition _ Draining => False
  | _ => True
  end.

(** Events other than a call of the generator and an allocation *)
Definition unrendered (ev : Event) : Prop :=
  match ev with
  | EvAllocate _ | EvRender => False
  | _ => True
  end.

(** [a'] has the trace of [a] followed by events that satisfy [P]. *)
Definition appends (P : Event → Prop) (a a' : State) : Prop :=
  ∃ evs, trace a' = trace a ++ evs ∧ Forall P evs.

(** [a'] has the issued epochs of [a] and no record that [a] has not. *)
Definition steady (a a' : State) : Prop :=
  lastIssued (table a') = lastIssued (table a)
  ∧ epoch <$> records (table a') `sublist_of` epoch <$> records (table a)
  ∧ appends quiet a a'.

(** What every state of an execution satisfies: the allocated epochs are
    0 up to the last issued one, each inserted epoch was allocated, each
    record was inserted, and the trace is hitless. *)
Record Inv (a : State) : Prop := {
  inv_issued : -1 ≤ lastIssued (table a);
  inv_allocations :
    allocations (trace a) = seqZ 0 (lastIssued (table a) + 1);
  inv_insertions : insertions (trace a) `sublist_of` allocations (trace a);
  inv_records : epoch <$> records (table a) `sublist_of` insertions (trace a);
  inv_hitless : hitless (trace a);
}.

(** Events that drain nothing *)
Definition undrained (ev : Event) : Prop :=
  match ev with
  | EvTransition _ Draining => False
  | _ => True
  end.

(** Events that are no transition of epoch [e] *)
Definition untouched (e : Z) (ev : Event) : Prop :=
  match ev with
  | EvTransition e' _ => e' ≠ e
  | _ => True
  end.

(** Epoch [e] is the one that supersedes: it was allocated last and it is
    serving, unless the agent has stopped. *)
Definition superseding (e : Z) (a : State) : Prop :=
  halted a = false →
  last (allocations (trace a)) = Some e ∧ serving e (trace a).

(** [a'] is [a] after a pass that only called the generator. *)
Definition noop (a a' : State) : Prop :=
  trace a' = trace a ++ [EvRender]
  ∧ table a' = table a
  ∧ current a' = current a
  ∧ currentFingerprint a' = currentFingerprint a
  ∧ scratch a' = scratch a
  ∧ budget a' = budget a
  ∧ crashes a' = crashes a
  ∧ halted a' = halted a.

(** [e] has just been allocated and no record has it yet. *)
Definition Fresh (e : Z) (a : State) : Prop :=
  lastIssued (table a) = e
  ∧ ∃ al, allocations (trace a) = al ++ [e] ∧ insertions (trace a) `sublist_of` al.

(** ** A small environment *)
Module Example.

(** The environment is a counter; the generator fails on 0 and otherwise
    renders the counter in decimal, with the counter as fingerprint. *)
Definition exRender (env : nat) : RenderResult :=
  match env with
  | O => RenderError Transient
  | S _ => Rendered (String.list_byte_of_string (pretty env)) (N.of_nat env)
  end.

Definition ok (pid : Z) : Outcome := {| writeOk := true; started := Some pid |}.

(** The file is written, but the process does not start. *)
Definition startFails : Outcome := {| writeOk := true; started := None |}.

(** The file cannot be written. *)
Definition writeFails : Outcome := {| writeOk := false; started := None |}.

(** Three environments applied one after the other *)
Definition three : list (Input (Env:=nat)) :=
  [Reconcile 1%nat (ok 100); Reconcile 2%nat (ok 101); Reconcile 3%nat (ok 102)].

(** One environment whose proxy exits with code 2 within the startup
    window each time it is started, each exit followed by the retry *)
Definition crashLoop : list (Input (Env:=nat)) :=
  [Reconcile 1%nat (ok 100); Exit 0 2 0 false (ok 0);
   Reconcile 1%nat (ok 101); Exit 1 2 0 false (ok 0);
   Reconcile 1%nat (ok 102); Exit 2 2 0 false (ok 0);
   Reconcile 1%nat (ok 103)].

(** The same environment twice, the proxy not starting the first time *)
Definition startFailsFirst : list (Input (Env:=nat)) :=
  [Reconcile 1%nat startFails; Reconcile 1%nat (ok 100)].

(** The same environment twice, the file not written the first time *)
Definition writeFailsFirst : list (Input (Env:=nat)) :=
  [Reconcile 1%nat writeFails; Reconcile 1%nat (ok 100)].

(** A proxy that is killed after it has stabilized *)
Definition lateCrash : list (Input (Env:=nat)) :=
  [Reconcile 1%nat (ok 100); Exit 0 0 9 true (ok 101)].

(** The events of a swap in which the new epoch is gone when the old one
    is asked to drain *)
Definition gap : list Event :=
  [EvAllocate 0; EvTransition 0 Running; EvAllocate 1; EvTransition 1 Running;
   EvTransition 1 (Exited 1 0); EvTransition 0 Draining].

End Example.

End Agent.

(** * Properties of the generator *)
Module EnvoyProps.
Import Envoy.

(** ** De-duplication by key *)

Section FirstsProperties.
Context {A : Type} (key : A → string).

Lemma firstsFrom_app seen l1 l2 :
  firstsFrom key seen (l1 ++ l2)
  = firstsFrom key seen l1 ++ firstsFrom key (list_to_set (key <$> l1) ∪ seen) l2.
Proof.
  revert seen. induction l1 as [|x l1 IH]; intros seen; simpl.
  - by rewrite (left_id_L ∅ (∪)).
  - case_decide as Hx.
    + rewrite IH. do 2 f_equal. set_solver.
    + simpl. rewrite IH. do 3 f_equal. set_solver.
Qed.

Lemma elem_of_firstsFrom seen l x :
  x ∈ firstsFrom key seen l → x ∈ l ∧ key x ∉ seen.
Proof.
  revert seen. induction l as [|y l IH]; intros seen; simpl.
  - by intros ?%elem_of_nil.
  - case_decide as Hy.
    + intros [? ?]%IH. split; [by right|done].
    + intros [->|[? Hnot]%IH]%elem_of_cons; [split; [by left|done]|].
      split; [by right|set_solver].
Qed.

Lemma NoDup_firstsFrom_keys seen l : NoDup (key <$> firstsFrom key seen l).
Proof.
  revert seen. induction l as [|y l IH]; intros seen; simpl.
  - constructor.
  - case_decide as Hy; [apply IH|].
    rewrite fmap_cons. constructor; [|apply IH].
    intros (z & Hkey & [_ Hz]%elem_of_firstsFrom)%list_elem_of_fmap.
    set_solver.
Qed.

Lemma NoDup_firstsFrom seen l : NoDup (firstsFrom key seen l).
Proof. eapply NoDup_fmap_1, NoDup_firstsFrom_keys. Qed.

Lemma firstsFrom_consistent seen l x :
  keyConsistent key l → x ∈ l → key x ∉ seen → x ∈ firstsFrom key seen l.
Proof.
  revert seen. induction l as [|y l IH]; intros seen Hcons Hx Hseen; simpl.
  - by apply elem_of_nil in Hx.
  - assert (Hcons' : keyConsistent key l).
    { intros a b Ha Hb. apply Hcons; by right. }
    apply elem_of_cons in Hx as [->|Hx].
    + rewrite decide_False by done. by left.
    + case_decide as Hy; [by apply IH|].
      destruct (decide (key x = key y)) as [Heq|Hne].
      * assert (x = y) as -> by (apply Hcons; [by right|by left|done]). by left.
      * right. apply IH; [done..|]. set_solver.
Qed.

Lemma keyConsistent_Permutation l1 l2 :
  l1 ≡ₚ l2 → keyConsistent key l1 → keyConsistent key l2.
Proof.
  intros Hp Hcons x y Hx Hy. apply Hcons; by rewrite Hp.
Qed.

Lemma firstsFrom_Permutation seen l1 l2 :
  l1 ≡ₚ l2 → keyConsistent key l1 → firstsFrom key seen l1 ≡ₚ firstsFrom key seen l2.
Proof.
  intros Hp Hcons.
  apply NoDup_Permutation; [apply NoDup_firstsFrom..|].
  intros x. split; intros [Hx Hseen]%elem_of_firstsFrom.
  - apply firstsFrom_consistent; [by eapply keyConsistent_Permutation| |done].
    by rewrite <- Hp.
  - apply firstsFrom_consistent; [done| |done]. by rewrite Hp.
Qed.

(** Reordering a key-consistent stretch of a list reorders its first
    occurrences and does nothing else to them. *)
Lemma firsts_middle a m1 m2 b :
  m1 ≡ₚ m2 → keyConsistent key m1 →
  firsts key (a ++ m1 ++ b) ≡ₚ firsts key (a ++ m2 ++ b).
Proof.
  intros Hp Hcons. unfold firsts. rewrite !firstsFrom_app.
  assert (Hkeys : list_to_set (C:=gset string) (key <$> m1)
                  = list_to_set (key <$> m2)) by (by rewrite Hp).
  rewrite Hkeys. do 1 f_equiv. f_equiv. by apply firstsFrom_Permutation.
Qed.

Lemma keyConsistent_NoDup l : NoDup (key <$> l) → keyConsistent key l.
Proof.
  intros Hnd x y Hx Hy Hkey.
  apply list_elem_of_lookup in Hx as [i Hi].
  apply list_elem_of_lookup in Hy as [j Hj].
  assert (i = j) as ->.
  { eapply NoDup_lookup; [exact Hnd| |];
      rewrite list_lookup_fmap; [by rewrite Hi|by rewrite Hj, Hkey]. }
  congruence.
Qed.

Lemma keyConsistent_Forall l :
  Forall (λ x, Forall (λ y, key x = key y → x = y) l) l → keyConsistent key l.
Proof.
  intros Hall x y Hx Hy. rewrite Forall_forall in Hall.
  specialize (Hall x Hx). rewrite Forall_forall in Hall. by apply Hall.
Qed.

(** De-duplication followed by sorting: the result is fixed by the first
    occurrences, whatever their order. *)
Lemma sortByKey_firsts_canonical l1 l2 :
  firsts key l1 ≡ₚ firsts key l2 →
  sortByKey key (firsts key l1) = sortByKey key (firsts key l2).
Proof.
  intros Hp. unfold sortByKey.
  set (R := λ x y : A, String.le (key x) (key y)).
  assert (HT : Transitive R) by (intros x y z; unfold R; apply transitivity).
  assert (Htot : Total R) by (intros x y; unfold R; apply total, _).
  apply (Sorted_unique_strong R); [|by apply Sorted_merge_sort..|].
  - intros x1 x2 Hx1 Hx2 H12 H21.
    rewrite merge_sort_Permutation in Hx1, Hx2. rewrite <- Hp in Hx2.
    apply (keyConsistent_NoDup (firsts key l1));
      [apply NoDup_firstsFrom_keys|done..|].
    by apply (anti_symm String.le).
  - by rewrite !merge_sort_Permutation.
Qed.

End FirstsProperties.

(** ** Properties of the generator *)

Section GeneratorProperties.
Context `{Helpers}.

(** C6. For every mesh configuration, and whatever the listeners, the
    clusters and the [lds] flag, the configuration made by [buildConfig] has
    its admin block on the local address at [ProxyAdminPort], its SDS and CDS
    discovery clusters built by [buildCluster] from [DiscoveryAddress] and
    [ConnectTimeout] with the refresh delay [DiscoveryRefreshDelay], and
    [StatsdUdpAddress] as its statsd sink. *)
Theorem buildConfig_recognized_options
    (listeners : Listeners) (clusters : Clusters) (lds : bool)
    (mesh : ProxyMeshConfig) :
  let out := buildConfig listeners clusters lds mesh in
  AdminAddress (ConfigAdmin out)
    = "tcp://" +:+ LocalhostAddress +:+ ":" +:+ pretty (ProxyAdminPort mesh)
  ∧ SDS (ConfigClusterManager out)
    = Some {| DCluster :=
                buildCluster (DiscoveryAddress mesh) SDSName (ConnectTimeout mesh);
              DRefreshDelayMs := protoDurationToMS (DiscoveryRefreshDelay mesh) |}
  ∧ CDS (ConfigClusterManager out)
    = Some {| DCluster :=
                buildCluster (DiscoveryAddress mesh) CDSName (ConnectTimeout mesh);
              DRefreshDelayMs := protoDurationToMS (DiscoveryRefreshDelay mesh) |}
  ∧ StatsdUDPIPAddress out = StatsdUdpAddress mesh.
Proof.
  intros out. subst out. unfold buildConfig.
  destruct lds; case_decide; simpl; repeat split; reflexivity.
Qed.

(** *** Routes of a destination *)

Lemma collectRouteRules_no_catch_all service servicePort rules routes :
  Forall (λ r, CatchAll r = false) (builtRoutes service servicePort rules) →
  collectRouteRules service servicePort rules routes
  = (routes ++ builtRoutes service servicePort rules, true).
Proof.
  unfold builtRoutes. revert routes.
  induction rules as [|rule rules IH]; intros routes Hall.
  - simpl. by rewrite app_nil_r.
  - rewrite filter_cons in Hall |- *. cbn [collectRouteRules].
    case_decide as Hd.
    + rewrite fmap_cons in Hall |- *.
      apply Forall_cons in Hall as [Hr Hall]. rewrite Hr.
      rewrite (IH _ Hall). by rewrite <- app_assoc.
    + by apply IH.
Qed.

Lemma collectRouteRules_catch_all service servicePort rules routes :
  Exists (λ r, CatchAll r = true) (builtRoutes service servicePort rules) →
  ∃ pre r post,
    builtRoutes service servicePort rules = pre ++ r :: post
    ∧ Forall (λ r, CatchAll r = false) pre
    ∧ CatchAll r = true
    ∧ collectRouteRules service servicePort rules routes
      = (routes ++ pre ++ [r], false).
Proof.
  unfold builtRoutes. revert routes.
  induction rules as [|rule rules IH]; intros routes Hex.
  - by apply Exists_nil in Hex.
  - rewrite filter_cons in Hex |- *. cbn [collectRouteRules].
    case_decide as Hd.
    + rewrite fmap_cons in Hex |- *.
      destruct (CatchAll (buildHTTPRoute rule servicePort)) eqn:Hc.
      * eexists [], (buildHTTPRoute rule servicePort), _.
        split; [reflexivity|]. repeat split; auto.
      * apply Exists_cons in Hex as [Hex|Hex]; [congruence|].
        destruct (IH (routes ++ [buildHTTPRoute rule servicePort]) Hex)
          as (pre & r & post & Hb & Hpre & Hr & Hrun).
        exists (buildHTTPRoute rule servicePort :: pre), r, post.
        rewrite Hb, Hrun, <- app_assoc. repeat split; auto.
    + by apply IH.
Qed.

(** C10. For a service port whose protocol is HTTP, HTTP2 or GRPC,
    [buildDestinationHTTPRoutes] returns a list that is not empty. With
    [built] the routes of the rules of the destination, in the order of the
    rules: when none of them is a catch-all the result is all of them
    followed by the default route of the destination cluster; when one is,
    the result stops at the first such route, which is its last element, and
    no default route is added. *)
Theorem buildDestinationHTTPRoutes_http
    (service : Service) (servicePort : Port) (rules : list RouteRule) :
  PortProtocol servicePort ∈ [ProtocolHTTP; ProtocolHTTP2; ProtocolGRPC] →
  let built := builtRoutes service servicePort rules in
  let defaultRoute :=
    buildDefaultRoute (buildOutboundCluster (Hostname service) servicePort) in
  let routes := buildDestinationHTTPRoutes service servicePort rules in
  routes ≠ []
  ∧ ((Forall (λ r, CatchAll r = false) built ∧ routes = built ++ [defaultRoute])
     ∨ (∃ pre r post,
          built = pre ++ r :: post
          ∧ Forall (λ r, CatchAll r = false) pre
          ∧ CatchAll r = true
          ∧ routes = pre ++ [r])).
Proof.
  intros Hproto built defaultRoute routes.
  assert (Hroutes : routes =
    let '(rs, useDefaultRoute) := collectRouteRules service servicePort rules [] in
    if useDefaultRoute then rs ++ [defaultRoute] else rs).
  { subst routes. unfold buildDestinationHTTPRoutes.
    set_unfold in Hproto.
    destruct Hproto as [-> | [-> | [-> | []]]]; reflexivity. }
  destruct (decide (Forall (λ r, CatchAll r = false) built)) as [Hall|Hnot].
  - rewrite (collectRouteRules_no_catch_all _ _ _ [] Hall) in Hroutes.
    simpl in Hroutes. fold built in Hroutes. split.
    + rewrite Hroutes. by destruct built.
    + left. by split.
  - apply not_Forall_Exists in Hnot; [|intros r; apply _].
    assert (Hex : Exists (λ r, CatchAll r = true) built).
    { eapply Exists_impl; [exact Hnot|]. simpl. intros r Hr.
      by destruct (CatchAll r). }
    destruct (collectRouteRules_catch_all _ _ _ [] Hex)
      as (pre & r & post & Hb & Hpre & Hr & Hrun).
    rewrite Hrun in Hroutes. simpl in Hroutes. split.
    + rewrite Hroutes. by destruct pre.
    + right. by exists pre, r, post.
Qed.

(** *** Inbound authentication *)

Lemma buildHTTPListener_no_ssl o mesh role instances routeConfig ip port rds remote :
  ListenerSSLContext
    (buildHTTPListener o mesh role instances routeConfig ip port rds remote) = None.
Proof. reflexivity. Qed.

Lemma inboundInstance_no_ssl o mesh sidecar instances config acc instance :
  Forall (λ l, ListenerSSLContext l = None) acc.1 →
  Forall (λ l, ListenerSSLContext l = None)
    (inboundInstance o mesh sidecar instances config acc instance).1.
Proof.
  intros Hacc. unfold inboundInstance.
  destruct (PortProtocol (ServicePort (Endpoint instance))); simpl;
    try done; apply Forall_app; split; try done;
    apply Forall_singleton; try reflexivity;
    by case_decide.
Qed.

Lemma inboundBeforeAuth_no_ssl o mesh sidecar instances config :
  Forall (λ l, ListenerSSLContext l = None)
    (inboundBeforeAuth o mesh sidecar instances config).1.
Proof.
  unfold inboundBeforeAuth.
  generalize instances at 1. intros all.
  assert (Hnil : Forall (λ l : Listener, ListenerSSLContext l = None)
                   (([], []) : Listeners * Clusters).1) by constructor.
  revert Hnil. generalize (([], []) : Listeners * Clusters).
  induction instances as [|instance rest IH]; intros acc Hacc; simpl; [done|].
  apply IH. by apply inboundInstance_no_ssl.
Qed.

(** C7. The listeners that [buildInboundListeners] returns are the ones its
    first loop built, each passed through [applyInboundAuth]: under
    [MUTUAL_TLS] each is the built listener with its SSL context set to
    [buildListenerSSLContext] of [AuthCertsPath], and nothing else changed;
    under [NONE] they are the built listeners unchanged, none of which has an
    SSL context. *)
Theorem buildInboundListeners_auth
    (o : RangeOrder) (mesh : ProxyMeshConfig) (sidecar : Node)
    (instances : list ServiceInstance) (config : IstioConfigStore) :
  let built := (inboundBeforeAuth o mesh sidecar instances config).1 in
  let listeners := (buildInboundListeners o mesh sidecar instances config).1 in
  let ctx := buildListenerSSLContext (AuthCertsPath mesh) in
  (AuthPolicy mesh = ProxyMeshConfig_MUTUAL_TLS →
     listeners = (λ l, setSSLContext l (Some ctx)) <$> built
     ∧ Forall (λ l, ListenerSSLContext l = Some ctx) listeners)
  ∧ (AuthPolicy mesh = ProxyMeshConfig_NONE →
     listeners = built
     ∧ Forall (λ l, ListenerSSLContext l = None) listeners).
Proof.
  intros built listeners ctx.
  assert (Hl : listeners = (λ l, applyInboundAuth l mesh) <$> built).
  { subst listeners built. unfold buildInboundListeners.
    by destruct (inboundBeforeAuth o mesh sidecar instances config). }
  split; intros Hpolicy.
  - assert (Heq : listeners = (λ l, setSSLContext l (Some ctx)) <$> built).
    { rewrite Hl. apply list_fmap_ext. intros i l _.
      unfold applyInboundAuth. by rewrite Hpolicy. }
    split; [done|]. rewrite Heq. apply Forall_fmap, Forall_true. by intros l.
  - assert (Heq : listeners = built).
    { rewrite Hl. rewrite <- (list_fmap_id built) at 2.
      apply list_fmap_ext. intros i l _.
      unfold applyInboundAuth. by rewrite Hpolicy. }
    split; [done|]. rewrite Heq. apply inboundBeforeAuth_no_ssl.
Qed.

(** *** Management listeners of [buildSidecar] *)

Lemma GetByAddress_None ls a : GetByAddress ls a = None ↔ a ∉ addresses ls.
Proof.
  unfold addresses. induction ls as [|l ls IH]; simpl.
  - split; [intros _; apply not_elem_of_nil|done].
  - rewrite not_elem_of_cons. case_decide as Ha; [|rewrite IH].
    + split; [done|]. by intros [Hne _].
    + split; [done|]. by intros [_ Hls].
Qed.

Lemma GetByAddress_Some ls a l :
  GetByAddress ls a = Some l → l ∈ ls ∧ ListenerAddress l = a.
Proof.
  induction ls as [|l' ls IH]; simpl; [done|].
  case_decide.
  - intros [= ->]. split; [left|done].
  - intros Hl. destruct (IH Hl). split; [by right|done].
Qed.

Lemma tcpAddress_inj ip p q : tcpAddress ip p = tcpAddress ip q → p = q.
Proof.
  unfold tcpAddress. intros Heq.
  do 3 apply (inj (String.app _)) in Heq.
  by apply (inj pretty) in Heq.
Qed.

Lemma buildMgmtPortListeners_pairs mesh managementPorts managementIP :
  buildMgmtPortListeners mesh managementPorts managementIP
  = ((mgmtPair mesh managementIP <$> filter mgmtSupported managementPorts).*1,
     (mgmtPair mesh managementIP <$> filter mgmtSupported managementPorts).*2).
Proof.
  unfold buildMgmtPortListeners.
  enough (Hgen : ∀ acc,
    foldl (mgmtPort mesh managementIP) acc managementPorts
    = (acc.1 ++ (mgmtPair mesh managementIP <$> filter mgmtSupported managementPorts).*1,
       acc.2 ++ (mgmtPair mesh managementIP <$> filter mgmtSupported managementPorts).*2))
    by apply (Hgen ([], [])).
  induction managementPorts as [|mPort rest IH]; intros [ls cs]; simpl.
  - by rewrite !app_nil_r.
  - rewrite IH, filter_cons. unfold mgmtPort, mgmtSupported.
    destruct (PortProtocol mPort) eqn:Hp; simpl;
      by rewrite <- ?app_assoc.
Qed.

(** The two slices that the loop of lines 178-189 indexes together have the
    same length. *)
Lemma buildMgmtPortListeners_length mesh managementPorts managementIP :
  length (buildMgmtPortListeners mesh managementPorts managementIP).1
  = length (buildMgmtPortListeners mesh managementPorts managementIP).2.
Proof. rewrite buildMgmtPortListeners_pairs. simpl. by rewrite !length_fmap. Qed.

Lemma buildMgmtPortListeners_zip mesh managementPorts managementIP :
  zip (buildMgmtPortListeners mesh managementPorts managementIP).1
      (buildMgmtPortListeners mesh managementPorts managementIP).2
  = mgmtPair mesh managementIP <$> filter mgmtSupported managementPorts.
Proof. rewrite buildMgmtPortListeners_pairs. simpl. apply zip_fst_snd. Qed.

Lemma addMgmtListener_foldl pairs : ∀ L C, ∃ kept,
  kept `sublist_of` pairs
  ∧ foldl addMgmtListener (L, C) pairs = (L ++ kept.*1, C ++ kept.*2)
  ∧ (∀ mc, mc ∈ kept → ListenerAddress mc.1 ∉ addresses L)
  ∧ (∀ mc, mc ∈ pairs → ListenerAddress mc.1 ∉ addresses L →
       ListenerAddress mc.1 ∈ addresses kept.*1).
Proof.
  induction pairs as [|[m c] pairs IH]; intros L C.
  - exists []. simpl. rewrite !app_nil_r. repeat split; try done.
    all: intros mc Hmc; by apply elem_of_nil in Hmc.
  - simpl. destruct (GetByAddress L (ListenerAddress m)) as [l|] eqn:Hget.
    + destruct (IH L C) as (kept & Hsub & Hrun & Hkept & Hall).
      exists kept. repeat split; try done.
      * by apply sublist_cons_r; left.
      * intros mc [->|Hmc]%elem_of_cons Hfree; [|by apply Hall].
        apply GetByAddress_Some in Hget as [Hl Ha]. exfalso. apply Hfree.
        simpl. rewrite <- Ha. unfold addresses. by apply list_elem_of_fmap_2.
    + apply GetByAddress_None in Hget.
      destruct (IH (L ++ [m]) (C ++ [c])) as (kept & Hsub & Hrun & Hkept & Hall).
      exists ((m, c) :: kept). repeat split.
      * by apply sublist_skip.
      * rewrite Hrun. simpl. by rewrite <- !app_assoc.
      * intros mc [->|Hmc]%elem_of_cons; [done|].
        intros Hin. apply (Hkept mc Hmc). unfold addresses in *.
        rewrite fmap_app. apply elem_of_app. by left.
      * intros mc [->|Hmc]%elem_of_cons Hfree; simpl; [by left|].
        destruct (decide (ListenerAddress mc.1 = ListenerAddress m)) as [->|Hne];
          [by left|].
        right. apply (Hall mc Hmc). unfold addresses in *.
        rewrite fmap_app, elem_of_app. intros [?|Hm]; [done|].
        simpl in Hm. apply list_elem_of_singleton in Hm. done.
Qed.

Lemma mgmtPair_address mesh managementIP p q :
  ListenerAddress (mgmtPair mesh managementIP p).1
  = ListenerAddress (mgmtPair mesh managementIP q).1 →
  mgmtPair mesh managementIP p = mgmtPair mesh managementIP q.
Proof.
  unfold mgmtPair. simpl. intros Heq%tcpAddress_inj. by rewrite Heq.
Qed.

Lemma sidecarCollected_redirect o env sidecar :
  0 < ProxyListenPort (Mesh env) →
  sidecarCollected o env sidecar
  = ((sidecarRedirect o env sidecar).1 ++ (proxyPart o env sidecar).1,
     (sidecarRedirect o env sidecar).2 ++ (proxyPart o env sidecar).2).
Proof.
  intros Hport. unfold sidecarCollected, proxyPart.
  rewrite decide_True by done.
  destruct (sidecarRedirect o env sidecar) as [ls cs].
  case_decide; simpl.
  - by destruct (sidecarHTTPProxy o env sidecar).
  - by rewrite !app_nil_r.
Qed.

(** C8. When [ProxyListenPort] is positive, the lists that [buildSidecar]
    normalizes and returns are made of the service (inbound and outbound)
    listeners and clusters, followed by the kept pairs of a management
    listener and its cluster, followed by the virtual listener and what the
    HTTP proxy port adds. A management listener whose address is the address
    of a service listener is not kept, and neither is its cluster: no kept
    pair has that address. A management listener whose address is the
    address of no service listener is kept, and its cluster with it. *)
Theorem buildSidecar_management_listeners
    (o : RangeOrder) (env : Environment) (sidecar : Node) :
  0 < ProxyListenPort (Mesh env) →
  let services := sidecarServices o env sidecar in
  let mgmt :=
    buildMgmtPortListeners (Mesh env)
      (ManagementPorts (EnvServiceDiscovery env) (IPAddress sidecar))
      (IPAddress sidecar) in
  let proxy := proxyPart o env sidecar in
  ∃ kept : list (Listener * Cluster),
    kept `sublist_of` zip mgmt.1 mgmt.2
    ∧ buildSidecar o env sidecar
      = (normalizeListeners
           (((λ l, setBindToPort l false) <$> (services.1 ++ kept.*1))
            ++ virtualListener (Mesh env) :: proxy.1),
         normalizeClusters ((services.2 ++ kept.*2) ++ proxy.2))
    ∧ (∀ m c, (m, c) ∈ zip mgmt.1 mgmt.2 →
         ListenerAddress m ∈ addresses services.1 →
         ∀ mc, mc ∈ kept → ListenerAddress mc.1 ≠ ListenerAddress m)
    ∧ (∀ m c, (m, c) ∈ zip mgmt.1 mgmt.2 →
         ListenerAddress m ∉ addresses services.1 →
         (m, c) ∈ kept ∧ setBindToPort m false = m).
Proof.
  intros Hport services mgmt proxy.
  destruct (addMgmtListener_foldl (zip mgmt.1 mgmt.2) services.1 services.2)
    as (kept & Hsub & Hrun & Hkept & Hall).
  exists kept. split; [done|]. split; [|split].
  - unfold buildSidecar. rewrite sidecarCollected_redirect by done.
    unfold sidecarRedirect, sidecarWithMgmt. fold mgmt proxy.
    destruct mgmt as [mgmtListeners mgmtClusters] eqn:Hmgmt.
    fold services. destruct services as [ls cs] eqn:Hservices.
    simpl in Hrun. rewrite Hrun. simpl. by rewrite <- !app_assoc.
  - intros m c _ Hcollides mc Hmc Heq. apply (Hkept mc Hmc). by rewrite Heq.
  - intros m c Hmc Hfree.
    pose proof (Hall (m, c) Hmc Hfree) as Hin. simpl in Hin.
    unfold addresses in Hin. rewrite <- list_fmap_compose in Hin.
    apply list_elem_of_fmap in Hin as ([m' c'] & Haddr & Hin). simpl in Haddr.
    assert (Hmc' : (m', c') ∈ zip mgmt.1 mgmt.2) by (by eapply elem_of_sublist).
    subst mgmt. rewrite buildMgmtPortListeners_zip in Hmc, Hmc'.
    apply list_elem_of_fmap in Hmc as (p & Hp & _).
    apply list_elem_of_fmap in Hmc' as (q & Hq & _).
    assert (Hpq : mgmtPair (Mesh env) (IPAddress sidecar) p
                  = mgmtPair (Mesh env) (IPAddress sidecar) q).
    { apply mgmtPair_address. by rewrite <- Hp, <- Hq. }
    split.
    + rewrite Hp, Hpq, <- Hq. done.
    + by injection Hp as -> _.
Qed.

(** C9, as amended. When [ProxyListenPort] is positive, the listeners that
    [buildSidecar] normalizes and returns are: the service and management
    listeners, each with [BindToPort] false; then one virtual listener, on
    the wildcard address at [ProxyListenPort], with [BindToPort] and
    [UseOriginalDst] true and no filter; then, when [ProxyHttpPort] is
    positive, the listener of the HTTP proxy port on the local address, whose
    [BindToPort] is true as well, and nothing when it is not. *)
Theorem buildSidecar_bind_to_port
    (o : RangeOrder) (env : Environment) (sidecar : Node) :
  0 < ProxyListenPort (Mesh env) →
  let instances := HostInstances (EnvServiceDiscovery env) {[IPAddress sidecar]} in
  let proxyListener :=
    buildHTTPListener o (Mesh env) sidecar instances None LocalhostAddress
      (ProxyHttpPort (Mesh env)) RDSAll false in
  ∃ (redirected : Listeners) (clusters : Clusters),
    buildSidecar o env sidecar
    = (normalizeListeners
         (redirected ++ virtualListener (Mesh env)
            :: (if decide (0 < ProxyHttpPort (Mesh env))
                then [proxyListener] else [])),
       normalizeClusters clusters)
    ∧ Forall (λ l, BindToPort l = false) redirected
    ∧ ListenerAddress (virtualListener (Mesh env))
      = "tcp://" +:+ WildcardAddress +:+ ":" +:+ pretty (ProxyListenPort (Mesh env))
    ∧ BindToPort (virtualListener (Mesh env)) = true
    ∧ UseOriginalDst (virtualListener (Mesh env)) = true
    ∧ Filters (virtualListener (Mesh env)) = []
    ∧ BindToPort proxyListener = true
    ∧ ListenerAddress proxyListener
      = "tcp://" +:+ LocalhostAddress +:+ ":" +:+ pretty (ProxyHttpPort (Mesh env)).
Proof.
  intros Hport instances proxyListener.
  exists ((λ l, setBindToPort l false) <$> (sidecarWithMgmt o env sidecar).1),
         ((sidecarWithMgmt o env sidecar).2 ++ (proxyPart o env sidecar).2).
  split; [|split; [|by repeat split]].
  - unfold buildSidecar. rewrite sidecarCollected_redirect by done.
    unfold sidecarRedirect.
    destruct (sidecarWithMgmt o env sidecar) as [ls cs]. simpl.
    rewrite <- !app_assoc. simpl. do 3 f_equal.
    unfold proxyPart. by case_decide.
  - apply Forall_fmap, Forall_true. by intros l.
Qed.

(** *** Independence of the order of [range] *)

Lemma sortStrings_Permutation l1 l2 :
  l1 ≡ₚ l2 → sortStrings l1 = sortStrings l2.
Proof.
  intros Hp. unfold sortStrings.
  apply (Sorted_unique String.le); [apply Sorted_merge_sort; apply _..|].
  by rewrite !merge_sort_Permutation.
Qed.

Lemma serviceNames_order o1 o2 instances :
  serviceNames o1 instances = serviceNames o2 instances.
Proof.
  unfold serviceNames. destruct instances as [|instance rest]; [done|].
  f_equal. apply sortStrings_Permutation. by rewrite !rangeKeys_perm.
Qed.

Lemma buildHTTPListener_order o1 o2 mesh role instances routeConfig ip port rds remote :
  buildHTTPListener o1 mesh role instances routeConfig ip port rds remote
  = buildHTTPListener o2 mesh role instances routeConfig ip port rds remote.
Proof.
  unfold buildHTTPListener. by rewrite (serviceNames_order o1 o2).
Qed.

Lemma foldl_pointwise {S E : Type} (f g : S → E → S) (l : list E) (a : S) :
  (∀ a x, f a x = g a x) → foldl f a l = foldl g a l.
Proof.
  intros Hfg. revert a. induction l as [|x l IH]; intros a; simpl; [done|].
  by rewrite Hfg, IH.
Qed.

Lemma buildInboundListeners_order o1 o2 mesh sidecar instances config :
  buildInboundListeners o1 mesh sidecar instances config
  = buildInboundListeners o2 mesh sidecar instances config.
Proof.
  unfold buildInboundListeners, inboundBeforeAuth.
  rewrite (foldl_pointwise _ (inboundInstance o2 mesh sidecar instances config));
    [done|].
  intros acc instance. unfold inboundInstance.
  by rewrite (buildHTTPListener_order o1 o2).
Qed.

Lemma buildOutboundListeners_shape o mesh sidecar instances services config :
  let tcp := buildOutboundTCPListeners mesh services in
  let entries :=
    rangePorts o (buildOutboundHTTPRoutes mesh sidecar instances services config) in
  buildOutboundListeners o mesh sidecar instances services config
  = (tcp.1 ++ (outboundHTTPListener o mesh sidecar instances <$> entries),
     tcp.2 ++ (entries ≫= entryClusters)).
Proof.
  intros tcp entries. unfold buildOutboundListeners. fold tcp entries.
  destruct tcp as [ls cs]. simpl. clearbody entries. revert ls cs.
  induction entries as [|[port routeConfig] entries IH]; intros ls cs; simpl.
  - by rewrite !app_nil_r.
  - rewrite IH. unfold outboundHTTPListener, entryClusters. simpl.
    by rewrite <- !app_assoc.
Qed.

Lemma addMgmtListener_foldl_order pairs : ∀ L1 C1 L2 C2,
  (∀ a, a ∈ addresses L1 ↔ a ∈ addresses L2) →
  ∃ kept : list (Listener * Cluster),
    foldl addMgmtListener (L1, C1) pairs = (L1 ++ kept.*1, C1 ++ kept.*2)
    ∧ foldl addMgmtListener (L2, C2) pairs = (L2 ++ kept.*1, C2 ++ kept.*2).
Proof.
  induction pairs as [|[m c] pairs IH]; intros L1 C1 L2 C2 Hsame.
  - exists []. simpl. by rewrite !app_nil_r.
  - simpl.
    destruct (GetByAddress L1 (ListenerAddress m)) as [l1|] eqn:H1,
             (GetByAddress L2 (ListenerAddress m)) as [l2|] eqn:H2.
    + by apply IH.
    + apply GetByAddress_Some in H1 as [Hl1 Ha1].
      apply GetByAddress_None in H2. exfalso. apply H2, Hsame.
      rewrite <- Ha1. unfold addresses. by apply list_elem_of_fmap_2.
    + apply GetByAddress_Some in H2 as [Hl2 Ha2].
      apply GetByAddress_None in H1. exfalso. apply H1, Hsame.
      rewrite <- Ha2. unfold addresses. by apply list_elem_of_fmap_2.
    + destruct (IH (L1 ++ [m]) (C1 ++ [c]) (L2 ++ [m]) (C2 ++ [c]))
        as (kept & Hk1 & Hk2).
      { intros a. unfold addresses in *. rewrite !fmap_app, !elem_of_app.
        by rewrite Hsame. }
      exists ((m, c) :: kept). rewrite Hk1, Hk2. simpl.
      by rewrite <- !app_assoc.
Qed.

End GeneratorProperties.

(** ** Determinism of the generation *)

Section Determinism.
Context `{Helpers}.

(** [normalize] is declared outside [config.go], which says of it that
    configuration elements are de-duplicated and ordered in a canonical way.
    That is what is assumed of it here: its result is fixed by the first
    occurrences of the keys, whatever their order. Listeners are keyed by
    address, clusters by [clusterKey]. *)
Variable clusterKey : Cluster → string.

Hypothesis normalizeListeners_canonical :
  ∀ l1 l2 : Listeners,
    firsts ListenerAddress l1 ≡ₚ firsts ListenerAddress l2 →
    normalizeListeners l1 = normalizeListeners l2.

Hypothesis normalizeClusters_canonical :
  ∀ l1 l2 : Clusters,
    firsts clusterKey l1 ≡ₚ firsts clusterKey l2 →
    normalizeClusters l1 = normalizeClusters l2.

Lemma sidecarWithMgmt_order o1 o2 env sidecar :
  let instances := HostInstances (EnvServiceDiscovery env) {[IPAddress sidecar]} in
  let m :=
    buildOutboundHTTPRoutes (Mesh env) sidecar instances
      (Services (EnvServiceDiscovery env)) (EnvIstioConfigStore env) in
  let g := outboundHTTPListener o1 (Mesh env) sidecar instances in
  ∃ (a : Listeners) (ca : Clusters) (kept : list (Listener * Cluster)),
    sidecarWithMgmt o1 env sidecar
    = (a ++ (g <$> rangePorts o1 m) ++ kept.*1,
       ca ++ (rangePorts o1 m ≫= entryClusters) ++ kept.*2)
    ∧ sidecarWithMgmt o2 env sidecar
      = (a ++ (g <$> rangePorts o2 m) ++ kept.*1,
         ca ++ (rangePorts o2 m ≫= entryClusters) ++ kept.*2).
Proof.
  intros instances m g. unfold sidecarWithMgmt, sidecarServices.
  fold instances. rewrite (buildInboundListeners_order o2 o1).
  rewrite !buildOutboundListeners_shape. fold m.
  assert (Hg : outboundHTTPListener o2 (Mesh env) sidecar instances
                 <$> rangePorts o2 m = g <$> rangePorts o2 m).
  { apply list_fmap_ext. intros i e _. apply buildHTTPListener_order. }
  rewrite Hg. fold g.
  destruct (buildInboundListeners o1 (Mesh env) sidecar instances
              (EnvIstioConfigStore env)) as [inbound inClusters].
  destruct (buildOutboundTCPListeners (Mesh env) (Services (EnvServiceDiscovery env)))
    as [tcpListeners tcpClusters].
  destruct (buildMgmtPortListeners (Mesh env)
              (ManagementPorts (EnvServiceDiscovery env) (IPAddress sidecar))
              (IPAddress sidecar)) as [mgmtListeners mgmtClusters].
  simpl.
  destruct (addMgmtListener_foldl_order (zip mgmtListeners mgmtClusters)
              (inbound ++ tcpListeners ++ (g <$> rangePorts o1 m))
              (inClusters ++ tcpClusters ++ (rangePorts o1 m ≫= entryClusters))
              (inbound ++ tcpListeners ++ (g <$> rangePorts o2 m))
              (inClusters ++ tcpClusters ++ (rangePorts o2 m ≫= entryClusters)))
    as (kept & Hk1 & Hk2).
  { intros a. unfold addresses. rewrite !fmap_app, !elem_of_app.
    by rewrite !rangePorts_perm. }
  exists (inbound ++ tcpListeners), (inClusters ++ tcpClusters), kept.
  rewrite Hk1, Hk2. by rewrite <- !app_assoc.
Qed.

Lemma outboundHTTPListener_addresses o mesh sidecar instances entries :
  NoDup entries.*1 →
  NoDup (ListenerAddress <$>
           ((λ l, setBindToPort l false) <$>
              (outboundHTTPListener o mesh sidecar instances <$> entries))).
Proof.
  intros Hnd.
  assert (Heq : ListenerAddress <$>
                  ((λ l, setBindToPort l false) <$>
                     (outboundHTTPListener o mesh sidecar instances <$> entries))
                = tcpAddress WildcardAddress <$> entries.*1).
  { rewrite <- !list_fmap_compose. by apply list_fmap_ext. }
  rewrite Heq. apply NoDup_fmap_2_strong; [|done].
  intros p q _ _. apply tcpAddress_inj.
Qed.

Lemma sidecarCollected_order o1 o2 env sidecar :
  keyConsistent clusterKey (outboundRouteClusters env sidecar) →
  firsts ListenerAddress (sidecarCollected o1 env sidecar).1
    ≡ₚ firsts ListenerAddress (sidecarCollected o2 env sidecar).1
  ∧ firsts clusterKey (sidecarCollected o1 env sidecar).2
    ≡ₚ firsts clusterKey (sidecarCollected o2 env sidecar).2.
Proof.
  intros Hcons. unfold sidecarCollected, sidecarHTTPProxy.
  rewrite (buildHTTPListener_order o2 o1).
  set (proxyListener := buildHTTPListener o1 _ _ _ _ _ _ _ _).
  set (proxyClusters := routeConfigsClusters _).
  case_decide as Hlisten; [|done].
  unfold sidecarRedirect.
  destruct (sidecarWithMgmt_order o1 o2 env sidecar)
    as (a & ca & kept & -> & ->).
  set (instances := HostInstances (EnvServiceDiscovery env) {[IPAddress sidecar]}) in *.
  set (m := buildOutboundHTTPRoutes _ _ _ _ _) in *.
  set (g := outboundHTTPListener o1 (Mesh env) sidecar instances).
  assert (Hl : ∀ tail : Listeners,
    firsts ListenerAddress
      ((((λ l, setBindToPort l false) <$> (a ++ (g <$> rangePorts o1 m) ++ kept.*1))
        ++ [virtualListener (Mesh env)]) ++ tail)
    ≡ₚ firsts ListenerAddress
      ((((λ l, setBindToPort l false) <$> (a ++ (g <$> rangePorts o2 m) ++ kept.*1))
        ++ [virtualListener (Mesh env)]) ++ tail)).
  { intros tail. rewrite !fmap_app, <- !app_assoc.
    apply firsts_middle.
    - by rewrite !rangePorts_perm.
    - apply keyConsistent_NoDup, outboundHTTPListener_addresses.
      rewrite rangePorts_perm. apply NoDup_fst_map_to_list. }
  assert (Hc : ∀ tail : Clusters,
    firsts clusterKey ((ca ++ (rangePorts o1 m ≫= entryClusters) ++ kept.*2) ++ tail)
    ≡ₚ firsts clusterKey ((ca ++ (rangePorts o2 m ≫= entryClusters) ++ kept.*2) ++ tail)).
  { intros tail. rewrite <- !app_assoc.
    apply firsts_middle.
    - by rewrite !rangePorts_perm.
    - eapply keyConsistent_Permutation; [|exact Hcons].
      unfold outboundRouteClusters. fold instances m. by rewrite rangePorts_perm. }
  case_decide as Hhttp; simpl.
  - split; [apply Hl|apply Hc].
  - split.
    + specialize (Hl []). by rewrite !app_nil_r in Hl.
    + specialize (Hc []). by rewrite !app_nil_r in Hc.
Qed.

Lemma buildSidecar_order o1 o2 env sidecar :
  keyConsistent clusterKey (outboundRouteClusters env sidecar) →
  buildSidecar o1 env sidecar = buildSidecar o2 env sidecar.
Proof.
  intros Hcons. unfold buildSidecar.
  destruct (sidecarCollected_order o1 o2 env sidecar Hcons) as [Hl Hc].
  destruct (sidecarCollected o1 env sidecar) as [l1 c1],
           (sidecarCollected o2 env sidecar) as [l2 c2].
  simpl in *. f_equal; auto.
Qed.

(** C1, as amended. The generation is deterministic when no two different
    clusters of the outbound HTTP routes of the node have the same key, and
    when [normalize], as assumed above, gives a result that is fixed by the
    first occurrences of the keys. Two runs on the same environment and the
    same node can differ only in the order in which Go visits the maps they
    range over; whatever the two orders, the generated configurations are
    then equal, so that the payload bytes [Write] serializes are equal and
    their fingerprints are equal. *)
Theorem Render_deterministic
    {F : Type} (fingerprint : list Byte.byte → F)
    (o1 o2 : RangeOrder) (lds : bool) (env : Environment) (node : Node) :
  keyConsistent clusterKey (outboundRouteClusters env node) →
  generateConfig o1 lds env node = generateConfig o2 lds env node
  ∧ Render fingerprint o1 lds env node = Render fingerprint o2 lds env node
  ∧ (∀ a w world,
       Write a (generateConfig o1 lds env node) w world
       = Write a (generateConfig o2 lds env node) w world).
Proof.
  intros Hcons.
  assert (Hconf : generateConfig o1 lds env node = generateConfig o2 lds env node).
  { unfold generateConfig, buildListeners, buildClusters.
    by rewrite (buildSidecar_order o1 o2 env node Hcons). }
  split; [done|]. split.
  - unfold Render. by rewrite Hconf.
  - intros a w world. by rewrite Hconf.
Qed.

End Determinism.

(** ** Properties of [WriteFile] *)

Section WritingProperties.
Context `{Helpers}.

Lemma onPath_no_rename fname calls :
  Forall (onPath fname) calls → ¬ writeRename fname calls.
Proof.
  intros Hall (tmp & before & after & _ & -> & _).
  apply Forall_app in Hall as [_ Hall]. by apply Forall_cons in Hall as [? _].
Qed.

(** C2, as amended. [WriteFile] creates (or truncates) the very path it is
    given, writes the payload to it and closes it: every call it makes is on
    that path or on the standard error stream, none is a rename and no other
    file is created, so there is no write-rename. No other path is modified,
    a file materialized earlier under another name included. When it returns
    no error, the file holds the payload, written by the three calls create,
    write, close. *)
Theorem WriteFile_in_place
    (a : Answers) (conf : Config) (fname : string) (world : World) :
  let result := WriteFile a conf fname world in
  (∀ other, other ≠ fname → files result.2 !! other = files world !! other)
  ∧ (∃ calls,
       syscalls result.2 = syscalls world ++ calls
       ∧ Forall (onPath fname) calls
       ∧ ¬ writeRename fname calls)
  ∧ (result.1 = None →
       ∃ payload calls,
         MarshalIndent conf = inr payload
         ∧ files result.2 !! fname = Some payload
         ∧ syscalls result.2
           = syscalls world ++ calls ++
             [SysCreate fname; SysWrite (File fname) payload; SysClose fname]).
Proof.
  intros result. subst result. unfold WriteFile, Write, osCreate, writeBytes, fileClose.
  assert (Hcalls : ∀ calls : list SysCall,
            Forall (onPath fname) calls →
            Forall (onPath fname) calls ∧ ¬ writeRename fname calls).
  { intros calls Hall. split; [done|]. by apply onPath_no_rename. }
  destruct (verbose a), (MarshalIndent conf) as [err|out],
    (createError a) as [cerr|], (writeError a Stderr) as [[n1 e1]|],
    (writeError a (File fname)) as [[n2 e2]|], (closeError a) as [xerr|];
    simpl; (split; [|split]).
  all: try (intros other Hother; simpl; by rewrite ?lookup_insert_ne by done).
  all: try (intros Hnone; try discriminate Hnone;
            first
              [ exists out, []; split; [done|]; split;
                [by rewrite !lookup_insert_eq | by rewrite <- ?app_assoc]
              | exists out, [SysWrite Stderr out]; split; [done|]; split;
                [by rewrite !lookup_insert_eq | by rewrite <- ?app_assoc] ]).
  all: eexists; (split; [rewrite <- ?app_assoc; reflexivity|]);
       apply Hcalls; by repeat constructor.
Qed.

End WritingProperties.

(** ** Errors of [WriteFile] *)

Section WritingErrors.
Context `{Helpers}.

(** X1. [WriteFile] returns [nil] exactly when [os.Create], the
    serialization, the write to the file and [Close] all succeed. Whether
    the verbose dump to the standard error stream succeeds plays no part. *)
Theorem WriteFile_nil_iff
    (a : Answers) (conf : Config) (fname : string) (world : World) :
  (WriteFile a conf fname world).1 = None
  ↔ createError a = None
    ∧ (∃ payload, MarshalIndent conf = inr payload)
    ∧ writeError a (File fname) = None
    ∧ closeError a = None.
Proof.
  unfold WriteFile, Write, osCreate, writeBytes, fileClose.
  destruct (verbose a), (MarshalIndent conf) as [err|out],
    (createError a) as [cerr|], (writeError a Stderr) as [[n1 e1]|],
    (writeError a (File fname)) as [[n2 e2]|], (closeError a) as [xerr|];
    simpl; split; try discriminate; try (intros (? & [? ?] & ? & ?); discriminate);
    intros _; repeat split; eauto.
Qed.

(** X2. Turning the verbose mode on changes neither the error that
    [WriteFile] returns nor the files: an error of the dump to the standard
    error stream is logged and dropped. With the verbose mode off nothing is
    written to the standard error stream and nothing is logged. *)
Theorem WriteFile_verbose_transparent
    (a : Answers) (conf : Config) (fname : string) (world : World) :
  let loud := WriteFile a conf fname world in
  let silent := WriteFile (silenced a) conf fname world in
  loud.1 = silent.1
  ∧ files loud.2 = files silent.2
  ∧ stderr silent.2 = stderr world
  ∧ logged silent.2 = logged world.
Proof.
  unfold WriteFile, Write, osCreate, writeBytes, fileClose, silenced.
  cbn [verbose createError writeError closeError].
  destruct (verbose a), (MarshalIndent conf) as [err|out],
    (createError a) as [cerr|], (writeError a Stderr) as [[n1 e1]|],
    (writeError a (File fname)) as [[n2 e2]|], (closeError a) as [xerr|];
    simpl; repeat split; reflexivity.
Qed.

(** X3. [WriteFile] closes the file it created exactly once, as its last
    call, also when the serialization or the write fails. When [os.Create]
    fails, the failed call is the last one: nothing is written to the file
    and nothing is closed. *)
Theorem WriteFile_closes_once
    (a : Answers) (conf : Config) (fname : string) (world : World) :
  ∃ calls,
    syscalls (WriteFile a conf fname world).2 = syscalls world ++ calls
    ∧ match createError a with
      | Some _ =>
          last calls = Some (SysCreate fname)
          ∧ (SysClose fname ∉ calls)
          ∧ (∀ out, SysWrite (File fname) out ∉ calls)
      | None =>
          ∃ before,
            calls = before ++ [SysClose fname]
            ∧ (SysClose fname ∉ before)
            ∧ (SysCreate fname ∈ before)
      end.
Proof.
  unfold WriteFile, Write, osCreate, writeBytes, fileClose.
  destruct (verbose a), (MarshalIndent conf) as [err|out],
    (createError a) as [cerr|], (writeError a Stderr) as [[n1 e1]|],
    (writeError a (File fname)) as [[n2 e2]|], (closeError a) as [xerr|];
    simpl; rewrite <- ?app_assoc; simpl;
    (eexists; split; [first [reflexivity | symmetry; apply app_nil_r]|]);
    try (split; [reflexivity|split; [|intros ?]]; set_solver);
    try (eexists; split;
         [first [reflexivity | exact (eq_refl : [_; _] = [_] ++ [_])
                | exact (eq_refl : [_; _; _] = [_; _] ++ [_])
                | exact (eq_refl : [_; _; _; _] = [_; _; _] ++ [_])]
         | split; set_solver]).
Qed.

(** X4. When [os.Create] fails the files are left as they were. When it
    succeeds the file holds what was written in this call and nothing of
    what it held before: the whole payload, its first bytes when the write
    fails part way, nothing when the serialization fails. *)
Theorem WriteFile_contents
    (a : Answers) (conf : Config) (fname : string) (world : World) :
  files (WriteFile a conf fname world).2
  = match createError a with
    | Some _ => files world
    | None => <[fname := written a conf fname]> (files world)
    end.
Proof.
  unfold WriteFile, Write, osCreate, writeBytes, fileClose, written.
  destruct (verbose a), (MarshalIndent conf) as [err|out],
    (createError a) as [cerr|], (writeError a Stderr) as [[n1 e1]|],
    (writeError a (File fname)) as [[n2 e2]|], (closeError a) as [xerr|];
    simpl; rewrite ?lookup_insert_eq, ?insert_insert_eq; reflexivity.
Qed.

End WritingErrors.

(** ** Go library functions *)

Lemma digit_pretty_N_char (d : N) :
  (d < 10)%N → digit (pretty_N_char d) = Some (Z.of_N d).
Proof.
  intros Hd.
  assert (d = 0 ∨ d = 1 ∨ d = 2 ∨ d = 3 ∨ d = 4 ∨ d = 5 ∨ d = 6 ∨ d = 7
          ∨ d = 8 ∨ d = 9)%N as Hcases by lia.
  repeat (destruct Hcases as [->|Hcases]; [reflexivity|]). by subst.
Qed.

Lemma digits_pretty_N_go (x : N) (s : string) :
  digits 0 (pretty_N_go x s) = digits (Z.of_N x) s.
Proof.
  revert s. induction (N.lt_wf_0 x) as [x _ IH]; intros s.
  destruct (decide (x = 0%N)) as [->|Hx]; [by rewrite pretty_N_go_0|].
  rewrite pretty_N_go_step by lia.
  rewrite IH by (apply N.div_lt; lia). simpl.
  rewrite digit_pretty_N_char by (apply N.mod_lt; lia). simpl.
  f_equal. rewrite (N.div_mod x 10) at 3 by lia. lia.
Qed.

Lemma pretty_N_go_head (x : N) (s : string) :
  (0 < x)%N →
  ∃ d rest, (d < 10)%N ∧ pretty_N_go x s = String (pretty_N_char d) rest.
Proof.
  revert s. induction (N.lt_wf_0 x) as [x _ IH]; intros s Hx.
  rewrite pretty_N_go_step by done.
  destruct (decide (x `div` 10 = 0)%N) as [Hq|Hq].
  - rewrite Hq, pretty_N_go_0. eexists _, _. split; [|done].
    apply N.mod_lt. lia.
  - apply IH; [apply N.div_lt; lia|by apply N.neq_0_lt_0].
Qed.

Lemma pretty_N_char_unsigned (d : N) :
  (d < 10)%N →
  bool_decide (pretty_N_char d = "-"%char ∨ pretty_N_char d = "+"%char) = false.
Proof.
  intros Hd.
  assert (d = 0 ∨ d = 1 ∨ d = 2 ∨ d = 3 ∨ d = 4 ∨ d = 5 ∨ d = 6 ∨ d = 7
          ∨ d = 8 ∨ d = 9)%N as Hcases by lia.
  repeat (destruct Hcases as [->|Hcases]; [reflexivity|]). by subst.
Qed.

Lemma Atoi_unsigned (x : N) :
  (0 < x)%N → Z.of_N x < 2 ^ 63 → Atoi (pretty_N_go x "") = Some (Z.of_N x).
Proof.
  intros Hx Hrange.
  pose proof (digits_pretty_N_go x "") as Hdigits.
  destruct (pretty_N_go_head x "" Hx) as (d & rest & Hd & Heq).
  rewrite Heq in Hdigits |- *. unfold Atoi.
  rewrite (pretty_N_char_unsigned d Hd). rewrite Hdigits. simpl.
  assert (bool_decide (pretty_N_char d = "-"%char) = false) as ->.
  { pose proof (pretty_N_char_unsigned d Hd) as Hu.
    apply bool_decide_eq_false in Hu. apply bool_decide_eq_false. tauto. }
  rewrite decide_True by lia. done.
Qed.

(** [Atoi] reads back what [%d] prints. *)
Lemma Atoi_pretty (n : Z) : - 2 ^ 63 ≤ n < 2 ^ 63 → Atoi (pretty n) = Some n.
Proof.
  intros Hrange. destruct n as [|p|p].
  - reflexivity.
  - change (pretty (Z.pos p)) with (pretty_N_go (N.pos p) "").
    rewrite Atoi_unsigned by lia. done.
  - change (pretty (Z.neg p)) with ("-" +:+ pretty_N_go (N.pos p) "").
    pose proof (digits_pretty_N_go (N.pos p) "") as Hdigits.
    destruct (pretty_N_go_head (N.pos p) "" ltac:(lia)) as (d & rest & Hd & Heq).
    rewrite Heq in Hdigits |- *. unfold Atoi.
    change ("-" +:+ String (pretty_N_char d) rest)
      with (String "-"%char (String (pretty_N_char d) rest)).
    cbv beta iota zeta.
    rewrite (bool_decide_eq_true_2 ("-"%char = "-"%char ∨ _)) by (by left).
    rewrite (bool_decide_eq_true_2 ("-"%char = "-"%char)) by done.
    rewrite Hdigits. simpl. rewrite decide_True by lia. done.
Qed.

Lemma digits_Some (acc : Z) (s : string) (n : Z) :
  digits acc s = Some n → Forall (λ c, is_Some (digit c)) (bytes s).
Proof.
  revert acc. induction s as [|c s IH]; intros acc Hd; simpl in *.
  - constructor.
  - destruct (digit c) as [d|] eqn:Hc; [|done]. simpl in Hd.
    constructor; [by rewrite Hc|]. by eapply IH.
Qed.

(** What [Atoi] accepts: a sign or a digit, followed by digits only. *)
Lemma Atoi_Some (s : string) (n : Z) :
  Atoi s = Some n →
  ∃ c rest,
    s = String c rest
    ∧ (c = "-"%char ∨ c = "+"%char ∨ is_Some (digit c))
    ∧ Forall (λ c, is_Some (digit c)) (bytes rest)
    ∧ - 2 ^ 63 ≤ n < 2 ^ 63.
Proof.
  unfold Atoi. destruct s as [|c rest]; [done|]. intros Hs.
  exists c, rest. split; [done|].
  case_bool_decide as Hsign.
  - destruct rest as [|c' rest']; [done|].
    destruct (digits 0 (String c' rest')) as [m|] eqn:Hd; [|done].
    simpl in Hs. case_decide as Hrange; [|done].
    split; [tauto|]. split; [by eapply digits_Some|]. by simplify_eq.
  - destruct (digits 0 (String c rest)) as [m|] eqn:Hd; [|done].
    simpl in Hs. case_decide as Hrange; [|done].
    apply digits_Some in Hd. apply Forall_cons in Hd as [Hc Hrest].
    split; [tauto|]. split; [done|].
    by simplify_eq.
Qed.

Lemma Atoi_None (s : string) :
  s = ""
  ∨ (∃ c, c ∈ bytes s ∧ digit c = None ∧ c ≠ "-"%char ∧ c ≠ "+"%char) →
  Atoi s = None.
Proof.
  intros Hbad. destruct (Atoi s) as [n|] eqn:Hs; [|done]. exfalso.
  apply Atoi_Some in Hs as (c & rest & -> & Hc & Hrest & _).
  destruct Hbad as [?|(b & Hb & Hnone & Hminus & Hplus)]; [done|].
  unfold bytes in Hb. simpl in Hb. apply elem_of_cons in Hb as [->|Hb].
  - destruct Hc as [?|[?|[? ?]]]; congruence.
  - rewrite Forall_forall in Hrest. destruct (Hrest b Hb). congruence.
Qed.

Lemma append_nil_l (s : string) : "" +:+ s = s.
Proof. reflexivity. Qed.

Lemma append_cons (c : Ascii.ascii) (s t : string) :
  String c s +:+ t = String c (s +:+ t).
Proof. reflexivity. Qed.

Lemma bytes_app (s1 s2 : string) : bytes (s1 +:+ s2) = bytes s1 ++ bytes s2.
Proof. induction s1 as [|c s1 IH]; simpl; [done|]. by rewrite <- IH. Qed.

Lemma bytes_pretty_N_go (P : Ascii.ascii → Prop) (x : N) (s : string) :
  (∀ d, (d < 10)%N → P (pretty_N_char d)) →
  Forall P (bytes s) → Forall P (bytes (pretty_N_go x s)).
Proof.
  intros HP. revert s. induction (N.lt_wf_0 x) as [x _ IH]; intros s Hs.
  destruct (decide (x = 0%N)) as [->|Hx]; [by rewrite pretty_N_go_0|].
  rewrite pretty_N_go_step by lia. apply IH; [apply N.div_lt; lia|].
  simpl. constructor; [|done]. apply HP, N.mod_lt. lia.
Qed.

Lemma pretty_N_char_colon (d : N) : (d < 10)%N → pretty_N_char d ≠ ":"%char.
Proof.
  intros Hd.
  assert (d = 0 ∨ d = 1 ∨ d = 2 ∨ d = 3 ∨ d = 4 ∨ d = 5 ∨ d = 6 ∨ d = 7
          ∨ d = 8 ∨ d = 9)%N as Hcases by lia.
  repeat (destruct Hcases as [->|Hcases]; [done|]). by subst.
Qed.

(** The decimal rendering of an integer has no colon. *)
Lemma pretty_no_colon (n : Z) : Forall (λ c, c ≠ ":"%char) (bytes (pretty n)).
Proof.
  assert (Hpos : ∀ p, Forall (λ c, c ≠ ":"%char) (bytes (pretty_N_go (N.pos p) ""))).
  { intros p. apply bytes_pretty_N_go; [apply pretty_N_char_colon|constructor]. }
  destruct n as [|p|p].
  - by repeat constructor.
  - apply Hpos.
  - change (pretty (Z.neg p)) with ("-" +:+ pretty_N_go (N.pos p) "").
    rewrite bytes_app. apply Forall_app. split; [by repeat constructor|apply Hpos].
Qed.

Lemma append_colon_inj (a b c d : string) :
  Forall (λ x, x ≠ ":"%char) (bytes c) → Forall (λ x, x ≠ ":"%char) (bytes d) →
  a +:+ ":" +:+ c = b +:+ ":" +:+ d → a = b ∧ c = d.
Proof.
  intros Hc Hd. revert b.
  induction a as [|x a IH]; intros [|y b] Heq;
    rewrite ?append_nil_l, ?append_cons, ?append_nil_l in Heq.
  - by injection Heq.
  - injection Heq as <- ->. rewrite bytes_app, Forall_app in Hc.
    destruct Hc as [_ Hc]. simpl in Hc. by apply Forall_cons in Hc as [? _].
  - injection Heq as -> <-. rewrite bytes_app, Forall_app in Hd.
    destruct Hd as [_ Hd]. simpl in Hd. by apply Forall_cons in Hd as [? _].
  - injection Heq as -> Heq. by destruct (IH b Heq) as [-> ->].
Qed.

(** The address of a listener tells its interface address and its port. *)
Lemma tcpAddress_inj_pair (ip1 ip2 : string) (p1 p2 : Z) :
  tcpAddress ip1 p1 = tcpAddress ip2 p2 → ip1 = ip2 ∧ p1 = p2.
Proof.
  unfold tcpAddress. intros Heq. rewrite !append_cons, !append_nil_l in Heq.
  injection Heq as Heq.
  apply append_colon_inj in Heq as [-> Hp]; [|apply pretty_no_colon..].
  split; [done|]. by apply (inj pretty).
Qed.

(** ** Shapes of the listeners and clusters *)

Section GeneratorShapes.
Context `{Helpers}.

Lemma outboundTCPPort_foldl service ports : ∀ acc,
  foldl (outboundTCPPort service) acc ports
  = (acc.1 ++ (outboundTCPPair <$> ((λ p, (service, p)) <$> filter tcpRouted ports)).*1,
     acc.2 ++ (outboundTCPPair <$> ((λ p, (service, p)) <$> filter tcpRouted ports)).*2).
Proof.
  induction ports as [|p ports IH]; intros [ls cs]; simpl.
  - by rewrite !app_nil_r.
  - rewrite IH. destruct (decide (tcpRouted p)) as [Hr|Hr].
    + rewrite filter_cons_True by done. unfold outboundTCPPort.
      destruct Hr as [-> | ->]; simpl; by rewrite <- !app_assoc.
    + rewrite filter_cons_False by done. unfold outboundTCPPort, tcpRouted in *.
      destruct (PortProtocol p); simpl; try done; exfalso; apply Hr; auto.
Qed.

Lemma tcpServicePorts_cons service rest :
  tcpServicePorts (service :: rest)
  = (if External service then []
     else (λ p, (service, p)) <$> filter tcpRouted (Ports service))
    ++ tcpServicePorts rest.
Proof. reflexivity. Qed.

Lemma buildOutboundTCPListeners_foldl mesh services :
  buildOutboundTCPListeners mesh services
  = ((outboundTCPPair <$> tcpServicePorts services).*1,
     (outboundTCPPair <$> tcpServicePorts services).*2).
Proof.
  unfold buildOutboundTCPListeners.
  enough (Hgen : ∀ acc,
    foldl (λ acc service,
             if External service then acc
             else foldl (outboundTCPPort service) acc (Ports service))
          acc services
    = (acc.1 ++ (outboundTCPPair <$> tcpServicePorts services).*1,
       acc.2 ++ (outboundTCPPair <$> tcpServicePorts services).*2))
    by apply (Hgen ([], [])).
  induction services as [|service rest IH]; intros [ls cs].
  - simpl. by rewrite !app_nil_r.
  - cbn [foldl]. rewrite IH, tcpServicePorts_cons.
    destruct (External service); simpl; [done|].
    rewrite outboundTCPPort_foldl. simpl.
    by rewrite !fmap_app, <- !app_assoc.
Qed.

(** X10. The outbound TCP listeners and their clusters go in pairs: there
    is one listener, with the cluster of its only route, for each TCP or
    HTTPS port of each service that is not external, in the order of the
    services and of their ports, and nothing else. External services and
    ports of other protocols get none. *)
Theorem buildOutboundTCPListeners_pairs
    (mesh : ProxyMeshConfig) (services : list Service) :
  let built := buildOutboundTCPListeners mesh services in
  length built.1 = length built.2
  ∧ zip built.1 built.2 = outboundTCPPair <$> tcpServicePorts services
  ∧ (∀ l c,
       (l, c) ∈ zip built.1 built.2
       ↔ ∃ s p, s ∈ services ∧ External s = false ∧ p ∈ Ports s ∧ tcpRouted p
               ∧ (l, c) = outboundTCPPair (s, p)).
Proof.
  intros built. subst built. rewrite buildOutboundTCPListeners_foldl. simpl.
  split; [by rewrite !length_fmap|]. rewrite zip_fst_snd. split; [done|].
  intros l c. rewrite list_elem_of_fmap. split.
  - intros ([s p] & Heq & Hin). exists s, p.
    unfold tcpServicePorts in Hin. apply list_elem_of_bind in Hin as (s' & Hin & Hs').
    destruct (External s') eqn:Hext; [by apply elem_of_nil in Hin|].
    apply list_elem_of_fmap in Hin as (p' & [= -> ->] & Hp').
    apply list_elem_of_filter in Hp' as [Hrouted Hp']. done.
  - intros (s & p & Hs & Hext & Hp & Hrouted & Heq). exists (s, p).
    split; [done|]. unfold tcpServicePorts. apply list_elem_of_bind.
    exists s. split; [|done]. rewrite Hext.
    apply list_elem_of_fmap_2. by apply list_elem_of_filter.
Qed.

(** *** Management and inbound listeners *)

Lemma mgmtPair_plain mesh managementIP p :
  ListenerSSLContext (mgmtPair mesh managementIP p).1 = None
  ∧ ListenerAddress (mgmtPair mesh managementIP p).1
    = tcpAddress managementIP (PortNumber p)
  ∧ ∃ c, NFConfig <$> Filters (mgmtPair mesh managementIP p).1 = [NFTCPProxy c].
Proof. unfold mgmtPair. simpl. repeat split. by eexists. Qed.

(** X19. The management listeners have neither the mixer filter nor an SSL
    context, whatever the mixer address and the authentication policy of the
    mesh: each has the TCP proxy as its only filter, and of the mesh only the
    connection timeout is used. There is one listener, with its cluster, for
    each management port of a supported protocol, in order; the cluster is
    built for the TCP protocol whatever the protocol of the port. *)
Theorem buildMgmtPortListeners_plain
    (mesh : ProxyMeshConfig) (managementPorts : list Port) (managementIP : string) :
  let built := buildMgmtPortListeners mesh managementPorts managementIP in
  let supported := filter mgmtSupported managementPorts in
  ListenerAddress <$> built.1
    = (λ p, tcpAddress managementIP (PortNumber p)) <$> supported
  ∧ built.2
    = (λ p, buildInboundCluster (PortNumber p) ProtocolTCP (ConnectTimeout mesh))
      <$> supported
  ∧ Forall (λ l, ListenerSSLContext l = None
                 ∧ ∃ c, NFConfig <$> Filters l = [NFTCPProxy c]) built.1
  ∧ (∀ mesh',
       ConnectTimeout mesh' = ConnectTimeout mesh →
       buildMgmtPortListeners mesh' managementPorts managementIP = built).
Proof.
  intros built supported. subst built supported.
  rewrite buildMgmtPortListeners_pairs. simpl. repeat split.
  - rewrite <- !list_fmap_compose. by apply list_fmap_ext.
  - rewrite <- !list_fmap_compose. by apply list_fmap_ext.
  - rewrite Forall_fmap, Forall_fmap. apply Forall_true. intros p. simpl.
    split; [done|]. by eexists.
  - intros mesh' Htimeout. rewrite buildMgmtPortListeners_pairs.
    unfold mgmtPair. by rewrite Htimeout.
Qed.

Lemma inboundInstance_shape o mesh sidecar all config acc instance :
  (inboundInstance o mesh sidecar all config acc instance).2
  = acc.2 ++ [inboundCluster mesh instance]
  ∧ ListenerAddress <$> (inboundInstance o mesh sidecar all config acc instance).1
    = (ListenerAddress <$> acc.1)
      ++ (if decide (inboundSupported instance)
          then [tcpAddress (endpointOf instance).1 (endpointOf instance).2]
          else []).
Proof.
  unfold inboundCluster, endpointOf.
  destruct (decide (inboundSupported instance)) as [Hs|Hs];
    unfold inboundSupported in Hs; unfold inboundInstance;
    destruct (PortProtocol (ServicePort (Endpoint instance))) eqn:Hp; simpl;
    (split; [done|]); rewrite ?fmap_app, ?app_nil_r; simpl;
    try done; try (by case_decide); exfalso; by apply Hs.
Qed.

Lemma inboundInstance_foldl o mesh sidecar all config instances : ∀ acc,
  (foldl (inboundInstance o mesh sidecar all config) acc instances).2
  = acc.2 ++ (inboundCluster mesh <$> instances)
  ∧ ListenerAddress
    <$> (foldl (inboundInstance o mesh sidecar all config) acc instances).1
    = (ListenerAddress <$> acc.1)
      ++ ((λ i, tcpAddress (endpointOf i).1 (endpointOf i).2)
          <$> filter inboundSupported instances).
Proof.
  induction instances as [|instance rest IH]; intros acc.
  - simpl. by rewrite !app_nil_r.
  - cbn [foldl]. destruct (IH (inboundInstance o mesh sidecar all config acc instance))
      as [Hc Hl].
    destruct (inboundInstance_shape o mesh sidecar all config acc instance)
      as [Hc1 Hl1].
    rewrite Hc, Hl, Hc1, Hl1, <- !app_assoc. split; [done|].
    destruct (decide (inboundSupported instance));
      [rewrite filter_cons_True by done|rewrite filter_cons_False by done];
      by rewrite ?fmap_cons.
Qed.

Lemma inboundBeforeAuth_shape o mesh sidecar instances config :
  (inboundBeforeAuth o mesh sidecar instances config).2
  = inboundCluster mesh <$> instances
  ∧ ListenerAddress <$> (inboundBeforeAuth o mesh sidecar instances config).1
    = (λ i, tcpAddress (endpointOf i).1 (endpointOf i).2)
      <$> filter inboundSupported instances.
Proof.
  apply (inboundInstance_foldl o mesh sidecar instances config instances ([], [])).
Qed.

Lemma applyInboundAuth_address l mesh :
  ListenerAddress (applyInboundAuth l mesh) = ListenerAddress l.
Proof. unfold applyInboundAuth. by destruct (AuthPolicy mesh). Qed.

Lemma buildInboundListeners_shape o mesh sidecar instances config :
  (buildInboundListeners o mesh sidecar instances config).2
  = inboundCluster mesh <$> instances
  ∧ ListenerAddress <$> (buildInboundListeners o mesh sidecar instances config).1
    = (λ i, tcpAddress (endpointOf i).1 (endpointOf i).2)
      <$> filter inboundSupported instances.
Proof.
  destruct (inboundBeforeAuth_shape o mesh sidecar instances config) as [Hc Hl].
  unfold buildInboundListeners.
  destruct (inboundBeforeAuth o mesh sidecar instances config) as [ls cs].
  simpl in *. split; [done|]. rewrite <- Hl, <- list_fmap_compose.
  apply list_fmap_ext. intros i l _. apply applyInboundAuth_address.
Qed.

(** X16. [buildInboundListeners] returns one cluster for each instance, in
    order, also for an instance of a protocol it does not support, which gets
    no listener; and one listener for each instance of a supported protocol,
    in order, at the address and port of the instance's endpoint. *)
Theorem buildInboundListeners_one_per_instance
    (o : RangeOrder) (mesh : ProxyMeshConfig) (sidecar : Node)
    (instances : list ServiceInstance) (config : IstioConfigStore) :
  let built := buildInboundListeners o mesh sidecar instances config in
  built.2 = inboundCluster mesh <$> instances
  ∧ ListenerAddress <$> built.1
    = (λ i, tcpAddress (endpointOf i).1 (endpointOf i).2)
      <$> filter inboundSupported instances
  ∧ length built.2 = length instances
  ∧ (length built.1 ≤ length instances)%nat.
Proof.
  intros built. subst built.
  destruct (buildInboundListeners_shape o mesh sidecar instances config) as [Hc Hl].
  split; [done|]. split; [done|]. split.
  - by rewrite Hc, length_fmap.
  - rewrite <- (length_fmap ListenerAddress), Hl, length_fmap.
    apply length_filter.
Qed.

(** X17. The comment of [buildInboundListeners] assumes that the endpoints
    of the instances are unique. When the instances of supported protocols
    have pairwise distinct endpoints (address and port), the inbound
    listeners have pairwise distinct addresses, and conversely. *)
Theorem buildInboundListeners_distinct
    (o : RangeOrder) (mesh : ProxyMeshConfig) (sidecar : Node)
    (instances : list ServiceInstance) (config : IstioConfigStore) :
  NoDup (ListenerAddress <$> (buildInboundListeners o mesh sidecar instances config).1)
  ↔ NoDup (endpointOf <$> filter inboundSupported instances).
Proof.
  destruct (buildInboundListeners_shape o mesh sidecar instances config) as [_ ->].
  replace ((λ i, tcpAddress (endpointOf i).1 (endpointOf i).2)
           <$> filter inboundSupported instances)
    with ((λ e : string * Z, tcpAddress e.1 e.2)
            <$> (endpointOf <$> filter inboundSupported instances))
    by (by rewrite <- list_fmap_compose).
  apply NoDup_fmap. intros [a1 p1] [a2 p2] Heq. simpl in Heq.
  by apply tcpAddress_inj_pair in Heq as [-> ->].
Qed.

End GeneratorShapes.

(** ** Outbound HTTP routes *)

Section OutboundRoutes.
Context `{Helpers}.

Lemma buildOutboundHTTPRoutes_table mesh sidecar instances services config :
  buildOutboundHTTPRoutes mesh sidecar instances services config
  = normalizeRouteConfigs (outboundRouteTable mesh sidecar instances services config).
Proof. reflexivity. Qed.

Lemma hostsAt_appendVirtualHost port host m p :
  hostsAt (appendVirtualHost port host m) p
  = hostsAt m p ++ (if decide (p = port) then [host] else []).
Proof.
  unfold hostsAt, appendVirtualHost. case_decide as Hp.
  - subst p. rewrite lookup_insert_eq. simpl. by destruct (m !! port).
  - rewrite lookup_insert_ne by done. by rewrite app_nil_r.
Qed.

Lemma outboundServicePort_hosts mesh suffix rules service m servicePort p :
  hostsAt (outboundServicePort mesh suffix rules service m servicePort) p
  = hostsAt m p
    ++ (if decide (p = PortNumber servicePort)
        then outboundHosts mesh suffix rules service servicePort else []).
Proof.
  unfold outboundHosts, outboundServicePort.
  destruct (External service && bool_decide (EgressProxyAddress mesh = "")).
  { unfold hostsAt at 3. rewrite lookup_empty. simpl.
    case_decide; by rewrite app_nil_r. }
  case_decide.
  - rewrite !hostsAt_appendVirtualHost. unfold hostsAt at 3.
    rewrite lookup_empty. simpl.
    by rewrite (decide_True (P:=PortNumber servicePort = PortNumber servicePort)).
  - unfold hostsAt at 3. rewrite lookup_empty. simpl.
    case_decide; by rewrite app_nil_r.
Qed.

Lemma outboundServicePort_nonempty mesh suffix rules service m servicePort :
  map_Forall (λ _ rc, VirtualHosts rc ≠ []) m →
  map_Forall (λ _ rc, VirtualHosts rc ≠ [])
    (outboundServicePort mesh suffix rules service m servicePort).
Proof.
  intros Hm. unfold outboundServicePort.
  destruct (External service && bool_decide (EgressProxyAddress mesh = ""));
    [done|].
  case_decide; [|done]. unfold appendVirtualHost.
  apply map_Forall_insert_2; [|done]. simpl. by intros ?%app_eq_nil%proj2.
Qed.

Lemma outboundRouteTable_hosts mesh sidecar instances services config p :
  hostsAt (outboundRouteTable mesh sidecar instances services config) p
  = service ← services;
    servicePort ← Ports service;
    if decide (p = PortNumber servicePort)
    then outboundHosts mesh (Split (Domain sidecar) "."%char)
           (RouteRulesBySource config instances) service servicePort
    else [].
Proof.
  unfold outboundRouteTable.
  set (suffix := Split (Domain sidecar) "."%char).
  set (rules := RouteRulesBySource config instances).
  set (body := λ service servicePort,
         if decide (p = PortNumber servicePort)
         then outboundHosts mesh suffix rules service servicePort else []).
  assert (Hinner : ∀ service ports m,
    hostsAt (foldl (outboundServicePort mesh suffix rules service) m ports) p
    = hostsAt m p ++ (ports ≫= body service)).
  { intros service ports. induction ports as [|sp ports IH]; intros m.
    - simpl. by rewrite app_nil_r.
    - cbn [foldl]. rewrite IH, outboundServicePort_hosts, <- app_assoc. done. }
  enough (Hgen : ∀ m,
    hostsAt (foldl (λ httpConfigs service,
                      foldl (outboundServicePort mesh suffix rules service)
                            httpConfigs (Ports service)) m services) p
    = hostsAt m p ++ (services ≫= λ service, Ports service ≫= body service)).
  { rewrite Hgen. unfold hostsAt at 1. by rewrite lookup_empty. }
  induction services as [|service rest IH]; intros m.
  - simpl. by rewrite app_nil_r.
  - cbn [foldl]. rewrite IH, Hinner, <- app_assoc. done.
Qed.

Lemma outboundRouteTable_nonempty mesh sidecar instances services config :
  map_Forall (λ _ rc, VirtualHosts rc ≠ [])
    (outboundRouteTable mesh sidecar instances services config).
Proof.
  unfold outboundRouteTable.
  set (suffix := Split (Domain sidecar) "."%char).
  set (rules := RouteRulesBySource config instances).
  assert (Hinner : ∀ service ports m,
    map_Forall (λ _ rc, VirtualHosts rc ≠ []) m →
    map_Forall (λ _ rc, VirtualHosts rc ≠ [])
      (foldl (outboundServicePort mesh suffix rules service) m ports)).
  { intros service ports. induction ports as [|sp ports IH]; intros m Hm; [done|].
    cbn [foldl]. by apply IH, outboundServicePort_nonempty. }
  enough (Hgen : ∀ m,
    map_Forall (λ _ rc, VirtualHosts rc ≠ []) m →
    map_Forall (λ _ rc, VirtualHosts rc ≠ [])
      (foldl (λ httpConfigs service,
                foldl (outboundServicePort mesh suffix rules service)
                      httpConfigs (Ports service)) m services))
    by apply Hgen, map_Forall_empty.
  induction services as [|service rest IH]; intros m Hm; [done|].
  cbn [foldl]. by apply IH, Hinner.
Qed.

Lemma collectRouteRules_stopped service servicePort rules : ∀ acc routes,
  collectRouteRules service servicePort rules acc = (routes, false) → routes ≠ [].
Proof.
  induction rules as [|rule rules IH]; intros acc routes; simpl; [done|].
  case_decide; [|by apply IH].
  destruct (CatchAll (buildHTTPRoute rule servicePort)); [|by apply IH].
  intros [= <-]. by intros ?%app_eq_nil%proj2.
Qed.

Lemma buildDestinationHTTPRoutes_nonempty service servicePort rules :
  httpRouted servicePort →
  buildDestinationHTTPRoutes service servicePort rules ≠ [].
Proof.
  unfold httpRouted, buildDestinationHTTPRoutes.
  intros [-> | [-> | ->]];
    destruct (collectRouteRules service servicePort rules []) as [routes []] eqn:Hc;
    try (by intros ?%app_eq_nil%proj2); by eapply collectRouteRules_stopped.
Qed.

Lemma buildDestinationHTTPRoutes_routed service servicePort rules :
  buildDestinationHTTPRoutes service servicePort rules ≠ [] →
  httpRouted servicePort
  ∨ (PortProtocol servicePort = ProtocolHTTPS ∧ External service = true).
Proof.
  unfold httpRouted, buildDestinationHTTPRoutes.
  destruct (PortProtocol servicePort); try done; auto.
  destruct (External service); [auto|done].
Qed.

Lemma outboundHosts_unfold mesh suffix rules service servicePort :
  outboundHosts mesh suffix rules service servicePort
  = if External service && bool_decide (EgressProxyAddress mesh = "") then []
    else
      let routes := buildDestinationHTTPRoutes service servicePort rules in
      if decide (routes = []) then []
      else [buildVirtualHost service servicePort suffix
              (if External service then viaEgressProxy mesh service <$> routes
               else routes)].
Proof.
  unfold outboundHosts, outboundServicePort.
  destruct (External service && bool_decide (EgressProxyAddress mesh = ""));
    [done|].
  cbv zeta.
  destruct (buildDestinationHTTPRoutes service servicePort rules) as [|r routes].
  - rewrite decide_False by (simpl; lia). by rewrite decide_True.
  - rewrite decide_True by (simpl; lia). rewrite hostsAt_appendVirtualHost.
    rewrite (decide_True (P:=PortNumber servicePort = PortNumber servicePort))
      by done.
    by rewrite decide_False.
Qed.

Lemma hostsAt_lookup m p host :
  host ∈ hostsAt m p → ∃ rc, m !! p = Some rc ∧ host ∈ VirtualHosts rc.
Proof.
  unfold hostsAt. destruct (m !! p) as [rc|]; simpl; [by exists rc|].
  by intros ?%elem_of_nil.
Qed.

(** X11. Every HTTP, HTTP2 or GRPC port of every service that is not
    external is routed: before [normalize()], the route configuration of its
    port number is there and holds the virtual host built for the service and
    the port from the routes of [buildDestinationHTTPRoutes]. *)
Theorem buildOutboundHTTPRoutes_serves
    (mesh : ProxyMeshConfig) (sidecar : Node) (instances : list ServiceInstance)
    (services : list Service) (config : IstioConfigStore)
    (service : Service) (servicePort : Port) :
  service ∈ services →
  External service = false →
  servicePort ∈ Ports service →
  httpRouted servicePort →
  ∃ routeConfig,
    outboundRouteTable mesh sidecar instances services config
      !! PortNumber servicePort = Some routeConfig
    ∧ buildVirtualHost service servicePort (Split (Domain sidecar) "."%char)
        (buildDestinationHTTPRoutes service servicePort
           (RouteRulesBySource config instances))
      ∈ VirtualHosts routeConfig.
Proof.
  intros Hs Hext Hp Hrouted. apply hostsAt_lookup.
  rewrite outboundRouteTable_hosts. apply list_elem_of_bind.
  exists service. split; [|done]. apply list_elem_of_bind.
  exists servicePort. split; [|done]. rewrite decide_True by done.
  rewrite outboundHosts_unfold, Hext. simpl.
  rewrite decide_False by (by apply buildDestinationHTTPRoutes_nonempty).
  by apply list_elem_of_singleton.
Qed.

(** X12. When the mesh has no egress proxy, the external services are
    skipped: the outbound routes are those of the services that are not
    external. *)
Theorem buildOutboundHTTPRoutes_no_egress
    (mesh : ProxyMeshConfig) (sidecar : Node) (instances : list ServiceInstance)
    (services : list Service) (config : IstioConfigStore) :
  EgressProxyAddress mesh = "" →
  buildOutboundHTTPRoutes mesh sidecar instances services config
  = buildOutboundHTTPRoutes mesh sidecar instances
      (filter (λ s, External s = false) services) config.
Proof.
  intros Hegress. rewrite !buildOutboundHTTPRoutes_table. f_equal.
  apply map_eq. intros p.
  assert (Hhosts :
    hostsAt (outboundRouteTable mesh sidecar instances services config) p
    = hostsAt (outboundRouteTable mesh sidecar instances
                 (filter (λ s, External s = false) services) config) p).
  { rewrite !outboundRouteTable_hosts.
    induction services as [|s rest IH]; [done|].
    destruct (External s) eqn:Hext.
    - rewrite filter_cons_False by (by rewrite Hext).
      rewrite bind_cons, <- IH.
      replace (Ports s ≫= _) with (@nil VirtualHost); [done|].
      symmetry. induction (Ports s) as [|sp ports IHp]; [done|].
      rewrite bind_cons, IHp, app_nil_r. case_decide; [|done].
      rewrite outboundHosts_unfold, Hext, Hegress. done.
    - rewrite filter_cons_True by done. by rewrite !bind_cons, IH. }
  pose proof (outboundRouteTable_nonempty mesh sidecar instances services config)
    as Hne1.
  pose proof (outboundRouteTable_nonempty mesh sidecar instances
                (filter (λ s, External s = false) services) config) as Hne2.
  unfold hostsAt in Hhosts.
  destruct (outboundRouteTable mesh sidecar instances services config !! p)
    as [[hosts1]|] eqn:H1,
    (outboundRouteTable mesh sidecar instances
       (filter (λ s, External s = false) services) config !! p)
    as [[hosts2]|] eqn:H2; simpl in Hhosts.
  - by rewrite Hhosts.
  - by apply Hne1 in H1.
  - by apply Hne2 in H2.
  - done.
Qed.

(** X13. Before [normalize()], no route configuration is empty, and the port
    of each is the number of a port of a service that is routed as HTTP: an
    HTTP, HTTP2 or GRPC port, or the HTTPS port of an external service; and
    an external service counts only when the mesh has an egress proxy. A port
    number that only TCP ports or ports of unsupported protocols have gets no
    route configuration. *)
Theorem buildOutboundHTTPRoutes_ports
    (mesh : ProxyMeshConfig) (sidecar : Node) (instances : list ServiceInstance)
    (services : list Service) (config : IstioConfigStore) :
  map_Forall
    (λ port routeConfig,
       VirtualHosts routeConfig ≠ []
       ∧ ∃ service servicePort,
           service ∈ services ∧ servicePort ∈ Ports service
           ∧ PortNumber servicePort = port
           ∧ (External service = true → EgressProxyAddress mesh ≠ "")
           ∧ (httpRouted servicePort
              ∨ (PortProtocol servicePort = ProtocolHTTPS
                 ∧ External service = true)))
    (outboundRouteTable mesh sidecar instances services config).
Proof.
  intros port [hosts] Hlookup.
  pose proof (outboundRouteTable_nonempty mesh sidecar instances services config
                port _ Hlookup) as Hne.
  split; [done|]. simpl in Hne.
  pose proof (outboundRouteTable_hosts mesh sidecar instances services config port)
    as Hhosts.
  unfold hostsAt in Hhosts at 1. rewrite Hlookup in Hhosts. simpl in Hhosts.
  destruct hosts as [|host hosts]; [done|].
  assert (Hin : host ∈ host :: hosts) by left.
  rewrite Hhosts in Hin.
  apply list_elem_of_bind in Hin as (service & Hin & Hs).
  apply list_elem_of_bind in Hin as (servicePort & Hin & Hp).
  case_decide as Hport; [|by apply elem_of_nil in Hin].
  exists service, servicePort. split; [done|]. split; [done|]. split; [done|].
  rewrite outboundHosts_unfold in Hin.
  destruct (External service) eqn:Hext; simpl in Hin.
  - case_bool_decide as Hegress; [by apply elem_of_nil in Hin|].
    split; [done|]. case_decide as Hroutes; [by apply elem_of_nil in Hin|].
    apply buildDestinationHTTPRoutes_routed in Hroutes as [?|[? ?]];
      [by left|(by right) || congruence].
  - split; [done|]. case_decide as Hroutes; [by apply elem_of_nil in Hin|].
    apply buildDestinationHTTPRoutes_routed in Hroutes as [?|[? ?]];
      [by left|(by right) || congruence].
Qed.

Lemma viaEgressProxy_viaEgress mesh service route :
  viaEgress mesh service (viaEgressProxy mesh service route).
Proof.
  split; [done|]. simpl. apply Forall_fmap, Forall_true. by intros c.
Qed.

(** X14. When the mesh has an egress proxy, an external service is routed
    through it: for each of its HTTP, HTTP2, GRPC or HTTPS ports the virtual
    host is built from routes that rewrite the host to the name of the
    service and whose clusters all are strict DNS clusters with the egress
    proxy as their only host and no service name. *)
Theorem buildOutboundHTTPRoutes_egress
    (mesh : ProxyMeshConfig) (sidecar : Node) (instances : list ServiceInstance)
    (services : list Service) (config : IstioConfigStore)
    (service : Service) (servicePort : Port) :
  EgressProxyAddress mesh ≠ "" →
  service ∈ services →
  External service = true →
  servicePort ∈ Ports service →
  httpRouted servicePort ∨ PortProtocol servicePort = ProtocolHTTPS →
  ∃ routeConfig routes,
    outboundRouteTable mesh sidecar instances services config
      !! PortNumber servicePort = Some routeConfig
    ∧ buildVirtualHost service servicePort (Split (Domain sidecar) "."%char) routes
      ∈ VirtualHosts routeConfig
    ∧ length routes
      = length (buildDestinationHTTPRoutes service servicePort
                  (RouteRulesBySource config instances))
    ∧ routes ≠ []
    ∧ Forall (viaEgress mesh service) routes.
Proof.
  intros Hegress Hs Hext Hp Hrouted.
  set (rules := RouteRulesBySource config instances).
  assert (Hne : buildDestinationHTTPRoutes service servicePort rules ≠ []).
  { destruct Hrouted as [Hhttp|Hhttps];
      [by apply buildDestinationHTTPRoutes_nonempty|].
    unfold buildDestinationHTTPRoutes. by rewrite Hhttps, Hext. }
  enough (Hin :
    buildVirtualHost service servicePort (Split (Domain sidecar) "."%char)
      (viaEgressProxy mesh service
       <$> buildDestinationHTTPRoutes service servicePort rules)
    ∈ hostsAt (outboundRouteTable mesh sidecar instances services config)
        (PortNumber servicePort)).
  { apply hostsAt_lookup in Hin as (rc & Hrc & Hin).
    exists rc, (viaEgressProxy mesh service
                <$> buildDestinationHTTPRoutes service servicePort rules).
    split; [done|]. split; [done|]. split; [by rewrite length_fmap|].
    split; [by intros ?%fmap_nil_inv|].
    apply Forall_fmap, Forall_true. intros r. apply viaEgressProxy_viaEgress. }
  rewrite outboundRouteTable_hosts. apply list_elem_of_bind.
  exists service. split; [|done]. apply list_elem_of_bind.
  exists servicePort. split; [|done]. rewrite decide_True by done.
  rewrite outboundHosts_unfold, Hext. simpl.
  rewrite bool_decide_eq_false_2 by done. fold rules.
  rewrite decide_False by done. by apply list_elem_of_singleton.
Qed.

End OutboundRoutes.

(** ** Outbound listeners and route discovery *)

Section OutboundListeners.
Context `{Helpers}.

Lemma pretty_nonempty (n : Z) : pretty n ≠ "".
Proof.
  destruct n as [|p|p]; [done| |done].
  change (pretty (Z.pos p)) with (pretty_N_go (N.pos p) "").
  destruct (pretty_N_go_head (N.pos p) "" ltac:(lia)) as (d & rest & _ & ->).
  done.
Qed.

Lemma outboundHTTPListener_routes o mesh sidecar instances entry :
  routeNames (outboundHTTPListener o mesh sidecar instances entry)
  = [pretty entry.1]
  ∧ Forall (λ c, HRouteConfig c = None)
      (httpConfigs (outboundHTTPListener o mesh sidecar instances entry))
  ∧ ListenerAddress (outboundHTTPListener o mesh sidecar instances entry)
    = tcpAddress WildcardAddress entry.1.
Proof.
  unfold outboundHTTPListener, routeNames, httpConfigs, buildHTTPListener. simpl.
  destruct (decide (pretty entry.1 ≠ "")) as [_|Hn];
    [|by destruct Hn; apply pretty_nonempty].
  simpl. split; [done|]. split; [|done]. by repeat constructor.
Qed.

(** X15. The outbound listeners are the outbound TCP listeners followed by
    one HTTP listener for each port of the outbound routes. The HTTP
    listeners are on the wildcard address at pairwise distinct ports; each
    takes its routes from the discovery service under the decimal number of
    its port as route name, and carries no route configuration of its own. *)
Theorem buildOutboundListeners_http
    (o : RangeOrder) (mesh : ProxyMeshConfig) (sidecar : Node)
    (instances : list ServiceInstance) (services : list Service)
    (config : IstioConfigStore) :
  let httpOutbound :=
    buildOutboundHTTPRoutes mesh sidecar instances services config in
  let built := buildOutboundListeners o mesh sidecar instances services config in
  ∃ http : Listeners,
    built.1 = (buildOutboundTCPListeners mesh services).1 ++ http
    ∧ ListenerAddress <$> http
      ≡ₚ tcpAddress WildcardAddress <$> (map_to_list httpOutbound).*1
    ∧ NoDup (ListenerAddress <$> http)
    ∧ Forall (λ l, ∃ port,
                is_Some (httpOutbound !! port)
                ∧ ListenerAddress l = tcpAddress WildcardAddress port
                ∧ routeNames l = [pretty port]
                ∧ Forall (λ c, HRouteConfig c = None) (httpConfigs l)) http.
Proof.
  intros httpOutbound built. subst built.
  rewrite buildOutboundListeners_shape. simpl. fold httpOutbound.
  exists (outboundHTTPListener o mesh sidecar instances <$> rangePorts o httpOutbound).
  assert (Haddr :
    ListenerAddress
    <$> (outboundHTTPListener o mesh sidecar instances <$> rangePorts o httpOutbound)
    = tcpAddress WildcardAddress <$> (rangePorts o httpOutbound).*1).
  { rewrite <- !list_fmap_compose. by apply list_fmap_ext. }
  split; [done|]. split; [|split].
  - by rewrite Haddr, rangePorts_perm.
  - rewrite Haddr. apply NoDup_fmap_2.
    + intros p q. apply tcpAddress_inj.
    + rewrite rangePorts_perm. apply NoDup_fst_map_to_list.
  - apply Forall_fmap, Forall_forall. intros [port routeConfig] Hin.
    assert (Hlookup : httpOutbound !! port = Some routeConfig).
    { apply elem_of_map_to_list. by rewrite <- rangePorts_perm. }
    destruct (outboundHTTPListener_routes o mesh sidecar instances (port, routeConfig))
      as (Hnames & Hinline & Ha).
    exists port. simpl. by rewrite Hlookup.
Qed.

End OutboundListeners.

Section RouteDiscoveryProperties.
Context `{Helpers}.
Variable combine : gmap Z HTTPRouteConfig → option HTTPRouteConfig.

(** X6. The route name that an outbound HTTP listener of a sidecar hands to
    the discovery service is the decimal number of its port, and
    [buildRDSRoute] answers it with the route configuration the listener was
    built for, unless the name is the one that stands for all routes. *)
Theorem buildRDSRoute_outbound_listener
    (o : RangeOrder) (mesh : ProxyMeshConfig) (role : Node)
    (discovery : ServiceDiscovery) (config : IstioConfigStore)
    (port : Z) (routeConfig : HTTPRouteConfig) :
  let instances := HostInstances discovery {[IPAddress role]} in
  let services := Services discovery in
  let listener :=
    buildHTTPListener o mesh role instances (Some routeConfig) WildcardAddress
      port (pretty port) false in
  Type_ role = Sidecar →
  buildOutboundHTTPRoutes mesh role instances services config !! port
    = Some routeConfig →
  - 2 ^ 63 ≤ port < 2 ^ 63 →
  pretty port ≠ RDSAll →
  listener ∈ (buildOutboundListeners o mesh role instances services config).1
  ∧ routeNames listener = [pretty port]
  ∧ buildRDSRoute combine mesh role (pretty port) discovery config
    = Some routeConfig.
Proof.
  intros instances services listener Hrole Hlookup Hrange Hall.
  split; [|split].
  - rewrite buildOutboundListeners_shape. simpl. apply elem_of_app. right.
    apply (list_elem_of_fmap_2 (outboundHTTPListener o mesh role instances)
             _ (port, routeConfig)).
    rewrite rangePorts_perm. by apply elem_of_map_to_list.
  - apply (outboundHTTPListener_routes o mesh role instances (port, routeConfig)).
  - unfold buildRDSRoute. rewrite Hrole. rewrite decide_False by done.
    by rewrite Atoi_pretty.
Qed.

(** X7. [buildRDSRoute] returns [nil] for a node of a type it does not
    know, whatever the route name. For the other nodes it returns [nil] for
    a route name that is neither the name of all routes nor a decimal
    number: the empty name, and every name with a byte that is not a digit
    or a sign. *)
Theorem buildRDSRoute_nil
    (mesh : ProxyMeshConfig) (role : Node) (routeName : string)
    (discovery : ServiceDiscovery) (config : IstioConfigStore) :
  (∃ t, Type_ role = NodeTypeOther t)
  ∨ (routeName ≠ RDSAll
     ∧ (routeName = ""
        ∨ ∃ c, c ∈ bytes routeName ∧ digit c = None
               ∧ c ≠ "-"%char ∧ c ≠ "+"%char)) →
  buildRDSRoute combine mesh role routeName discovery config = None.
Proof.
  unfold buildRDSRoute. intros [[t ->]|[Hall Hbad]]; [done|].
  destruct (Type_ role); try done;
    rewrite decide_False by done; by rewrite Atoi_None.
Qed.

End RouteDiscoveryProperties.

(** ** Listeners *)

Section ListenerProperties.
Context `{Helpers}.

Lemma StronglySorted_strict {A} (R : relation A) `{!AntiSymm (=) R} (l : list A) :
  StronglySorted R l → NoDup l → StronglySorted (strict R) l.
Proof.
  induction 1 as [|x l Hl IH Hx]; intros Hnd; [constructor|].
  apply NoDup_cons in Hnd as [Hnotin Hnd]. constructor; [by apply IH|].
  rewrite Forall_forall in Hx |- *. intros y Hy. split; [by apply Hx|].
  intros Hyx. apply Hnotin. by rewrite (anti_symm R x y (Hx y Hy) Hyx).
Qed.

Lemma serviceNames_cons o instance rest :
  serviceNames o (instance :: rest)
  = Join (sortStrings (rangeKeys o (list_to_set (hostnames (instance :: rest))))) ",".
Proof. reflexivity. Qed.

(** X8. The service attribute that [buildHTTPListener] hands to the mixer
    filter is made of the host names of the services of the instances, each
    once, in strictly ascending order, joined with commas. It depends on the
    set of these host names only: neither on the order of the instances, nor
    on how often a service occurs among them, nor on the order in which the
    map is visited. *)
Theorem serviceNames_canonical
    (o : RangeOrder) (instances : list ServiceInstance) :
  ∃ names,
    serviceNames o instances = Join names ","
    ∧ StronglySorted (strict String.le) names
    ∧ (∀ h, h ∈ names ↔ h ∈ hostnames instances)
    ∧ (∀ o' instances',
         (∀ h, h ∈ hostnames instances' ↔ h ∈ hostnames instances) →
         serviceNames o' instances' = serviceNames o instances).
Proof.
  destruct instances as [|instance rest].
  { exists []. split; [done|]. split; [constructor|]. split; [done|].
    intros o' [|i' rest'] Hsame; [done|].
    exfalso. eapply not_elem_of_nil. apply Hsame. by left. }
  set (instances := instance :: rest).
  set (names := sortStrings (rangeKeys o (list_to_set (hostnames instances)))).
  assert (Hin : ∀ h, h ∈ names ↔ h ∈ hostnames instances).
  { intros h. unfold names, sortStrings.
    rewrite merge_sort_Permutation, rangeKeys_perm, elem_of_elements.
    apply elem_of_list_to_set. }
  exists names. split; [done|]. split; [|split; [done|]].
  - apply StronglySorted_strict; [apply _| |].
    + apply StronglySorted_merge_sort; apply _.
    + unfold names, sortStrings.
      rewrite merge_sort_Permutation, rangeKeys_perm. apply NoDup_elements.
  - intros o' [|i' rest'] Hsame.
    { exfalso. eapply not_elem_of_nil. apply Hsame. by left. }
    unfold instances at 1. rewrite !serviceNames_cons. fold instances. f_equal.
    apply sortStrings_Permutation. rewrite !rangeKeys_perm.
    assert (Hset : list_to_set (hostnames (i' :: rest'))
                   =@{gset string} list_to_set (hostnames instances)).
    { apply set_eq. intros h. rewrite !elem_of_list_to_set. apply Hsame. }
    by rewrite Hset.
Qed.

(** X9. The address of a listener tells the interface address and the port
    it was built for, whichever of the two builders made it: an HTTP listener
    and a TCP listener have the same address exactly when they are on the
    same interface address and port, which their names, that always differ,
    do not tell. *)
Theorem listener_address_identifies
    (o : RangeOrder) (mesh : ProxyMeshConfig) (role : Node)
    (instances : list ServiceInstance) (routeConfig : option HTTPRouteConfig)
    (rds : string) (useRemoteAddress : bool) (tcpConfig tcpConfig' : TCPRouteConfig)
    (ip1 ip2 ip3 : string) (port1 port2 port3 : Z) :
  let http :=
    buildHTTPListener o mesh role instances routeConfig ip1 port1 rds
      useRemoteAddress in
  let tcp := buildTCPListener tcpConfig ip2 port2 in
  let tcp' := buildTCPListener tcpConfig' ip3 port3 in
  (ListenerAddress http = ListenerAddress tcp ↔ ip1 = ip2 ∧ port1 = port2)
  ∧ (ListenerAddress tcp' = ListenerAddress tcp ↔ ip3 = ip2 ∧ port3 = port2)
  ∧ Name http ≠ Name tcp.
Proof.
  simpl. split; [|split; [|done]].
  - split; [apply tcpAddress_inj_pair|]. by intros [-> ->].
  - split; [apply tcpAddress_inj_pair|]. by intros [-> ->].
Qed.

End ListenerProperties.

(** ** The sidecar *)

Section SidecarProperties.
Context `{Helpers}.

Lemma setBindToPort_ssl l b :
  ListenerSSLContext (setBindToPort l b) = ListenerSSLContext l.
Proof. done. Qed.

Lemma buildOutboundListeners_no_ssl o mesh sidecar instances services config :
  Forall (λ l, ListenerSSLContext l = None)
    (buildOutboundListeners o mesh sidecar instances services config).1.
Proof.
  rewrite buildOutboundListeners_shape. simpl.
  rewrite buildOutboundTCPListeners_foldl. simpl.
  apply Forall_app. split.
  - rewrite Forall_fmap, Forall_fmap. apply Forall_true. by intros [s p].
  - apply Forall_fmap, Forall_true. by intros [p rc].
Qed.

Lemma sidecarServices_fst o env sidecar :
  (sidecarServices o env sidecar).1
  = (buildInboundListeners o (Mesh env) sidecar
       (HostInstances (EnvServiceDiscovery env) {[IPAddress sidecar]})
       (EnvIstioConfigStore env)).1
    ++ (buildOutboundListeners o (Mesh env) sidecar
          (HostInstances (EnvServiceDiscovery env) {[IPAddress sidecar]})
          (Services (EnvServiceDiscovery env)) (EnvIstioConfigStore env)).1.
Proof.
  unfold sidecarServices.
  destruct (buildInboundListeners _ _ _ _ _), (buildOutboundListeners _ _ _ _ _ _).
  done.
Qed.

Lemma addMgmtListener_ports mesh ip ports : ∀ L C, ∃ keptPorts,
  keptPorts `sublist_of` ports
  ∧ foldl addMgmtListener (L, C) (mgmtPair mesh ip <$> ports)
    = (L ++ (mgmtPair mesh ip <$> keptPorts).*1,
       C ++ (mgmtPair mesh ip <$> keptPorts).*2)
  ∧ NoDup (PortNumber <$> keptPorts)
  ∧ (∀ p, p ∈ keptPorts → tcpAddress ip (PortNumber p) ∉ addresses L)
  ∧ (∀ p, p ∈ ports → tcpAddress ip (PortNumber p) ∉ addresses L →
       PortNumber p ∈ PortNumber <$> keptPorts).
Proof.
  induction ports as [|p ports IH]; intros L C.
  - exists []. simpl. rewrite !app_nil_r. repeat split; try done.
    + constructor.
    + by intros p ?%elem_of_nil.
    + by intros p ?%elem_of_nil.
  - rewrite fmap_cons. cbn [foldl].
    assert (Hstep :
      addMgmtListener (L, C) (mgmtPair mesh ip p)
      = match GetByAddress L (tcpAddress ip (PortNumber p)) with
        | Some _ => (L, C)
        | None => (L ++ [(mgmtPair mesh ip p).1], C ++ [(mgmtPair mesh ip p).2])
        end) by reflexivity.
    rewrite Hstep. clear Hstep.
    destruct (GetByAddress L (tcpAddress ip (PortNumber p))) as [l|] eqn:Hget.
    + destruct (IH L C) as (kept & Hsub & Hrun & Hnd & Hkept & Hall).
      exists kept. repeat split; try done.
      * by apply sublist_cons_r; left.
      * intros q [->|Hq]%elem_of_cons Hfree; [|by apply Hall].
        apply GetByAddress_Some in Hget as [Hl Ha]. exfalso. apply Hfree.
        rewrite <- Ha. unfold addresses. by apply list_elem_of_fmap_2.
    + apply GetByAddress_None in Hget.
      destruct (IH (L ++ [(mgmtPair mesh ip p).1]) (C ++ [(mgmtPair mesh ip p).2]))
        as (kept & Hsub & Hrun & Hnd & Hkept & Hall).
      exists (p :: kept). repeat split.
      * by apply sublist_skip.
      * rewrite Hrun. simpl. by rewrite <- !app_assoc.
      * rewrite fmap_cons. apply NoDup_cons. split; [|done].
        intros (q & Heq & Hq)%list_elem_of_fmap. apply (Hkept q Hq).
        unfold addresses. rewrite fmap_app. apply elem_of_app. right.
        simpl. rewrite Heq. by apply list_elem_of_singleton.
      * intros q [->|Hq]%elem_of_cons; [done|].
        intros Hin. apply (Hkept q Hq). unfold addresses in *.
        rewrite fmap_app. apply elem_of_app. by left.
      * intros q [->|Hq]%elem_of_cons Hfree; rewrite fmap_cons; [by left|].
        destruct (decide (PortNumber q = PortNumber p)) as [->|Hne]; [by left|].
        right. apply (Hall q Hq). unfold addresses in *.
        rewrite fmap_app, elem_of_app. intros [?|Hm]; [done|].
        simpl in Hm. apply list_elem_of_singleton in Hm.
        by apply tcpAddress_inj in Hm.
Qed.

Lemma sidecarWithMgmt_kept o env sidecar :
  let ip := IPAddress sidecar in
  let managementPorts := ManagementPorts (EnvServiceDiscovery env) ip in
  let services := sidecarServices o env sidecar in
  ∃ keptPorts : list Port,
    keptPorts `sublist_of` filter mgmtSupported managementPorts
    ∧ sidecarWithMgmt o env sidecar
      = (services.1 ++ (mgmtPair (Mesh env) ip <$> keptPorts).*1,
         services.2 ++ (mgmtPair (Mesh env) ip <$> keptPorts).*2)
    ∧ NoDup (PortNumber <$> keptPorts)
    ∧ (∀ p, p ∈ keptPorts → tcpAddress ip (PortNumber p) ∉ addresses services.1)
    ∧ (∀ p, p ∈ managementPorts → mgmtSupported p →
         tcpAddress ip (PortNumber p) ∉ addresses services.1 →
         PortNumber p ∈ PortNumber <$> keptPorts).
Proof.
  intros ip managementPorts services.
  destruct (addMgmtListener_ports (Mesh env) ip
              (filter mgmtSupported managementPorts) services.1 services.2)
    as (kept & Hsub & Hrun & Hnd & Hkept & Hall).
  exists kept. split; [done|]. split; [|split; [done|split; [done|]]].
  - unfold sidecarWithMgmt. fold ip managementPorts services.
    pose proof (buildMgmtPortListeners_zip (Mesh env) managementPorts ip) as Hzip.
    destruct (buildMgmtPortListeners (Mesh env) managementPorts ip) as [ls cs].
    simpl in Hzip. rewrite Hzip. by destruct services.
  - intros p Hp Hs. apply Hall. by apply list_elem_of_filter.
Qed.

(** X22. Of the management ports of a supported protocol, those that get a
    listener have pairwise distinct numbers, and none is at the address of a
    service listener: a port number that is declared twice gets one
    listener. Every management port of a supported protocol whose address is
    free of service listeners has its number among them. *)
Theorem sidecarWithMgmt_distinct_ports
    (o : RangeOrder) (env : Environment) (sidecar : Node) :
  let ip := IPAddress sidecar in
  let managementPorts := ManagementPorts (EnvServiceDiscovery env) ip in
  let services := sidecarServices o env sidecar in
  ∃ keptPorts : list Port,
    keptPorts `sublist_of` filter mgmtSupported managementPorts
    ∧ sidecarWithMgmt o env sidecar
      = (services.1 ++ (mgmtPair (Mesh env) ip <$> keptPorts).*1,
         services.2 ++ (mgmtPair (Mesh env) ip <$> keptPorts).*2)
    ∧ NoDup (PortNumber <$> keptPorts)
    ∧ (∀ p, p ∈ keptPorts → tcpAddress ip (PortNumber p) ∉ addresses services.1)
    ∧ (∀ p, p ∈ managementPorts → mgmtSupported p →
         tcpAddress ip (PortNumber p) ∉ addresses services.1 →
         PortNumber p ∈ PortNumber <$> keptPorts).
Proof. apply sidecarWithMgmt_kept. Qed.

(** X21. Whatever the authentication policy, only the inbound listeners of
    a sidecar can have an SSL context: the outbound listeners, the
    management listeners, the virtual listener and the listener of the HTTP
    proxy port have none. *)
Theorem sidecarCollected_ssl_inbound_only
    (o : RangeOrder) (env : Environment) (sidecar : Node) :
  0 < ProxyListenPort (Mesh env) →
  let instances := HostInstances (EnvServiceDiscovery env) {[IPAddress sidecar]} in
  let inbound :=
    (buildInboundListeners o (Mesh env) sidecar instances
       (EnvIstioConfigStore env)).1 in
  ∃ others : Listeners,
    (sidecarCollected o env sidecar).1
    = ((λ l, setBindToPort l false) <$> inbound) ++ others
    ∧ virtualListener (Mesh env) ∈ others
    ∧ Forall (λ l, ListenerSSLContext l = None) others.
Proof.
  intros Hport instances inbound.
  rewrite sidecarCollected_redirect by done.
  destruct (sidecarWithMgmt_kept o env sidecar) as (kept & _ & Hrun & _).
  unfold sidecarRedirect. rewrite Hrun. simpl.
  rewrite sidecarServices_fst. fold instances inbound.
  rewrite !fmap_app, <- !app_assoc. eexists. split; [reflexivity|]. split.
  - rewrite !elem_of_app. right. right. left. by apply list_elem_of_singleton.
  - repeat (apply Forall_app; split).
    + apply Forall_fmap. eapply Forall_impl;
        [apply buildOutboundListeners_no_ssl|]. by intros l.
    + rewrite !Forall_fmap. apply Forall_true. by intros p.
    + by repeat constructor.
    + unfold proxyPart, sidecarHTTPProxy. case_decide; by repeat constructor.
Qed.

(** X20. When [ProxyListenPort] is not positive a sidecar gets no inbound,
    outbound, management or virtual listener and none of their clusters,
    whatever the services and instances are: what is normalized is the
    listener of the HTTP proxy port with the clusters of the outbound HTTP
    routes when [ProxyHttpPort] is positive, and nothing at all when it is
    not. *)
Theorem buildSidecar_no_redirect
    (o : RangeOrder) (env : Environment) (sidecar : Node) :
  ProxyListenPort (Mesh env) ≤ 0 →
  buildSidecar o env sidecar
  = if decide (0 < ProxyHttpPort (Mesh env))
    then (normalizeListeners (sidecarHTTPProxy o env sidecar).1,
          normalizeClusters (sidecarHTTPProxy o env sidecar).2)
    else (normalizeListeners [], normalizeClusters []).
Proof.
  intros Hport. unfold buildSidecar, sidecarCollected.
  rewrite decide_False by lia.
  case_decide; [|done]. by destruct (sidecarHTTPProxy o env sidecar).
Qed.

End SidecarProperties.

(** ** Routing of a service port, and the whole configuration *)

Section MoreProperties.
Context `{Helpers}.

Lemma buildDestinationHTTPRoutes_length service servicePort rules :
  (0 < length (buildDestinationHTTPRoutes service servicePort rules))%nat
  ↔ httpRouted servicePort
    ∨ (PortProtocol servicePort = ProtocolHTTPS ∧ External service = true).
Proof.
  assert (Hlen : ∀ l : list HTTPRoute, (0 < length l)%nat ↔ l ≠ []).
  { intros [|x l]; simpl; split; (done || lia). }
  rewrite Hlen. split; [apply buildDestinationHTTPRoutes_routed|].
  intros [Hhttp|[Hhttps Hext]];
    [by apply buildDestinationHTTPRoutes_nonempty|].
  unfold buildDestinationHTTPRoutes. by rewrite Hhttps, Hext.
Qed.

Lemma tcpServicePorts_unrouted services rules :
  tcpServicePorts services
  = (service ← services;
     (λ p, (service, p))
     <$> filter (λ p, PortProtocol p ≠ ProtocolUnsupported
                      ∧ External service = false
                      ∧ length (buildDestinationHTTPRoutes service p rules) = 0%nat)
                (Ports service)).
Proof.
  unfold tcpServicePorts.
  induction services as [|service rest IH]; [done|].
  cbn [mbind list_bind]. rewrite IH. f_equal.
  assert (Hport : ∀ p,
    (PortProtocol p ≠ ProtocolUnsupported ∧ External service = false
     ∧ length (buildDestinationHTTPRoutes service p rules) = 0%nat)
    ↔ External service = false ∧ tcpRouted p).
  { intros p.
    pose proof (buildDestinationHTTPRoutes_length service p rules) as Hlen.
    unfold httpRouted, tcpRouted in *. split.
    - intros (Hsup & Hext & Hnone). split; [done|].
      destruct (PortProtocol p); try (by left); try (by right); try done;
        exfalso; assert (Hpos : (0 < length (buildDestinationHTTPRoutes service p rules))%nat)
          by (apply Hlen; naive_solver); lia.
    - intros (Hext & Htcp). split; [|split; [done|]].
      + destruct Htcp as [Htcp|Htcp]; by rewrite Htcp.
      + destruct (length (buildDestinationHTTPRoutes service p rules)); [done|].
        exfalso. assert (Hpos : (0 < S n)%nat) by lia.
        apply Hlen in Hpos. naive_solver congruence. }
  destruct (External service) eqn:Hext.
  - induction (Ports service) as [|p ports IHp]; [done|].
    rewrite filter_cons. destruct (decide _) as [Hp|_]; [|exact IHp].
    apply Hport in Hp as [? _]. done.
  - f_equal. apply list_filter_iff. intros p. rewrite Hport. naive_solver.
Qed.

(** X23. Each port of each service is routed in at most one way.
    [buildDestinationHTTPRoutes] makes routes for it exactly when it is an
    HTTP, HTTP2 or GRPC port, or the HTTPS port of an external service, which
    gets the default route alone. [buildOutboundTCPListeners] makes its
    listeners, each with its cluster, in the order of the services and of
    their ports, for exactly the ports of a supported protocol of the
    services that are not external for which [buildDestinationHTTPRoutes]
    makes no route. So a port never gets both, and a TCP port of an external
    service or a port of another protocol gets neither. *)
Theorem outbound_port_one_path
    (mesh : ProxyMeshConfig) (services : list Service) (rules : list RouteRule) :
  let built := buildOutboundTCPListeners mesh services in
  let routes service servicePort :=
    buildDestinationHTTPRoutes service servicePort rules in
  (∀ service servicePort,
     (0 < length (routes service servicePort))%nat
     ↔ httpRouted servicePort
       ∨ (PortProtocol servicePort = ProtocolHTTPS ∧ External service = true))
  ∧ (∀ service servicePort,
       PortProtocol servicePort = ProtocolHTTPS → External service = true →
       routes service servicePort
       = [buildDefaultRoute (buildOutboundCluster (Hostname service) servicePort)])
  ∧ length built.1 = length built.2
  ∧ zip built.1 built.2
    = outboundTCPPair
      <$> (service ← services;
           (λ servicePort, (service, servicePort))
           <$> filter (λ servicePort,
                         PortProtocol servicePort ≠ ProtocolUnsupported
                         ∧ External service = false
                         ∧ length (routes service servicePort) = 0%nat)
                      (Ports service)).
Proof.
  intros built routes. subst built routes. cbv beta.
  split; [intros service servicePort; apply buildDestinationHTTPRoutes_length|].
  split.
  { intros service servicePort Hhttps Hext. unfold buildDestinationHTTPRoutes.
    by rewrite Hhttps, Hext. }
  rewrite buildOutboundTCPListeners_foldl. cbn [fst snd].
  split; [by rewrite !length_fmap|].
  by rewrite zip_fst_snd, (tcpServicePorts_unrouted services rules).
Qed.
(** X5. The clusters of a generated configuration come in this order: the
    clusters of the node, each passed through [applyClusterPolicy]; the mixer
    cluster when the mesh has a mixer; the cluster of the route discovery
    service; the cluster of the listener discovery service when [lds] is
    set; the Zipkin cluster when the mesh has a Zipkin address. The last four
    are not passed through [applyClusterPolicy]. The listener discovery block
    is there exactly when [lds] is set and the tracing block exactly when the
    mesh has a Zipkin address. A node of an unknown type has no listeners and
    no clusters of its own. *)
Theorem generateConfig_clusters
    (o : RangeOrder) (lds : bool) (env : Environment) (node : Node) :
  let mesh := Mesh env in
  let conf := generateConfig o lds env node in
  let discovery name :=
    buildCluster (DiscoveryAddress mesh) name (ConnectTimeout mesh) in
  ∃ own : Clusters,
    CMClusters (ConfigClusterManager conf)
    = ((λ cluster,
          applyClusterPolicy cluster (EnvIstioConfigStore env) mesh
            (ServiceAccounts env)) <$> own)
      ++ (if decide (MixerAddress mesh ≠ "") then [buildMixerCluster mesh] else [])
      ++ [discovery RDSName]
      ++ (if lds then [discovery LDSName] else [])
      ++ (if decide (ZipkinAddress mesh ≠ "")
          then [buildCluster (ZipkinAddress mesh) ZipkinCollectorCluster
                  (ConnectTimeout mesh)]
          else [])
    ∧ (is_Some (LDS conf) ↔ lds = true)
    ∧ (is_Some (Tracing conf) ↔ ZipkinAddress mesh ≠ "")
    ∧ ConfigListeners conf = buildListeners o env node
    ∧ (∀ t, Type_ node = NodeTypeOther t → own = [] ∧ ConfigListeners conf = []).
Proof.
  intros mesh conf discovery. subst conf discovery.
  unfold generateConfig, buildConfig, buildClusters, buildListeners.
  fold mesh.
  exists (match Type_ node with
          | Sidecar => (buildSidecar o env node).2
          | Ingress =>
              normalizeClusters
                (routeConfigsClusters
                   (buildIngressRoutes mesh (EnvServiceDiscovery env)
                      (EnvIstioConfigStore env)))
          | Egress =>
              normalizeClusters
                (routeConfigsClusters
                   (buildEgressRoutes mesh (EnvServiceDiscovery env)))
          | NodeTypeOther _ => []
          end).
  destruct lds, (decide (ZipkinAddress mesh ≠ "")) as [Hz|Hz],
    (decide (MixerAddress mesh ≠ "")); simpl;
    rewrite <- ?app_assoc; simpl;
    (split; [done|]);
    (split; [(split; [done|intros _; by eexists]) || (split; [by intros [? ?]|done])|]);
    (split; [(split; [done|intros _; by eexists]) || (split; [by intros [? ?]|done])|]);
    (split; [by destruct (Type_ node)|]);
    intros t Ht; by rewrite Ht.
Qed.

Lemma inboundInstance_anatomy o mesh sidecar all config acc instance :
  Forall (λ l, ∃ i, i ∈ all
                 ∧ ListenerAddress l = tcpAddress (endpointOf i).1 (endpointOf i).2
                 ∧ inboundAnatomy mesh sidecar i l) acc.1 →
  instance ∈ all →
  Forall (λ l, ∃ i, i ∈ all
                 ∧ ListenerAddress l = tcpAddress (endpointOf i).1 (endpointOf i).2
                 ∧ inboundAnatomy mesh sidecar i l)
    (inboundInstance o mesh sidecar all config acc instance).1.
Proof.
  intros Hacc Hin. unfold inboundInstance.
  destruct (PortProtocol (ServicePort (Endpoint instance))) eqn:Hp; simpl;
    try done; apply Forall_app; (split; [done|]); apply Forall_singleton;
    exists instance; (split; [done|]);
    (split; [by case_decide|]); unfold inboundAnatomy, inboundCluster,
      tcpRouted, httpRouted, inboundDefaultRoute, endpointOf; rewrite Hp.
  - right. split; [auto|]. eexists _, []. simpl. by repeat split.
  - left. split; [auto|]. by case_decide.
  - right. split; [auto|]. eexists _, []. simpl. by repeat split.
  - right. split; [auto|]. eexists _, _. simpl. by repeat split.
  - left. split; [auto|]. by case_decide.
Qed.

Lemma inboundInstance_foldl_anatomy o mesh sidecar all config instances : ∀ acc,
  instances ⊆ all →
  Forall (λ l, ∃ i, i ∈ all
                 ∧ ListenerAddress l = tcpAddress (endpointOf i).1 (endpointOf i).2
                 ∧ inboundAnatomy mesh sidecar i l) acc.1 →
  Forall (λ l, ∃ i, i ∈ all
                 ∧ ListenerAddress l = tcpAddress (endpointOf i).1 (endpointOf i).2
                 ∧ inboundAnatomy mesh sidecar i l)
    (foldl (inboundInstance o mesh sidecar all config) acc instances).1.
Proof.
  induction instances as [|instance rest IH]; intros acc Hsub Hacc; [done|].
  cbn [foldl]. apply IH; [set_solver|].
  apply inboundInstance_anatomy; [done|set_solver].
Qed.

Lemma applyInboundAuth_filters l mesh :
  Filters (applyInboundAuth l mesh) = Filters l.
Proof. unfold applyInboundAuth. by destruct (AuthPolicy mesh). Qed.

(** X18. Every inbound listener is the listener of one of the instances
    and is made as [inboundAnatomy] says: a TCP listener has the TCP proxy as
    its last filter, after the mixer filter when the mesh has a mixer; an
    HTTP listener carries its routes itself and asks the discovery service
    for none, in one virtual host for every domain, whose last route is the
    default route of the cluster of the instance, and routes come before it
    only for an instance of the HTTP protocol. *)
Theorem buildInboundListeners_anatomy
    (o : RangeOrder) (mesh : ProxyMeshConfig) (sidecar : Node)
    (instances : list ServiceInstance) (config : IstioConfigStore) :
  Forall (λ l, ∃ instance,
            instance ∈ instances
            ∧ ListenerAddress l
              = tcpAddress (endpointOf instance).1 (endpointOf instance).2
            ∧ inboundAnatomy mesh sidecar instance l)
    (buildInboundListeners o mesh sidecar instances config).1.
Proof.
  pose proof (inboundInstance_foldl_anatomy o mesh sidecar instances config
                instances ([], []) ltac:(done) ltac:(constructor)) as Hbefore.
  unfold buildInboundListeners. fold (inboundBeforeAuth o mesh sidecar instances config) in Hbefore.
  destruct (inboundBeforeAuth o mesh sidecar instances config) as [ls cs].
  simpl in *. apply Forall_fmap. eapply Forall_impl; [exact Hbefore|].
  intros l (i & Hi & Ha & Hanatomy). exists i. split; [done|].
  simpl. rewrite applyInboundAuth_address. split; [done|].
  unfold inboundAnatomy in *. by rewrite applyInboundAuth_filters.
Qed.

End MoreProperties.

(** ** The generator on the example *)
Module OnExample.
Import Envoy.Example.

Lemma exClusters_consistent :
  keyConsistent clusterName (outboundRouteClusters exEnv exNode).
Proof.
  apply keyConsistent_Forall. apply (bool_decide_unpack _). vm_compute. exact I.
Qed.

(** The two orders of visit give the same payload and fingerprint. *)
Lemma Render_deterministic_witness :
  keyConsistent clusterName (outboundRouteClusters exEnv exNode)
  ∧ Render checksum ascending true exEnv exNode
    = Render checksum descending true exEnv exNode.
Proof.
  split; [exact exClusters_consistent|].
  apply (@Render_deterministic opaque helpers clusterName
           (sortByKey_firsts_canonical ListenerAddress)
           (sortByKey_firsts_canonical clusterName)
           N checksum ascending descending true exEnv exNode
           exClusters_consistent).
Defined.

(** C1 fails as stated when two different clusters have one name. A
    service of the mesh and an external name service have the same hostname
    and the same port name, on ports 80 and 8080, and the mesh has an egress
    proxy: the two outbound clusters have one name, and the one of the
    external service is rewritten to reach the egress proxy. The map of
    the outbound routes has the two ports as keys; [normalize] keeps the
    cluster of the port that is visited first. The two orders of visit give
    two configurations, two payloads and two fingerprints; they do so
    whatever the serialization, as long as it tells configurations apart. *)
Lemma Render_deterministic_counterexample :
  Hostname twinInternal = Hostname twinExternal
  ∧ (rangePorts ascending twinRoutes).*1 = [8080; 80]
  ∧ (rangePorts descending twinRoutes).*1 = [80; 8080]
  ∧ ¬ keyConsistent clusterName (outboundRouteClusters twinEnv exNode)
  ∧ head (ClusterType <$> CMClusters (ConfigClusterManager
            (generateConfig ascending true twinEnv exNode))) = Some "strict_dns"
  ∧ head (ClusterType <$> CMClusters (ConfigClusterManager
            (generateConfig descending true twinEnv exNode))) = Some "sds"
  ∧ generateConfig ascending true twinEnv exNode
    ≠ generateConfig descending true twinEnv exNode
  ∧ (∃ p1 f1 p2 f2,
       twinRender ascending = inr (p1, f1)
       ∧ twinRender descending = inr (p2, f2)
       ∧ p1 ≠ p2 ∧ f1 ≠ f2)
  ∧ (∀ marshal : Config → string + list Byte.byte,
       Inj (=) (=) marshal →
       Render (H0:=withMarshal marshal) checksum ascending true twinEnv exNode
       ≠ Render (H0:=withMarshal marshal) checksum descending true twinEnv exNode).
Proof.
  split; [done|]. split; [by vm_compute|]. split; [by vm_compute|].
  split.
  { intros Hcons.
    assert (Htwo : ∃ x y, x ∈ outboundRouteClusters twinEnv exNode
                          ∧ y ∈ outboundRouteClusters twinEnv exNode
                          ∧ clusterName x = clusterName y
                          ∧ ClusterType x ≠ ClusterType y).
    { eexists _, _.
      split; [apply (list_elem_of_lookup_2 _ 0%nat); vm_compute; reflexivity|].
      split; [apply (list_elem_of_lookup_2 _ 1%nat); vm_compute; reflexivity|].
      split; by vm_compute. }
    destruct Htwo as (x & y & Hx & Hy & Hkey & Hne).
    apply Hne. by rewrite (Hcons x y Hx Hy Hkey). }
  split; [by vm_compute|]. split; [by vm_compute|].
  split.
  { intros Heq.
    apply (f_equal (λ c, head (ClusterType <$> CMClusters (ConfigClusterManager c)))) in Heq.
    vm_compute in Heq. discriminate Heq. }
  split.
  { eexists _, _, _, _. split; [vm_compute; reflexivity|].
    split; [vm_compute; reflexivity|]. split.
    - intros Heq. apply (f_equal checksum) in Heq. vm_compute in Heq. discriminate Heq.
    - by vm_compute. }
  intros marshal Hinj Heq. unfold Render in Heq.
  assert (Hconf : generateConfig (H0:=withMarshal marshal) ascending true twinEnv exNode
                  = generateConfig (H0:=withMarshal marshal) descending true twinEnv exNode).
  { apply Hinj. cbn [MarshalIndent withMarshal] in Heq.
    destruct (marshal (generateConfig ascending true twinEnv exNode)),
             (marshal (generateConfig descending true twinEnv exNode));
      congruence. }
  apply (f_equal (λ c, head (ClusterType <$> CMClusters (ConfigClusterManager c))))
    in Hconf.
  vm_compute in Hconf. discriminate Hconf.
Qed.

(** The orders do differ on the example: the outbound listeners come out in
    another order, and [normalize] undoes it. *)
Example exOutbound_orders_differ :
  (buildOutboundListeners ascending exMesh exNode [instanceA]
     [serviceA; serviceB] (EnvIstioConfigStore exEnv)).1
  ≠ (buildOutboundListeners descending exMesh exNode [instanceA]
       [serviceA; serviceB] (EnvIstioConfigStore exEnv)).1.
Proof.
  intros Heq. apply (f_equal (fmap ListenerAddress)) in Heq.
  vm_compute in Heq. discriminate Heq.
Qed.

(** On the example the listener of the health port 8080 collides with the
    inbound listener of the instance and is left out; the listener of the
    metrics port 9102 is kept with its cluster. *)
Lemma buildSidecar_management_listeners_witness :
  0 < ProxyListenPort (Mesh exEnv)
  ∧ ∃ kept : list (Listener * Cluster),
      mgmtPair exMesh "10.1.1.1" metrics9102 ∈ kept
      ∧ (∀ mc, mc ∈ kept → ListenerAddress mc.1 ≠ "tcp://10.1.1.1:8080")
      ∧ buildSidecar ascending exEnv exNode
        = (normalizeListeners
             (((λ l, setBindToPort l false)
                 <$> ((sidecarServices ascending exEnv exNode).1 ++ kept.*1))
              ++ virtualListener exMesh :: (proxyPart ascending exEnv exNode).1),
           normalizeClusters
             (((sidecarServices ascending exEnv exNode).2 ++ kept.*2)
              ++ (proxyPart ascending exEnv exNode).2)).
Proof.
  split; [done|].
  destruct (buildSidecar_management_listeners ascending exEnv exNode)
    as (kept & Hsub & Hrun & Homitted & Hkept); [done|].
  exists kept. split; [|split; [|exact Hrun]].
  - apply (Hkept _ _).
    + apply list_elem_of_lookup_2 with 1%nat. vm_compute. reflexivity.
    + apply (bool_decide_unpack _). vm_compute. exact I.
  - intros mc Hmc Heq.
    refine (Homitted
              (mgmtPair exMesh "10.1.1.1" health8080).1
              (mgmtPair exMesh "10.1.1.1" health8080).2
              _ _ mc Hmc _).
    + apply list_elem_of_lookup_2 with 0%nat. vm_compute. reflexivity.
    + apply (bool_decide_unpack _). vm_compute. exact I.
    + rewrite Heq. vm_compute. reflexivity.
Defined.

(** C9 fails on the example: [ProxyHttpPort] is positive as well, and the
    listener of the HTTP proxy port, which is not the virtual listener, is
    returned with [BindToPort] true. *)
Lemma buildSidecar_bind_to_port_counterexample :
  0 < ProxyListenPort (Mesh exEnv)
  ∧ ∃ l : Listener,
      l ∈ (buildSidecar ascending exEnv exNode).1
      ∧ BindToPort l = true
      ∧ ListenerAddress l = "tcp://127.0.0.1:15002"
      ∧ l ≠ virtualListener (Mesh exEnv).
Proof.
  split; [done|].
  exists (buildHTTPListener ascending exMesh exNode [instanceA] None
            "127.0.0.1" 15002 "0" false).
  split; [|split; [done|split; [done|]]].
  - apply list_elem_of_lookup_2 with 6%nat. vm_compute. reflexivity.
  - intros Heq. apply (f_equal ListenerAddress) in Heq.
    vm_compute in Heq. discriminate Heq.
Qed.

(** On the example the listeners that are not bound come first, then the
    virtual listener and the listener of the HTTP proxy port. *)
Lemma buildSidecar_bind_to_port_witness :
  0 < ProxyListenPort (Mesh exEnv)
  ∧ ∃ (redirected : Listeners) (clusters : Clusters),
      buildSidecar ascending exEnv exNode
      = (normalizeListeners
           (redirected ++
            [virtualListener exMesh;
             buildHTTPListener ascending exMesh exNode [instanceA] None
               "127.0.0.1" 15002 "0" false]),
         normalizeClusters clusters)
      ∧ Forall (λ l, BindToPort l = false) redirected.
Proof.
  split; [done|].
  destruct (buildSidecar_bind_to_port ascending exEnv exNode)
    as (redirected & clusters & Hrun & Hall & _); [done|].
  exists redirected, clusters. split; [exact Hrun|exact Hall].
Defined.

(** The routes of service [a] on its HTTP port: the route of the first
    rule, then the catch-all of the rule without condition; the last rule is
    not reached and no default route is added. *)
Lemma buildDestinationHTTPRoutes_http_witness :
  PortProtocol http80 ∈ [ProtocolHTTP; ProtocolHTTP2; ProtocolGRPC]
  ∧ buildDestinationHTTPRoutes serviceA http80 exRules ≠ []
  ∧ RouteRest <$> buildDestinationHTTPRoutes serviceA http80 exRules = ["/v1"; "/"].
Proof.
  assert (Hp : PortProtocol http80 ∈ [ProtocolHTTP; ProtocolHTTP2; ProtocolGRPC])
    by (by apply (bool_decide_unpack _)).
  split; [exact Hp|]. split.
  - exact (proj1 (buildDestinationHTTPRoutes_http serviceA http80 exRules Hp)).
  - reflexivity.
Defined.

(** C2 fails on the example: materializing [envoy-rev1.json] next to the
    file of the previous epoch makes three calls, create, write and close,
    all of them on [envoy-rev1.json] itself; no temporary file is written and
    nothing is renamed. When the disk is full after five bytes, the final
    name is left holding these five bytes. *)
Lemma WriteFile_write_rename_counterexample :
  (WriteFile quiet exConfig "envoy-rev1.json" exWorld).1 = None
  ∧ (∃ payload,
       MarshalIndent exConfig = inr payload
       ∧ syscalls (WriteFile quiet exConfig "envoy-rev1.json" exWorld).2
         = [SysCreate "envoy-rev1.json";
            SysWrite (File "envoy-rev1.json") payload;
            SysClose "envoy-rev1.json"]
       ∧ (WriteFile diskFull exConfig "envoy-rev1.json" exWorld).1
         = Some ["no space left on device"]
       ∧ files (WriteFile diskFull exConfig "envoy-rev1.json" exWorld).2
           !! "envoy-rev1.json"
         = Some (take 5 payload))
  ∧ ¬ writeRename "envoy-rev1.json"
        (syscalls (WriteFile quiet exConfig "envoy-rev1.json" exWorld).2).
Proof.
  split; [reflexivity|]. split.
  - eexists. split; [vm_compute; reflexivity|].
    split; [vm_compute; reflexivity|].
    split; [vm_compute; reflexivity|]. vm_compute. reflexivity.
  - apply onPath_no_rename. vm_compute. by repeat constructor.
Qed.

(** The route name of the listener of port 80 is answered with the routes
    of port 80. *)
Lemma buildRDSRoute_outbound_listener_witness :
  Type_ exNode = Sidecar
  ∧ - 2 ^ 63 ≤ 80 < 2 ^ 63
  ∧ is_Some (buildOutboundHTTPRoutes exMesh exNode [instanceA]
               [serviceA; serviceB] (EnvIstioConfigStore exEnv) !! 80)
  ∧ buildRDSRoute exCombine exMesh exNode "80" (EnvServiceDiscovery exEnv)
      (EnvIstioConfigStore exEnv)
    = buildOutboundHTTPRoutes exMesh exNode [instanceA] [serviceA; serviceB]
        (EnvIstioConfigStore exEnv) !! 80.
Proof.
  split; [done|]. split; [lia|].
  destruct (buildOutboundHTTPRoutes exMesh exNode [instanceA]
              [serviceA; serviceB] (EnvIstioConfigStore exEnv) !! 80)
    as [routeConfig|] eqn:Hlookup; [|by vm_compute in Hlookup].
  split; [by eexists|].
  apply (buildRDSRoute_outbound_listener exCombine ascending exMesh exNode
           (EnvServiceDiscovery exEnv) (EnvIstioConfigStore exEnv) 80 routeConfig);
    [done|exact Hlookup|lia|done].
Defined.

(** A route name that is not a number *)
Lemma buildRDSRoute_nil_witness :
  "all" ≠ RDSAll
  ∧ "l"%char ∈ bytes "all"
  ∧ buildRDSRoute exCombine exMesh exNode "all" (EnvServiceDiscovery exEnv)
      (EnvIstioConfigStore exEnv) = None.
Proof.
  assert (Hin : "l"%char ∈ bytes "all") by (simpl; set_solver).
  split; [done|]. split; [exact Hin|].
  apply buildRDSRoute_nil. right. split; [done|]. right.
  exists "l"%char. by repeat split.
Defined.

(** Port 80 of service [a] is routed. *)
Lemma buildOutboundHTTPRoutes_serves_witness :
  serviceA ∈ [serviceA; serviceB]
  ∧ External serviceA = false
  ∧ http80 ∈ Ports serviceA
  ∧ httpRouted http80
  ∧ ∃ routeConfig,
      outboundRouteTable exMesh exNode [instanceA] [serviceA; serviceB]
        (EnvIstioConfigStore exEnv) !! 80 = Some routeConfig
      ∧ buildVirtualHost serviceA http80 ["default"; "svc"]
          (buildDestinationHTTPRoutes serviceA http80 exRules)
        ∈ VirtualHosts routeConfig.
Proof.
  assert (Hs : serviceA ∈ [serviceA; serviceB]) by left.
  assert (Hp : http80 ∈ Ports serviceA) by left.
  assert (Hr : httpRouted http80) by (by left).
  split; [exact Hs|]. split; [done|]. split; [exact Hp|]. split; [exact Hr|].
  exact (buildOutboundHTTPRoutes_serves exMesh exNode [instanceA]
           [serviceA; serviceB] (EnvIstioConfigStore exEnv) serviceA http80
           Hs eq_refl Hp Hr).
Defined.

(** Without an egress proxy the external service changes nothing. *)
Lemma buildOutboundHTTPRoutes_no_egress_witness :
  EgressProxyAddress exMesh = ""
  ∧ External serviceExt = true
  ∧ buildOutboundHTTPRoutes exMesh exNode [instanceA]
      [serviceA; serviceExt; serviceB] (EnvIstioConfigStore exEnv)
    = buildOutboundHTTPRoutes exMesh exNode [instanceA]
        [serviceA; serviceB] (EnvIstioConfigStore exEnv).
Proof.
  split; [done|]. split; [done|].
  exact (buildOutboundHTTPRoutes_no_egress exMesh exNode [instanceA]
           [serviceA; serviceExt; serviceB] (EnvIstioConfigStore exEnv) eq_refl).
Defined.

(** The route configuration of port 80 comes from a port 80 of a service. *)
Lemma buildOutboundHTTPRoutes_ports_witness :
  ∃ routeConfig service servicePort,
    outboundRouteTable exMesh exNode [instanceA] [serviceA; serviceB]
      (EnvIstioConfigStore exEnv) !! 80 = Some routeConfig
    ∧ VirtualHosts routeConfig ≠ []
    ∧ service ∈ [serviceA; serviceB]
    ∧ servicePort ∈ Ports service
    ∧ PortNumber servicePort = 80.
Proof.
  destruct (outboundRouteTable exMesh exNode [instanceA] [serviceA; serviceB]
              (EnvIstioConfigStore exEnv) !! 80)
    as [routeConfig|] eqn:Hlookup; [|by vm_compute in Hlookup].
  destruct (buildOutboundHTTPRoutes_ports exMesh exNode [instanceA]
              [serviceA; serviceB] (EnvIstioConfigStore exEnv) 80 routeConfig
              Hlookup)
    as (Hne & service & servicePort & Hs & Hp & Hport & _).
  by exists routeConfig, service, servicePort.
Defined.

(** The HTTPS port of the external service goes through the egress proxy. *)
Lemma buildOutboundHTTPRoutes_egress_witness :
  EgressProxyAddress exEgressMesh ≠ ""
  ∧ External serviceExt = true
  ∧ ∃ routeConfig routes,
      outboundRouteTable exEgressMesh exNode [instanceA] [serviceA; serviceExt]
        (EnvIstioConfigStore exEnv) !! 443 = Some routeConfig
      ∧ buildVirtualHost serviceExt https443 ["default"; "svc"] routes
        ∈ VirtualHosts routeConfig
      ∧ length routes = 1%nat
      ∧ Forall (viaEgress exEgressMesh serviceExt) routes.
Proof.
  assert (He : EgressProxyAddress exEgressMesh ≠ "") by done.
  assert (Hs : serviceExt ∈ [serviceA; serviceExt]) by (right; left).
  assert (Hp : https443 ∈ Ports serviceExt) by (right; left).
  assert (Hext : External serviceExt = true) by done.
  split; [exact He|]. split; [exact Hext|].
  destruct (buildOutboundHTTPRoutes_egress exEgressMesh exNode [instanceA]
              [serviceA; serviceExt] (EnvIstioConfigStore exEnv) serviceExt https443
              He Hs Hext Hp (or_intror eq_refl))
    as (routeConfig & routes & Hlookup & Hin & Hlen & _ & Hvia).
  by exists routeConfig, routes.
Defined.

(** With the redirection off, the HTTP proxy listener is all there is. *)
Lemma buildSidecar_no_redirect_witness :
  ProxyListenPort (Mesh exProxyOnlyEnv) ≤ 0
  ∧ buildSidecar ascending exProxyOnlyEnv exNode
    = (normalizeListeners (sidecarHTTPProxy ascending exProxyOnlyEnv exNode).1,
       normalizeClusters (sidecarHTTPProxy ascending exProxyOnlyEnv exNode).2)
  ∧ ListenerAddress <$> (buildSidecar ascending exProxyOnlyEnv exNode).1
    = ["tcp://127.0.0.1:15002"].
Proof.
  assert (Hport : ProxyListenPort (Mesh exProxyOnlyEnv) ≤ 0) by done.
  split; [exact Hport|].
  pose proof (buildSidecar_no_redirect ascending exProxyOnlyEnv exNode Hport)
    as Hrun.
  split; [exact Hrun|]. by vm_compute.
Defined.

(** On the example the inbound listener has the SSL context of the mutual
    TLS, and no other listener has one. *)
Lemma sidecarCollected_ssl_inbound_only_witness :
  0 < ProxyListenPort (Mesh exEnv)
  ∧ ∃ others : Listeners,
      (sidecarCollected ascending exEnv exNode).1
      = ((λ l, setBindToPort l false)
         <$> (buildInboundListeners ascending exMesh exNode [instanceA]
                (EnvIstioConfigStore exEnv)).1) ++ others
      ∧ Forall (λ l, ListenerSSLContext l = None) others.
Proof.
  assert (Hport : 0 < ProxyListenPort (Mesh exEnv)) by done.
  split; [exact Hport|].
  destruct (sidecarCollected_ssl_inbound_only ascending exEnv exNode Hport)
    as (others & Hrun & _ & Hnone).
  by exists others.
Defined.

(** Of the ports of three services, one external, only the TCP port of
    service [b] gets a listener; it has no HTTP route, the HTTP port of [b]
    has two, and the TCP port of the external service has neither. *)
Lemma outbound_port_one_path_witness :
  (buildOutboundTCPListeners exMesh [serviceA; serviceB; serviceExt]).1
  = [(outboundTCPPair (serviceB, tcp3306)).1]
  ∧ buildDestinationHTTPRoutes serviceB tcp3306 exRules = []
  ∧ length (buildDestinationHTTPRoutes serviceB http80 exRules) = 2%nat
  ∧ buildDestinationHTTPRoutes serviceExt tcp3306 exRules = [].
Proof.
  destruct (outbound_port_one_path exMesh [serviceA; serviceB; serviceExt] exRules)
    as (_ & _ & Hlen & Hzip).
  split; [|by vm_compute].
  rewrite <- (fst_zip (buildOutboundTCPListeners exMesh [serviceA; serviceB; serviceExt]).1
                (buildOutboundTCPListeners exMesh [serviceA; serviceB; serviceExt]).2)
    by (rewrite Hlen; done).
  rewrite Hzip. by vm_compute.
Defined.

End OnExample.

End EnvoyProps.

(** * Properties of the agent *)
Module AgentProps.
Import Agent.

Lemma appends_refl P a : appends P a a.
Proof. exists []. by rewrite app_nil_r. Qed.

Lemma appends_trans P a b c : appends P a b → appends P b c → appends P a c.
Proof.
  intros (e1 & H1 & Hq1) (e2 & H2 & Hq2). exists (e1 ++ e2).
  rewrite H2, H1, <- app_assoc. split; [done|]. by apply Forall_app.
Qed.

Lemma steady_refl a : steady a a.
Proof. repeat split; [done|apply appends_refl]. Qed.

Lemma steady_trans a b c : steady a b → steady b c → steady a c.
Proof.
  intros (Hl1 & Hs1 & He1) (Hl2 & Hs2 & He2). split; [congruence|]. split.
  - by etrans.
  - by eapply appends_trans.
Qed.

Lemma quiet_allocations evs : Forall quiet evs → allocations evs = [].
Proof.
  unfold allocations. induction 1 as [|ev evs Hq _ IH]; [done|].
  destruct ev; simpl in *; done || exact IH.
Qed.

Lemma quiet_insertions evs : Forall quiet evs → insertions evs = [].
Proof.
  unfold insertions. induction 1 as [|ev evs Hq _ IH]; [done|].
  destruct ev; simpl in *; done || exact IH.
Qed.

Lemma unrendered_allocations evs : Forall unrendered evs → allocations evs = [].
Proof.
  unfold allocations. induction 1 as [|ev evs Hq _ IH]; [done|].
  destruct ev; simpl in *; done || exact IH.
Qed.

Lemma unrendered_renders evs : Forall unrendered evs → renders evs = 0%nat.
Proof.
  unfold renders. induction 1 as [|ev evs Hq _ IH]; [done|].
  rewrite filter_cons. destruct ev; simpl in *; done || exact IH.
Qed.

Lemma allocations_app tr evs :
  allocations (tr ++ evs) = allocations tr ++ allocations evs.
Proof. apply omap_app. Qed.

Lemma insertions_app tr evs :
  insertions (tr ++ evs) = insertions tr ++ insertions evs.
Proof. apply omap_app. Qed.

Lemma renders_app tr evs : renders (tr ++ evs) = (renders tr + renders evs)%nat.
Proof. unfold renders. by rewrite filter_app, length_app. Qed.

Lemma hitless_app tr evs :
  hitless tr → Forall undrained evs → hitless (tr ++ evs).
Proof.
  intros Htr Hq i e Hi.
  apply lookup_app_Some in Hi as [Hi|[Hlen Hi]].
  - destruct (Htr i e Hi) as (e' & He & Hlast & Hserving).
    apply lookup_lt_Some in Hi.
    exists e'. by rewrite take_app_le by lia.
  - apply list_elem_of_lookup_2 in Hi.
    rewrite Forall_forall in Hq. by apply Hq in Hi.
Qed.

Lemma hitless_app_quiet tr evs :
  hitless tr → Forall quiet evs → hitless (tr ++ evs).
Proof.
  intros Htr Hq. apply hitless_app; [done|].
  eapply Forall_impl; [exact Hq|]. intros ev. by destruct ev.
Qed.

Lemma steady_Inv a a' : steady a a' → Inv a → Inv a'.
Proof.
  intros (Hl & Hs & evs & Htr & Hq) [Hi Ha Hins Hrec Hh].
  split; rewrite ?Hl, ?Htr, ?allocations_app, ?insertions_app,
           ?(quiet_allocations evs), ?(quiet_insertions evs), ?app_nil_r;
    try done.
  - by etrans.
  - by apply hitless_app_quiet.
Qed.

(** *** The primitives *)

Lemma Transition_epochs e s t t' :
  Transition e s t = Some t' →
  lastIssued t' = lastIssued t ∧ epoch <$> records t' = epoch <$> records t.
Proof.
  unfold Transition. destruct (find e t) as [r|]; [|done].
  destruct (legal (status r) s); [|done]. intros [= <-]. simpl. split; [done|].
  rewrite <- list_fmap_compose. apply list_fmap_ext. intros i r' _. simpl.
  by case_decide.
Qed.

Lemma transition_appends (P : Event → Prop) e s a :
  P (EvTransition e s) → P EvFatal → appends P a (transition e s a).
Proof.
  intros Hs Hf. unfold transition.
  destruct (halted a); [apply appends_refl|].
  destruct (Transition e s (table a)); eexists; (split; [reflexivity|]);
    by repeat constructor.
Qed.

Lemma transition_table e s a :
  lastIssued (table (transition e s a)) = lastIssued (table a)
  ∧ epoch <$> records (table (transition e s a)) = epoch <$> records (table a).
Proof.
  unfold transition. destruct (halted a); [done|].
  destruct (Transition e s (table a)) as [t'|] eqn:Ht; [|done].
  by apply Transition_epochs in Ht.
Qed.

Lemma transition_steady e s a : s ≠ Draining → steady a (transition e s a).
Proof.
  intros Hs. destruct (transition_table e s a) as [Hl He].
  split; [done|]. split; [by rewrite He|].
  apply transition_appends; [by destruct s|done].
Qed.

Lemma scheduleRetry_appends (P : Event → Prop) a :
  P EvRetry → P EvFatal → appends P a (scheduleRetry a).
Proof.
  intros Hr Hf. unfold scheduleRetry.
  destruct (halted a); [apply appends_refl|].
  destruct (budget a) as [|[|n]]; eexists; (split; [reflexivity|]);
    by repeat constructor.
Qed.

Lemma scheduleRetry_steady a : steady a (scheduleRetry a).
Proof.
  split; [|split; [|by apply scheduleRetry_appends]];
    unfold scheduleRetry; destruct (halted a); try done;
    by destruct (budget a) as [|[|n]].
Qed.

Lemma clearCurrent_steady a : steady a (clearCurrent a).
Proof.
  repeat split; [done|]. exists []. split; [|done]. simpl. by rewrite app_nil_r.
Qed.

Lemma halt_steady a : steady a (halt a).
Proof.
  repeat split; [done|]. exists [EvFatal]. split; [done|]. by repeat constructor.
Qed.

Lemma log_steady evs a : Forall quiet evs → steady a (log evs a).
Proof. intros Hq. repeat split; [done|]. by exists evs. Qed.

Lemma materialize_steady e a : steady a (materialize e a).
Proof.
  repeat split; [done|]. eexists. split; [reflexivity|]. by repeat constructor.
Qed.

Lemma setCurrent_steady e fp a : steady a (setCurrent e fp a).
Proof.
  repeat split; [done|]. exists []. split; [|done]. simpl. by rewrite app_nil_r.
Qed.

Lemma setProcOf_epochs e pid t :
  epoch <$> records (setProcOf e pid t) = epoch <$> records t.
Proof.
  unfold setProcOf. simpl. rewrite <- list_fmap_compose.
  apply list_fmap_ext. intros i r _. simpl. by case_decide.
Qed.

(** *** Allocation and insertion *)

Lemma steady_Fresh e a a' : steady a a' → Fresh e a → Fresh e a'.
Proof.
  intros (Hl & _ & evs & Htr & Hq) (He & al & Hal & Hins).
  split; [congruence|]. exists al.
  by rewrite Htr, allocations_app, insertions_app,
       (quiet_allocations evs), (quiet_insertions evs), !app_nil_r.
Qed.

Lemma allocate_Inv a :
  Inv a →
  Inv (withTable (Allocate (table a)).2 [EvAllocate (Allocate (table a)).1] a)
  ∧ Fresh (Allocate (table a)).1
      (withTable (Allocate (table a)).2 [EvAllocate (Allocate (table a)).1] a).
Proof.
  intros [Hi Ha Hins Hrec Hh]. simpl.
  assert (Hal : allocations (trace a ++ [EvAllocate (lastIssued (table a) + 1)])
                = allocations (trace a) ++ [lastIssued (table a) + 1]).
  { by rewrite allocations_app. }
  split; [split|]; simpl; rewrite ?Hal.
  - lia.
  - rewrite Ha. replace (lastIssued (table a) + 1 + 1)
      with ((lastIssued (table a) + 1) + 1) by lia.
    rewrite (seqZ_app 0 (lastIssued (table a) + 1) 1) by lia.
    by rewrite Z.add_0_l.
  - rewrite insertions_app. simpl. rewrite app_nil_r.
    by apply sublist_inserts_r.
  - rewrite insertions_app. simpl. by rewrite app_nil_r.
  - apply hitless_app; [done|]. by repeat constructor.
  - split; [done|]. exists (allocations (trace a)). simpl. split; [exact Hal|].
    rewrite insertions_app. simpl. by rewrite app_nil_r.
Qed.

Lemma insert_Inv e r a :
  epoch r = e → Inv a → Fresh e a →
  Inv (withTable (Insert r (table a)) [EvInsert e] a).
Proof.
  intros Hr [Hi Ha Hins Hrec Hh] (He & al & Hal & Hsub).
  split; simpl; rewrite ?allocations_app, ?insertions_app; simpl;
    rewrite ?app_nil_r.
  - done.
  - done.
  - rewrite Hal. by apply sublist_app.
  - rewrite fmap_app. simpl. rewrite Hr. by apply sublist_app.
  - apply hitless_app; [done|]. by repeat constructor.
Qed.

Lemma Inv_epoch_range a r :
  Inv a → r ∈ records (table a) → 0 ≤ epoch r ≤ lastIssued (table a).
Proof.
  intros [Hi Ha Hins Hrec Hh] Hr.
  assert (Hin : epoch r ∈ seqZ 0 (lastIssued (table a) + 1)).
  { rewrite <- Ha. eapply elem_of_sublist; [|exact Hins].
    eapply elem_of_sublist; [|exact Hrec]. by apply list_elem_of_fmap_2. }
  apply elem_of_seqZ in Hin. lia.
Qed.

(** *** Superseding *)

Lemma hitless_snoc_drain tr e e' :
  hitless tr → e' < e → last (allocations tr) = Some e → serving e tr →
  hitless (tr ++ [EvTransition e' Draining]).
Proof.
  intros Htr Hlt Hlast Hserving i e'' Hi.
  apply lookup_app_Some in Hi as [Hi|[Hlen Hi]].
  - destruct (Htr i e'' Hi) as (e0 & He0 & Hlast0 & Hserving0).
    apply lookup_lt_Some in Hi.
    exists e0. by rewrite take_app_le by lia.
  - apply list_lookup_singleton_Some in Hi as [Hi [= <-]].
    replace i with (length tr) by lia. rewrite take_app_length.
    by exists e.
Qed.

Lemma serving_app e tr evs :
  serving e tr → Forall (untouched e) evs → serving e (tr ++ evs).
Proof.
  intros (j & Hj & Hafter) Hq. exists j. split; [by apply lookup_app_l_Some|].
  intros k s Hk Hat. apply lookup_app_Some in Hat as [Hat|[_ Hat]].
  - by apply (Hafter k s).
  - apply list_elem_of_lookup_2 in Hat.
    rewrite Forall_forall in Hq. by apply Hq in Hat.
Qed.

Lemma supersede_Inv a e e' :
  Inv a → e' < e → superseding e a →
  Inv (supersede a e') ∧ superseding e (supersede a e').
Proof.
  intros HInv Hlt Hrun. unfold supersede, transition.
  destruct (halted a) eqn:Hhalted.
  - rewrite Hhalted. split; [done|]. intros Hh. congruence.
  - destruct (Hrun Hhalted) as [Hlast Hserving].
    destruct (Transition e' Draining (table a)) as [t'|] eqn:Ht; simpl.
    + rewrite Hhalted. apply Transition_epochs in Ht as [Hl He].
      destruct HInv as [Hi Ha Hins Hrec Hh]. split.
      * split; simpl;
          rewrite ?Hl, ?He, ?allocations_app, ?insertions_app; simpl;
          rewrite ?app_nil_r; try done.
        apply hitless_app; [|by repeat constructor].
        by apply (hitless_snoc_drain _ e).
      * intros _. simpl. rewrite !allocations_app. simpl.
        rewrite !app_nil_r. split; [done|].
        rewrite <- app_assoc. apply serving_app; [done|].
        repeat constructor. simpl. lia.
    + split; [|done]. apply (steady_Inv a); [apply halt_steady|done].
Qed.

Lemma supersede_foldl_Inv es : ∀ a e,
  Inv a → Forall (λ e', e' < e) es → superseding e a →
  Inv (foldl supersede a es).
Proof.
  induction es as [|e' es IH]; intros a e HInv Hall Hrun; simpl; [done|].
  apply Forall_cons in Hall as [Hlt Hall].
  destruct (supersede_Inv a e e' HInv Hlt Hrun) as [HInv' Hrun'].
  by apply (IH _ e).
Qed.

Lemma transition_Running_serving e a :
  halted (transition e Running a) = false →
  serving e (trace (transition e Running a)).
Proof.
  unfold transition. destruct (halted a) eqn:Hh; [congruence|].
  destruct (Transition e Running (table a)); simpl; [|done].
  intros _. exists (length (trace a)). split; [by rewrite list_lookup_middle|].
  intros k s Hk Hat. apply lookup_lt_Some in Hat.
  rewrite length_app in Hat. simpl in Hat. lia.
Qed.

Lemma Inv_last_allocation a :
  Inv a → 0 ≤ lastIssued (table a) →
  last (allocations (trace a)) = Some (lastIssued (table a)).
Proof.
  intros [Hi Ha Hins Hrec Hh] Hpos. rewrite Ha.
  rewrite (seqZ_app 0 (lastIssued (table a)) 1) by lia.
  rewrite Z.add_0_l. apply last_snoc.
Qed.

Lemma runningBefore_lt e a :
  Inv a → lastIssued (table a) = e →
  Forall (λ e', e' < e) (runningBefore e (table a)).
Proof.
  intros HInv He. apply Forall_forall. intros e' He'.
  unfold runningBefore in He'.
  apply list_elem_of_fmap in He' as (r & -> & [[_ Hne] Hr]%list_elem_of_filter).
  pose proof (Inv_epoch_range a r HInv Hr). lia.
Qed.

(** *** The invariant is kept *)

Lemma applyArtifact_Inv h payload fp a :
  Inv a → Inv (applyArtifact h payload fp a).
Proof.
  intros HInv. unfold applyArtifact.
  destruct (halted a) eqn:Hhalted; [done|]. simpl.
  destruct (allocate_Inv a HInv) as [HInv1 Hfresh1]. simpl in HInv1, Hfresh1.
  set (e := lastIssued (table a) + 1) in *.
  set (a1 := withTable _ [EvAllocate e] a) in *.
  destruct (writeOk h); simpl; [|by eapply steady_Inv, HInv1; apply scheduleRetry_steady].
  pose proof (materialize_steady e a1) as Hs2.
  set (a2 := materialize e a1) in *.
  set (record := {| epoch := e; artifact := _; proc := None; status := Starting |}).
  assert (HInv3 : Inv (withTable (Insert record (table a2)) [EvInsert e] a2)).
  { apply insert_Inv; [done|by eapply steady_Inv|by eapply steady_Fresh]. }
  assert (Hl3 : lastIssued (table (withTable (Insert record (table a2)) [EvInsert e] a2)) = e).
  { reflexivity. }
  set (a3 := withTable _ [EvInsert e] a2) in *.
  assert (Hs4 : steady a3 (log [EvStart e] a3)) by (apply log_steady; by repeat constructor).
  set (a4 := log [EvStart e] a3) in *.
  destruct (started h) as [pid|].
  - assert (Hs5 : steady a4 (withTable (setProcOf e pid (table a4)) [] a4)).
    { split; [done|]. split.
      - cbn [table withTable]. by rewrite setProcOf_epochs.
      - exists []. split; [|done]. cbn [trace withTable]. by rewrite app_nil_r. }
    set (a5 := withTable (setProcOf e pid (table a4)) [] a4) in *.
    pose proof (transition_steady e Running a5 ltac:(done)) as Hs6.
    set (a6 := transition e Running a5) in *.
    assert (Hs36 : steady a3 a6).
    { eapply steady_trans; [exact Hs4|]. eapply steady_trans; [exact Hs5|exact Hs6]. }
    assert (HInv6 : Inv a6) by (by eapply steady_Inv).
    assert (Hl6 : lastIssued (table a6) = e).
    { destruct Hs36 as [Hl _]. by rewrite Hl. }
    assert (HInv7 : Inv (foldl supersede a6 (runningBefore e (table a6)))).
    { apply (supersede_foldl_Inv _ _ e); [done|by apply runningBefore_lt|].
      intros Hh6. split; [|by apply transition_Running_serving].
      rewrite <- Hl6. apply Inv_last_allocation; [done|].
      destruct HInv as [Hi _ _ _ _]. rewrite Hl6. unfold e. lia. }
    set (a7 := foldl supersede a6 (runningBefore e (table a6))) in *.
    change (Inv (if halted a7 then a7 else setCurrent e fp a7)).
    destruct (halted a7); [exact HInv7|].
    eapply steady_Inv; [apply setCurrent_steady|exact HInv7].
  - eapply steady_Inv; [apply scheduleRetry_steady|].
    eapply steady_Inv; [by apply transition_steady|].
    by eapply steady_Inv.
Qed.

(** *** A pass that succeeds *)

Lemma find_epoch e t r : find e t = Some r → epoch r = e ∧ r ∈ records t.
Proof.
  unfold find. intros Hr. apply head_Some_elem_of in Hr.
  by apply list_elem_of_filter in Hr.
Qed.

Lemma find_elem_of t r :
  NoDup (epoch <$> records t) → r ∈ records t → find (epoch r) t = Some r.
Proof.
  unfold find. induction (records t) as [|r' l IH]; intros Hnd Hr.
  - by apply elem_of_nil in Hr.
  - rewrite fmap_cons in Hnd. apply NoDup_cons in Hnd as [Hnot Hnd].
    rewrite filter_cons. apply elem_of_cons in Hr as [->|Hr].
    + by rewrite decide_True.
    + rewrite decide_False; [by apply IH|].
      intros Heq. apply Hnot. rewrite Heq. by apply list_elem_of_fmap_2.
Qed.

Lemma find_fmap e (f : EpochRecord → EpochRecord) n t :
  (∀ r, epoch (f r) = epoch r) →
  find e {| lastIssued := n; records := f <$> records t |} = f <$> find e t.
Proof.
  intros Hf. unfold find. simpl.
  induction (records t) as [|r l IH]; [done|].
  rewrite fmap_cons, !filter_cons, Hf. case_decide; [done|exact IH].
Qed.

Lemma find_snoc_fresh e n l r :
  Forall (λ r', epoch r' ≠ e) l → epoch r = e →
  find e {| lastIssued := n; records := l ++ [r] |} = Some r.
Proof.
  intros Hl Hr. unfold find. simpl. rewrite filter_app.
  assert (Hnil : filter (λ r', epoch r' = e) l = []).
  { induction Hl as [|r' l Hne _ IH]; [done|].
    rewrite filter_cons. by rewrite decide_False. }
  rewrite Hnil. simpl. rewrite filter_cons. by rewrite decide_True.
Qed.

Lemma fmap_epoch_preserving (f : EpochRecord → EpochRecord) (l : list EpochRecord) :
  (∀ r, epoch (f r) = epoch r) → epoch <$> (f <$> l) = epoch <$> l.
Proof.
  intros Hf. rewrite <- list_fmap_compose. apply list_fmap_ext.
  intros i r _. apply Hf.
Qed.

Lemma Inv_NoDup_epochs a : Inv a → NoDup (epoch <$> records (table a)).
Proof.
  intros [Hi Ha Hins Hrec Hh].
  refine (sublist_NoDup _ _ _ Hrec). refine (sublist_NoDup _ _ _ Hins).
  rewrite Ha. apply NoDup_seqZ.
Qed.

(** Superseding epochs that are [Running] is legal. *)
Lemma supersede_foldl_running es : ∀ a,
  halted a = false → NoDup es →
  (∀ e', e' ∈ es → ∃ r, find e' (table a) = Some r ∧ status r = Running) →
  halted (foldl supersede a es) = false.
Proof.
  induction es as [|e' es IH]; intros a Hh Hnd Hrun; simpl; [done|].
  apply NoDup_cons in Hnd as [Hnot Hnd].
  destruct (Hrun e') as (r & Hfind & Hstatus); [by left|].
  assert (Hstep : supersede a e'
    = log [EvStop e' true]
        (withTable
           {| lastIssued := lastIssued (table a);
              records :=
                (λ r, if decide (epoch r = e') then setStatus Draining r else r)
                <$> records (table a) |}
           [EvTransition e' Draining] a)).
  { unfold supersede, transition, Transition.
    by rewrite Hh, Hfind, Hstatus; simpl; rewrite Hh. }
  rewrite Hstep. apply IH; [done..|].
  intros e'' He''. destruct (Hrun e'') as (r'' & Hfind'' & Hstatus''); [by right|].
  exists r''. split; [|done]. cbn [table log withTable].
  rewrite find_fmap by (intros r0; by case_decide).
  rewrite Hfind''. simpl. rewrite decide_False; [done|].
  apply find_epoch in Hfind'' as [-> _]. intros ->. done.
Qed.

Lemma applyArtifact_success h payload fp pid a :
  Inv a → halted a = false → writeOk h = true → started h = Some pid →
  halted (applyArtifact h payload fp a) = false
  ∧ current (applyArtifact h payload fp a) = Some (lastIssued (table a) + 1)
  ∧ currentFingerprint (applyArtifact h payload fp a) = Some fp.
Proof.
  intros HInv Hh Hw Hs. unfold applyArtifact. rewrite Hh, Hw, Hs. simpl.
  set (e := lastIssued (table a) + 1).
  set (record := {| epoch := e; artifact := _; proc := None; status := Starting |}).
  set (t5 := setProcOf e pid (Insert record {| lastIssued := e; records := records (table a) |})).
  set (a4 := log [EvStart e] _).
  assert (Hh4 : halted a4 = false) by done.
  assert (Hfresh : Forall (λ r, epoch r ≠ e) (records (table a))).
  { apply Forall_forall. intros r Hr.
    pose proof (Inv_epoch_range a r HInv Hr). unfold e. lia. }
  assert (Hfind : find e t5 = Some (setProc (Some pid) (setStatus Starting record))).
  { unfold t5, setProcOf. rewrite find_fmap by (intros r; by case_decide).
    unfold Insert. cbn [records lastIssued].
    rewrite find_snoc_fresh by done. simpl. by rewrite decide_True. }
  set (t6 := {| lastIssued := e;
                records :=
                  (λ r, if decide (epoch r = e) then setStatus Running r else r)
                  <$> records t5 |}).
  assert (Hstep : transition e Running (withTable t5 [] a4)
                  = withTable t6 [EvTransition e Running] (withTable t5 [] a4)).
  { unfold transition, Transition. cbn [halted table withTable].
    by rewrite Hh4, Hfind. }
  rewrite Hstep.
  set (a6 := withTable t6 [EvTransition e Running] (withTable t5 [] a4)).
  assert (Hepochs : epoch <$> records t6 = (epoch <$> records (table a)) ++ [e]).
  { unfold t6. cbn [records].
    rewrite fmap_epoch_preserving by (intros r; by case_decide).
    unfold t5. rewrite setProcOf_epochs. unfold Insert. cbn [records].
    by rewrite fmap_app. }
  assert (Hnd : NoDup (epoch <$> records t6)).
  { rewrite Hepochs. apply NoDup_app. split; [by apply Inv_NoDup_epochs|].
    split; [|apply NoDup_singleton].
    intros x (r & -> & Hr)%list_elem_of_fmap Heq%list_elem_of_singleton.
    rewrite Forall_forall in Hfresh. by apply (Hfresh r). }
  assert (Hh7 : halted (foldl supersede a6 (runningBefore e (table a6))) = false).
  { apply supersede_foldl_running; [done| |].
    - unfold runningBefore.
      refine (sublist_NoDup _ _ Hnd _). apply fmap_sublist, sublist_filter.
    - intros e' (r & -> & [[Hrun _] Hr]%list_elem_of_filter)%list_elem_of_fmap.
      exists r. split; [|done]. by apply find_elem_of. }
  by rewrite Hh7.
Qed.

(** The events of steps 4 to 8 *)
Lemma supersede_appends (P : Event → Prop) a e' :
  (∀ e s, P (EvTransition e s)) → (∀ e g, P (EvStop e g)) → P EvFatal →
  appends P a (supersede a e').
Proof.
  intros Ht Hs Hf. unfold supersede.
  eapply appends_trans; [by apply (transition_appends P e' Draining)|].
  destruct (halted (transition e' Draining a)); [apply appends_refl|].
  exists [EvStop e' true]. split; [done|]. by repeat constructor.
Qed.

Lemma supersede_foldl_appends (P : Event → Prop) es : ∀ a,
  (∀ e s, P (EvTransition e s)) → (∀ e g, P (EvStop e g)) → P EvFatal →
  appends P a (foldl supersede a es).
Proof.
  induction es as [|e' es IH]; intros a Ht Hs Hf; simpl; [apply appends_refl|].
  eapply appends_trans; [by apply supersede_appends|by apply IH].
Qed.

Lemma applyArtifact_trace h payload fp a :
  halted a = false →
  ∃ evs,
    trace (applyArtifact h payload fp a)
    = trace a ++ EvAllocate (lastIssued (table a) + 1) :: evs
    ∧ Forall unrendered evs.
Proof.
  intros Hh. unfold applyArtifact. rewrite Hh. simpl.
  set (e := lastIssued (table a) + 1).
  set (a1 := withTable _ [EvAllocate e] a).
  assert (Hgoal : ∀ a', appends unrendered a1 a' →
            ∃ evs, trace a' = trace a ++ EvAllocate e :: evs ∧ Forall unrendered evs).
  { intros a' (evs & Htr & Hq). exists evs. split; [|done].
    rewrite Htr. simpl. by rewrite <- app_assoc. }
  apply Hgoal. destruct (writeOk h); simpl; [|by apply scheduleRetry_appends].
  set (a4 := log [EvStart e] _).
  assert (H14 : appends unrendered a1 a4).
  { eexists. split; [simpl; rewrite <- !app_assoc; reflexivity|].
    by repeat constructor. }
  eapply appends_trans; [exact H14|].
  destruct (started h) as [pid|].
  - set (a5 := withTable _ [] a4).
    assert (H45 : appends unrendered a4 a5).
    { exists []. split; [|done]. done. }
    eapply appends_trans; [exact H45|].
    eapply appends_trans; [by apply (transition_appends unrendered e Running)|].
    set (a6 := transition e Running a5).
    set (a7 := foldl supersede a6 (runningBefore e (table a6))).
    assert (H67 : appends unrendered a6 a7) by (by apply supersede_foldl_appends).
    eapply appends_trans; [exact H67|].
    destruct (halted a7); [apply appends_refl|].
    exists []. split; [|done]. simpl. by rewrite app_nil_r.
  - eapply appends_trans; [by apply (transition_appends unrendered)|].
    by apply scheduleRetry_appends.
Qed.

Section Executions.
Context {Env : Type} (render : Env → RenderResult).

Lemma reconcile_Inv env h a : Inv a → Inv (reconcile render env h a).
Proof.
  intros HInv. unfold reconcile. destruct (halted a); [done|].
  assert (HInv' : Inv (log [EvRender] a)).
  { eapply steady_Inv; [|done]. apply log_steady. by repeat constructor. }
  destruct (render env) as [payload fp|[]].
  - case_decide; [done|]. by apply applyArtifact_Inv.
  - eapply steady_Inv; [apply scheduleRetry_steady|done].
  - done.
Qed.

Lemma exited_Inv e code signal stabilized h a :
  Inv a → Inv (exited e code signal stabilized h a).
Proof.
  intros HInv. unfold exited. destruct (halted a); [done|].
  case_decide as Hcur.
  - destruct stabilized.
    + set (a1 := transition e (Exited code signal) a).
      assert (HInv1 : Inv a1) by (eapply steady_Inv; [by apply transition_steady|done]).
      set (a2 := {| table := table a1; current := current a1;
                    currentFingerprint := currentFingerprint a1;
                    budget := budget a1; crashes := S (crashes a1);
                    scratch := scratch a1; halted := halted a1;
                    trace := trace a1 |}).
      assert (HInv2 : Inv a2) by (by destruct HInv1).
      destruct (artifact <$> find e (table a)) as [art|]; [|done].
      case_decide; [by apply applyArtifact_Inv|].
      eapply steady_Inv; [apply halt_steady|done].
    + eapply steady_Inv; [apply scheduleRetry_steady|].
      eapply steady_Inv; [apply clearCurrent_steady|].
      eapply steady_Inv; [by apply transition_steady|done].
  - set (a1 := transition e (Exited code signal) a).
    assert (HInv1 : Inv a1) by (eapply steady_Inv; [by apply transition_steady|done]).
    destruct (halted a1); [done|].
    destruct (path <$> (artifact <$> find e (table a))) as [f|]; [|done].
    eapply steady_Inv; [|exact HInv1].
    split; [done|]. split.
    + simpl. apply fmap_sublist, sublist_filter.
    + exists [EvUnlink f]. split; [done|]. by repeat constructor.
Qed.

Lemma initial_Inv budget : Inv (initial budget).
Proof.
  split; simpl; done.
Qed.

Lemma step_Inv a i : Inv a → Inv (step render a i).
Proof.
  intros HInv. destruct i; [by apply reconcile_Inv|by apply exited_Inv].
Qed.

Lemma run_Inv budget inputs : Inv (run render budget inputs).
Proof.
  unfold run. generalize (initial_Inv budget). generalize (initial budget).
  induction inputs as [|i inputs IH]; intros a HInv; simpl; [done|].
  by apply IH, step_Inv.
Qed.

Lemma seqZ_increasing m n : StronglySorted Z.lt (seqZ m n).
Proof.
  destruct (decide (n ≤ 0)) as [Hn|Hn]; [rewrite seqZ_nil by done; constructor|].
  rewrite <- (Z2Nat.id n) by lia. generalize (Z.to_nat n). clear n Hn.
  intros n. revert m. induction n as [|n IH]; intros m.
  - rewrite seqZ_nil by done. constructor.
  - rewrite seqZ_cons by lia. constructor.
    + replace (Z.pred (Z.of_nat (S n))) with (Z.of_nat n) by lia. apply IH.
    + apply Forall_forall. intros k Hk%elem_of_seqZ. lia.
Qed.

(** C3. [Allocate] returns [lastIssued + 1] and makes it the last issued
    epoch. In every execution the epochs allocated so far are 0, 1, ... up
    to the last issued one, in that order: they strictly increase and none is
    repeated. Each epoch given to a record was allocated for it, none is
    given twice, and no two records of the table have the same epoch. *)
Theorem epochs_never_reused (budget : nat) (inputs : list (Input (Env:=Env))) :
  let a := run render budget inputs in
  (∀ t, (Allocate t).1 = lastIssued t + 1
        ∧ lastIssued (Allocate t).2 = lastIssued t + 1)
  ∧ allocations (trace a) = seqZ 0 (lastIssued (table a) + 1)
  ∧ StronglySorted Z.lt (allocations (trace a))
  ∧ NoDup (allocations (trace a))
  ∧ insertions (trace a) `sublist_of` allocations (trace a)
  ∧ NoDup (insertions (trace a))
  ∧ NoDup (epoch <$> records (table a)).
Proof.
  intros a. destruct (run_Inv budget inputs) as [Hi Ha Hins Hrec Hh].
  fold a in Hi, Ha, Hins, Hrec, Hh.
  assert (Hnd : NoDup (allocations (trace a))) by (rewrite Ha; apply NoDup_seqZ).
  assert (Hndi : NoDup (insertions (trace a))) by (by eapply sublist_NoDup).
  repeat split; try done.
  - rewrite Ha. apply seqZ_increasing.
  - by eapply sublist_NoDup.
Qed.

(** C5. In every execution, whenever an epoch is moved to [Draining], the
    epoch that supersedes it, the later epoch allocated last, has been moved
    to [Running] before and has left [Running] at no time since: the old
    epoch is never asked to drain before the new epoch is serving, and the
    two overlap. *)
Theorem hitless_swap (budget : nat) (inputs : list (Input (Env:=Env))) :
  hitless (trace (run render budget inputs)).
Proof. apply (inv_hitless _ (run_Inv budget inputs)). Qed.

(** A pass whose fingerprint is the current one returns after the call of
    the generator: nothing is allocated and no state changes. *)
Lemma reconcile_fingerprint_match env h payload fp a :
  halted a = false → render env = Rendered payload fp →
  currentFingerprint a = Some fp →
  reconcile render env h a = log [EvRender] a.
Proof.
  intros Hh Hr Hfp. unfold reconcile. rewrite Hh, Hr.
  by rewrite decide_True.
Qed.

Lemma log_render_noop a : noop a (log [EvRender] a).
Proof. by repeat split. Qed.

Lemma noop_allocations a a' :
  noop a a' → allocations (trace a') = allocations (trace a).
Proof.
  intros [Htr _]. rewrite Htr, allocations_app. simpl. by rewrite app_nil_r.
Qed.

Lemma noop_renders a a' : noop a a' → renders (trace a') = S (renders (trace a)).
Proof.
  intros [Htr _]. rewrite Htr, renders_app. unfold renders at 2. simpl. lia.
Qed.

(** C4, as amended. Take a state that an execution reaches without a fatal
    error and an environment that the generator renders, and apply the
    environment twice in succession. A pass that finds the fingerprint
    equal to the current one returns after the call of the generator: it
    allocates nothing and leaves the table, the current epoch, the
    fingerprint, the files and the budget as they were; so, when the
    fingerprint is the current one already, both passes are such no-ops.
    When it is not, and the first pass writes its file and starts its
    process, the first pass calls the generator once and allocates one
    epoch, the next one, which becomes current with the new fingerprint,
    and the second pass calls the generator once more and is a no-op: of the
    two calls of the generator exactly one results in a new epoch. *)
Theorem reconcile_idempotent
    (budget : nat) (inputs : list (Input (Env:=Env))) (env : Env)
    (h1 h2 : Outcome) (payload : list Byte.byte) (fp : N) :
  let a := run render budget inputs in
  halted a = false →
  render env = Rendered payload fp →
  let a1 := reconcile render env h1 a in
  let a2 := reconcile render env h2 a1 in
  (currentFingerprint a = Some fp →
     noop a a1 ∧ noop a1 a2
     ∧ allocations (trace a1) = allocations (trace a)
     ∧ allocations (trace a2) = allocations (trace a))
  ∧ (currentFingerprint a ≠ Some fp → writeOk h1 = true →
     is_Some (started h1) →
     halted a1 = false
     ∧ renders (trace a1) = S (renders (trace a))
     ∧ allocations (trace a1) = allocations (trace a) ++ [lastIssued (table a) + 1]
     ∧ current a1 = Some (lastIssued (table a) + 1)
     ∧ currentFingerprint a1 = Some fp
     ∧ noop a1 a2
     ∧ renders (trace a2) = S (S (renders (trace a)))
     ∧ allocations (trace a2) = allocations (trace a) ++ [lastIssued (table a) + 1]).
Proof.
  intros a Hh Hr a1 a2.
  pose proof (run_Inv budget inputs) as HInv. fold a in HInv. split.
  - intros Hfp.
    assert (Ha1 : a1 = log [EvRender] a).
    { by apply (reconcile_fingerprint_match env h1 payload fp). }
    assert (Ha2 : a2 = log [EvRender] a1).
    { apply (reconcile_fingerprint_match env h2 payload fp); [|done|];
        by rewrite Ha1. }
    assert (Hn1 : noop a a1) by (rewrite Ha1; apply log_render_noop).
    assert (Hn2 : noop a1 a2) by (rewrite Ha2; apply log_render_noop).
    split; [done|]. split; [done|].
    rewrite (noop_allocations a1 a2 Hn2). split; by apply noop_allocations.
  - intros Hfp Hw [pid Hs].
    assert (Ha1 : a1 = applyArtifact h1 payload fp (log [EvRender] a)).
    { unfold a1, reconcile. rewrite Hh, Hr. by rewrite decide_False. }
    assert (HInv0 : Inv (log [EvRender] a)).
    { eapply steady_Inv; [|exact HInv]. apply log_steady. by repeat constructor. }
    destruct (applyArtifact_success h1 payload fp pid (log [EvRender] a))
      as (Hh1 & Hc1 & Hf1); [done..|].
    destruct (applyArtifact_trace h1 payload fp (log [EvRender] a))
      as (evs & Htr & Hq); [done|].
    rewrite <- Ha1 in Hh1, Hc1, Hf1, Htr.
    cbn [table log withTable trace] in Hc1, Htr.
    assert (Ha2 : a2 = log [EvRender] a1).
    { by apply (reconcile_fingerprint_match env h2 payload fp). }
    assert (Hn2 : noop a1 a2) by (rewrite Ha2; apply log_render_noop).
    assert (Hr1 : renders (trace a1) = S (renders (trace a))).
    { rewrite Htr, <- app_assoc, !renders_app. simpl.
      change (EvAllocate (lastIssued (table a) + 1) :: evs)
        with ([EvAllocate (lastIssued (table a) + 1)] ++ evs).
      rewrite renders_app, (unrendered_renders evs Hq).
      unfold renders. simpl. lia. }
    assert (Hal1 : allocations (trace a1)
                   = allocations (trace a) ++ [lastIssued (table a) + 1]).
    { rewrite Htr, <- app_assoc, !allocations_app. simpl.
      by rewrite (unrendered_allocations evs Hq). }
    rewrite (noop_renders a1 a2 Hn2), (noop_allocations a1 a2 Hn2), Hr1.
    by split_and!.
Qed.

End Executions.

(** ** The agent on the example *)
Module OnExample.
Import Agent.Example.

(** A cold start, then the same environment twice *)
Lemma reconcile_idempotent_witness :
  let a := run exRender 3 [Reconcile 1%nat (ok 100)] in
  let a1 := reconcile exRender 2%nat (ok 101) a in
  let a2 := reconcile exRender 2%nat (ok 102) a1 in
  (halted a = false ∧ currentFingerprint a ≠ Some 2%N)
  ∧ allocations (trace a1) = [0; 1]
  ∧ renders (trace a2) = 3%nat
  ∧ allocations (trace a2) = [0; 1]
  ∧ table a2 = table a1.
Proof.
  intros a a1 a2.
  assert (Hh : halted a = false) by reflexivity.
  assert (Hfp : currentFingerprint a ≠ Some 2%N) by (by vm_compute).
  split; [done|].
  destruct (reconcile_idempotent exRender 3 [Reconcile 1%nat (ok 100)] 2%nat
              (ok 101) (ok 102) _ 2%N Hh eq_refl) as [_ Hfresh].
  destruct (Hfresh Hfp eq_refl (mk_is_Some _ _ eq_refl))
    as (_ & _ & Hal1 & _ & _ & Hn2 & Hr2 & Hal2).
  fold a a1 a2 in Hal1, Hn2, Hr2, Hal2.
  split; [exact Hal1|]. split; [exact Hr2|]. split; [exact Hal2|].
  by destruct Hn2 as (_ & Ht2 & _).
Defined.

(** C4 fails as stated when the first of the two passes fails. The proxy
    does not start, or the file is not written: the pass has allocated epoch
    0, no fingerprint is current after it, and the second pass on the same
    environment calls the generator again and allocates epoch 1. *)
Lemma reconcile_idempotent_counterexample :
  currentFingerprint (run exRender 3 [Reconcile 1%nat startFails]) = None
  ∧ allocations (trace (run exRender 3 [Reconcile 1%nat startFails])) = [0]
  ∧ renders (trace (run exRender 3 startFailsFirst)) = 2%nat
  ∧ allocations (trace (run exRender 3 startFailsFirst)) = [0; 1]
  ∧ halted (run exRender 3 startFailsFirst) = false
  ∧ renders (trace (run exRender 3 writeFailsFirst)) = 2%nat
  ∧ allocations (trace (run exRender 3 writeFailsFirst)) = [0; 1].
Proof. by vm_compute. Qed.

(** The epochs of the three reconfigurations *)
Example three_epochs :
  allocations (trace (run exRender 3 three)) = [0; 1; 2]
  ∧ Active (table (run exRender 3 three)) = [0; 1; 2]
  ∧ current (run exRender 3 three) = Some 2.
Proof. by vm_compute. Qed.

(** Section 8, scenario 5: with a budget of 3, epochs 0, 1 and 2 are
    allocated and end [Failed]; the 3rd failure is fatal, and the request
    that follows allocates no epoch 3. *)
Example crash_loop :
  allocations (trace (run exRender 3 crashLoop)) = [0; 1; 2]
  ∧ status <$> records (table (run exRender 3 crashLoop))
    = [Failed "startup"; Failed "startup"; Failed "startup"]
  ∧ halted (run exRender 3 crashLoop) = true
  ∧ filter (λ ev, ev = EvFatal) (trace (run exRender 3 crashLoop)) = [EvFatal]
  ∧ halted (run exRender 3 (take 5 crashLoop)) = false.
Proof. by vm_compute. Qed.

(** Section 8, scenario 6: the proxy is killed after it has stabilized, and
    the same artifact is applied again under the next epoch. *)
Example late_crash :
  allocations (trace (run exRender 3 lateCrash)) = [0; 1]
  ∧ status <$> records (table (run exRender 3 lateCrash)) = [Exited 0 9; Running]
  ∧ fingerprint <$> (artifact <$> records (table (run exRender 3 lateCrash)))
    = [1%N; 1%N]
  ∧ current (run exRender 3 lateCrash) = Some 1
  ∧ halted (run exRender 3 lateCrash) = false.
Proof. by vm_compute. Qed.

(** A swap with a gap is not hitless: epoch 1 has exited when epoch 0 is
    asked to drain. *)
Example gap_not_hitless : ¬ hitless gap.
Proof.
  intros Hgap.
  destruct (Hgap 5%nat 0 eq_refl) as (e' & _ & Hlast & j & Hj & Hafter).
  injection Hlast as <-.
  destruct j as [|[|[|[|[|j]]]]]; try discriminate.
  by apply (Hafter 4%nat (Exited 1 0) ltac:(lia)).
Qed.

End OnExample.

End AgentProps.
